(** * ChessMMO: the match state engine of [server.js]

    A shallow embedding of the room state and of the functions of
    [src/server.js] that create, mutate and inspect it, followed by the
    properties of the engine.

    Conventions of the embedding.
    - Coordinates are integers ([Z]).  The keys [`${row},${col}`] of the
      [woods] and [dangerZones] sets are modelled by the pair [(row, col)]:
      for integers the string is an injective function of the pair.
    - Piece objects are shared between a player's [pieces] array and the
      board cells.  They live in a heap ([room_heap]), and both the array and
      the cells hold references ([loc], an index into the heap).  A field
      assignment [piece.row = toRow] is an update of the heap at that index,
      seen through every reference.
    - [room.players] is a JS [Map]: an association list in insertion order.
    - [Math.random()] is an oracle: a stream of rationals, which the
      theorems assume to be binary64 numbers of [[0,1)] where the range
      matters.  A product [Math.random() * n] is rounded to the nearest
      binary64 number, as the JS multiplication does, before
      [Math.floor] is taken.
    - [Date.now()] is a parameter [now]; [setTimeout], [setInterval],
      [clearInterval] and socket emissions are returned as a list of
      effects, which the event loop ([step]) interprets.
    - A JS [TypeError] (reading a property of [undefined]) is the result
      [None] of a function into [option]. *)

From Stdlib Require Import ZArith QArith Qround Qpower Lia Lqa.
From stdpp Require Import base option list list_numbers gmap sets strings pretty.

Open Scope Z_scope.

(** ** The random oracle *)

Record Rand := mkRand { stream : N → Q; pos : N }.

(** [Math.random()] *)
Definition random (g : Rand) : Q * Rand :=
  (stream g (pos g), mkRand (stream g) (N.succ (pos g))).

(** *** binary64 arithmetic *)

(** The exponent of the leading bit of a positive rational: the [k] with
    [2^k <= x < 2^(k+1)]. *)
Definition Qlog2 (x : Q) : Z :=
  let k := Z.log2 (Qnum x) - Z.log2 (Z.pos (Qden x)) in
  if Qle_bool (2 ^ k) x then k else k - 1.

(** The exponent of the unit in the last place of the binary64 numbers
    around a positive [x]: 52 bits below the leading bit, and never below
    that of the subnormal numbers. *)
Definition ulp_exp (x : Q) : Z := Z.max (Qlog2 x - 52) (-1074).

(** Rounding to the nearest integer, ties to the even one. *)
Definition round_half_even (m : Q) : Z :=
  let f := Qfloor m in
  match (m - inject_Z f ?= 1 # 2)%Q with
  | Lt => f
  | Gt => f + 1
  | Eq => if Z.even f then f else f + 1
  end.

(** The binary64 number nearest to [x], ties to even: the result of an
    arithmetic operation of JS whose exact value is [x].  (No value of this
    program comes near the overflow threshold.) *)
Definition round_double (x : Q) : Q :=
  match (x ?= 0)%Q with
  | Eq => 0%Q
  | Gt =>
      let e := ulp_exp x in
      (inject_Z (round_half_even (x / 2 ^ e)) * 2 ^ e)%Q
  | Lt =>
      let e := ulp_exp (- x) in
      (- (inject_Z (round_half_even (- x / 2 ^ e)) * 2 ^ e))%Q
  end.

(** The rationals that are binary64 numbers. *)
Definition is_double (x : Q) : Prop := (round_double x == x)%Q.

(** The greatest binary64 number below 1. *)
Definition max_random : Q := (1 - 2 ^ (-53))%Q.

(** [Math.floor(Math.random() * n)]: the product is a binary64 number. *)
Definition floor_random (n : Z) (g : Rand) : Z * Rand :=
  let '(q, g) := random g in (Qfloor (round_double (q * inject_Z n)), g).

(** Every draw is a binary64 number of [[0,1)], as [Math.random()]
    returns. *)
Definition unit_interval (g : Rand) : Prop :=
  ∀ i, is_double (stream g i) ∧ (0 <= stream g i)%Q ∧ (stream g i < 1)%Q.

(** An oracle that replays a list of draws and then returns [0] forever. *)
Fixpoint replay_at (l : list Q) (i : N) : Q :=
  match l with
  | [] => 0%Q
  | q :: l => if (i =? 0)%N then q else replay_at l (N.pred i)
  end.

Definition replay (l : list Q) : Rand := mkRand (replay_at l) 0.

(** ** Constants *)

Definition ADMIN_PASSWORD : string := "chipschessmmo".
Definition BOARD_SIZE : Z := 200.
Definition MAX_PLAYERS : Z := 20.

(** ** Data model *)

Inductive Phase := lobby | playing | ended.
Inductive PieceType := king | queen | rook | bishop | knight | pawn.
Inductive Color := white | black.

Global Instance Phase_eq_dec : EqDecision Phase.
Proof. solve_decision. Defined.
Global Instance PieceType_eq_dec : EqDecision PieceType.
Proof. solve_decision. Defined.
Global Instance Color_eq_dec : EqDecision Color.
Proof. solve_decision. Defined.

(** A reference to a piece object: an index into the heap. *)
Abbreviation loc := nat (only parsing).

Record Piece := mkPiece {
  piece_id : string;
  piece_type : PieceType;
  piece_color : Color;
  piece_playerId : string;
  piece_row : Z;
  piece_col : Z;
  piece_canMove : bool;
  piece_cooldownExpires : Z
}.

Global Instance Piece_inhabited : Inhabited Piece :=
  populate (mkPiece "" pawn white "" 0 0 true 0).

Record Player := mkPlayer {
  player_id : string;
  player_sessionId : string;
  player_socketId : string;
  player_name : string;
  player_isAdmin : bool;
  player_color : string;
  player_pieces : list loc;
  player_alive : bool;
  player_connected : bool;
  player_joinedAt : Z;
  player_disconnectedAt : option Z
}.

Global Instance Player_inhabited : Inhabited Player :=
  populate (mkPlayer "" "" "" "" false "" [] true true 0 None).

Record Room := mkRoom {
  room_id : string;
  phase : Phase;
  players : list (string * Player);
  board : gmap (Z * Z) loc;
  woods : gset (Z * Z);
  dangerZones : gset (Z * Z);
  shrinkTimer : Z;
  shrinkInterval : option nat;
  turn : Z;
  cooldowns : gmap string Z;
  admin : option string;
  createdAt : Z;
  lastActivity : Z;
  room_heap : list Piece
}.

(** *** Field assignments *)

Definition set_row_col (r c : Z) (p : Piece) : Piece :=
  mkPiece (piece_id p) (piece_type p) (piece_color p) (piece_playerId p)
          r c (piece_canMove p) (piece_cooldownExpires p).
Definition set_canMove (b : bool) (p : Piece) : Piece :=
  mkPiece (piece_id p) (piece_type p) (piece_color p) (piece_playerId p)
          (piece_row p) (piece_col p) b (piece_cooldownExpires p).
Definition set_cooldownExpires (t : Z) (p : Piece) : Piece :=
  mkPiece (piece_id p) (piece_type p) (piece_color p) (piece_playerId p)
          (piece_row p) (piece_col p) (piece_canMove p) t.

Definition set_pieces (l : list loc) (p : Player) : Player :=
  mkPlayer (player_id p) (player_sessionId p) (player_socketId p)
           (player_name p) (player_isAdmin p) (player_color p) l
           (player_alive p) (player_connected p) (player_joinedAt p)
           (player_disconnectedAt p).
Definition set_alive (b : bool) (p : Player) : Player :=
  mkPlayer (player_id p) (player_sessionId p) (player_socketId p)
           (player_name p) (player_isAdmin p) (player_color p)
           (player_pieces p) b (player_connected p) (player_joinedAt p)
           (player_disconnectedAt p).
Definition set_isAdmin (b : bool) (p : Player) : Player :=
  mkPlayer (player_id p) (player_sessionId p) (player_socketId p)
           (player_name p) b (player_color p) (player_pieces p)
           (player_alive p) (player_connected p) (player_joinedAt p)
           (player_disconnectedAt p).
Definition set_socketId (s : string) (p : Player) : Player :=
  mkPlayer (player_id p) (player_sessionId p) s
           (player_name p) (player_isAdmin p) (player_color p)
           (player_pieces p) (player_alive p) (player_connected p)
           (player_joinedAt p) (player_disconnectedAt p).
Definition set_connected (b : bool) (p : Player) : Player :=
  mkPlayer (player_id p) (player_sessionId p) (player_socketId p)
           (player_name p) (player_isAdmin p) (player_color p)
           (player_pieces p) (player_alive p) b (player_joinedAt p)
           (player_disconnectedAt p).
Definition set_disconnectedAt (t : Z) (p : Player) : Player :=
  mkPlayer (player_id p) (player_sessionId p) (player_socketId p)
           (player_name p) (player_isAdmin p) (player_color p)
           (player_pieces p) (player_alive p) (player_connected p)
           (player_joinedAt p) (Some t).

Definition set_phase (x : Phase) (r : Room) : Room :=
  mkRoom (room_id r) x (players r) (board r) (woods r) (dangerZones r)
         (shrinkTimer r) (shrinkInterval r) (turn r) (cooldowns r) (admin r)
         (createdAt r) (lastActivity r) (room_heap r).
Definition set_players (x : list (string * Player)) (r : Room) : Room :=
  mkRoom (room_id r) (phase r) x (board r) (woods r) (dangerZones r)
         (shrinkTimer r) (shrinkInterval r) (turn r) (cooldowns r) (admin r)
         (createdAt r) (lastActivity r) (room_heap r).
Definition set_board (x : gmap (Z * Z) loc) (r : Room) : Room :=
  mkRoom (room_id r) (phase r) (players r) x (woods r) (dangerZones r)
         (shrinkTimer r) (shrinkInterval r) (turn r) (cooldowns r) (admin r)
         (createdAt r) (lastActivity r) (room_heap r).
Definition set_woods (x : gset (Z * Z)) (r : Room) : Room :=
  mkRoom (room_id r) (phase r) (players r) (board r) x (dangerZones r)
         (shrinkTimer r) (shrinkInterval r) (turn r) (cooldowns r) (admin r)
         (createdAt r) (lastActivity r) (room_heap r).
Definition set_dangerZones (x : gset (Z * Z)) (r : Room) : Room :=
  mkRoom (room_id r) (phase r) (players r) (board r) (woods r) x
         (shrinkTimer r) (shrinkInterval r) (turn r) (cooldowns r) (admin r)
         (createdAt r) (lastActivity r) (room_heap r).
Definition set_shrinkTimer (x : Z) (r : Room) : Room :=
  mkRoom (room_id r) (phase r) (players r) (board r) (woods r) (dangerZones r)
         x (shrinkInterval r) (turn r) (cooldowns r) (admin r)
         (createdAt r) (lastActivity r) (room_heap r).
Definition set_shrinkInterval (x : option nat) (r : Room) : Room :=
  mkRoom (room_id r) (phase r) (players r) (board r) (woods r) (dangerZones r)
         (shrinkTimer r) x (turn r) (cooldowns r) (admin r)
         (createdAt r) (lastActivity r) (room_heap r).
Definition set_turn (x : Z) (r : Room) : Room :=
  mkRoom (room_id r) (phase r) (players r) (board r) (woods r) (dangerZones r)
         (shrinkTimer r) (shrinkInterval r) x (cooldowns r) (admin r)
         (createdAt r) (lastActivity r) (room_heap r).
Definition set_cooldowns (x : gmap string Z) (r : Room) : Room :=
  mkRoom (room_id r) (phase r) (players r) (board r) (woods r) (dangerZones r)
         (shrinkTimer r) (shrinkInterval r) (turn r) x (admin r)
         (createdAt r) (lastActivity r) (room_heap r).
Definition set_admin (x : option string) (r : Room) : Room :=
  mkRoom (room_id r) (phase r) (players r) (board r) (woods r) (dangerZones r)
         (shrinkTimer r) (shrinkInterval r) (turn r) (cooldowns r) x
         (createdAt r) (lastActivity r) (room_heap r).
Definition set_lastActivity (x : Z) (r : Room) : Room :=
  mkRoom (room_id r) (phase r) (players r) (board r) (woods r) (dangerZones r)
         (shrinkTimer r) (shrinkInterval r) (turn r) (cooldowns r) (admin r)
         (createdAt r) x (room_heap r).
Definition set_heap (x : list Piece) (r : Room) : Room :=
  mkRoom (room_id r) (phase r) (players r) (board r) (woods r) (dangerZones r)
         (shrinkTimer r) (shrinkInterval r) (turn r) (cooldowns r) (admin r)
         (createdAt r) (lastActivity r) x.

(** *** The [players] map *)

(** [room.players.get(k)] *)
Fixpoint players_get (k : string) (m : list (string * Player)) : option Player :=
  match m with
  | [] => None
  | (k', v) :: m => if decide (k' = k) then Some v else players_get k m
  end.

(** [room.players.set(k, v)]: an existing key keeps its position. *)
Fixpoint players_set (k : string) (v : Player) (m : list (string * Player))
  : list (string * Player) :=
  match m with
  | [] => [(k, v)]
  | (k', v') :: m =>
      if decide (k' = k) then (k, v) :: m else (k', v') :: players_set k v m
  end.

(** [room.players.delete(k)] *)
Fixpoint players_delete (k : string) (m : list (string * Player))
  : list (string * Player) :=
  match m with
  | [] => []
  | (k', v') :: m =>
      if decide (k' = k) then m else (k', v') :: players_delete k m
  end.

(** [Array.from(room.players.values())] *)
Definition players_values (m : list (string * Player)) : list Player := m.*2.

(** [room.players.size] *)
Definition players_size (m : list (string * Player)) : Z := Z.of_nat (length m).

(** *** The board *)

(** An absent key is a cell whose [piece] is [null].  The [woods] flag of a
    cell is written once (to [false]) and never read: it is left out. *)
Definition in_bounds (r c : Z) : bool :=
  (0 <=? r) && (r <? BOARD_SIZE) && (0 <=? c) && (c <? BOARD_SIZE).

(** [room.board[r][c].piece]; [None] when [room.board[r]] or
    [room.board[r][c]] is [undefined]. *)
Definition board_get (b : gmap (Z * Z) loc) (r c : Z) : option (option loc) :=
  if in_bounds r c then Some (b !! (r, c)) else None.

(** [room.board[r][c].piece = v] *)
Definition board_set (b : gmap (Z * Z) loc) (r c : Z) (v : option loc)
  : option (gmap (Z * Z) loc) :=
  if in_bounds r c then
    Some (match v with Some l => <[(r, c) := l]> b | None => delete (r, c) b end)
  else None.

(** [createBoard()] *)
Definition createBoard : gmap (Z * Z) loc := ∅.

(** ** Terrain generation *)

(** One sub-draw of the inner loop of [generateWoods]. *)
Definition woods_subdraw (centerRow centerCol : Z) (w : gset (Z * Z)) (g : Rand)
  : gset (Z * Z) * Rand :=
  let '(a, g) := floor_random 6 g in
  let offsetRow := a - 3 in
  let '(b, g) := floor_random 6 g in
  let offsetCol := b - 3 in
  let row := centerRow + offsetRow in
  let col := centerCol + offsetCol in
  if (0 <=? row) && (row <? BOARD_SIZE) && (0 <=? col) && (col <? BOARD_SIZE)
  then ({[ (row, col) ]} ∪ w, g)
  else (w, g).

(** [for (let j = 0; j < patchSize; j++)] *)
Fixpoint woods_patch (patchSize : nat) (centerRow centerCol : Z)
    (w : gset (Z * Z)) (g : Rand) : gset (Z * Z) * Rand :=
  match patchSize with
  | O => (w, g)
  | S n =>
      let '(w, g) := woods_subdraw centerRow centerCol w g in
      woods_patch n centerRow centerCol w g
  end.

(** [Math.floor(BOARD_SIZE * BOARD_SIZE * 0.05)] *)
Definition numPatches : Z := Qfloor (inject_Z (BOARD_SIZE * BOARD_SIZE) * (5 # 100)).

(** [for (let i = 0; i < numPatches; i++)] *)
Fixpoint woods_patches (n : nat) (w : gset (Z * Z)) (g : Rand)
  : gset (Z * Z) * Rand :=
  match n with
  | O => (w, g)
  | S n =>
      let '(centerRow, g) := floor_random BOARD_SIZE g in
      let '(centerCol, g) := floor_random BOARD_SIZE g in
      let '(s, g) := floor_random 8 g in
      let patchSize := s + 3 in
      let '(w, g) := woods_patch (Z.to_nat patchSize) centerRow centerCol w g in
      woods_patches n w g
  end.

Definition generateWoods (g : Rand) : gset (Z * Z) * Rand :=
  woods_patches (Z.to_nat numPatches) ∅ g.

Definition createGameRoom (roomId : string) (now : Z) (g : Rand) : Room * Rand :=
  let '(w, g) := generateWoods g in
  (mkRoom roomId lobby [] createBoard w ∅ 60 None 0 ∅ None now now [], g).

(** ** Effects, sockets and callbacks *)

(** What a pending [setTimeout] runs. *)
Inductive Callback :=
  | cooldown_timeout (piece : loc)
  | removal_timeout (playerId : string).

(** The events of the protocol.  The [gameState] snapshot that some of them
    carry is a function of the room ([serializeGameState]) and is left out of
    the payload. *)
Inductive Event :=
  | join_error (message : string)
  | reconnected (playerId : string)
  | player_reconnected (playerId playerName : string)
  | joined_room (playerId : string)
  | player_joined (playerId : string) (totalPlayers : Z)
  | error_event (message : string)
  | game_started
  | invalid_move (message : string)
  | piece_moved (pieceId : string) (fromRow fromCol toRow toCol : Z)
                (playerId : string)
  | game_reset
  | player_disconnected (playerId playerName : string)
  | player_removed (playerId : string)
  | timer_update (shrinkTimer : Z) (dangerZones : gset (Z * Z))
  | cooldown_expired (pieceId : string)
  | game_ended (winner : option string).

Inductive Target :=
  | to_socket (socketId : string)          (* socket.emit *)
  | to_room (roomId : string)              (* io.to(roomId).emit *)
  | to_others (roomId socketId : string).  (* socket.to(roomId).emit *)

Inductive Effect :=
  | Emit (t : Target) (e : Event)
  | SetTimeout (cb : Callback) (delay : Z)
  | SetInterval (handle : nat) (delay : Z)
  | ClearInterval (handle : nat).

Record Socket := mkSocket {
  socket_id : string;
  socket_roomId : option string;
  socket_playerId : option string;
  socket_sessionId : option string
}.

(** [gameRooms.get(socket.roomId)] in a server that holds the one room
    [room]; [!socket.roomId] is also true of the empty string. *)
Definition socket_room (room : Room) (socket : Socket) : bool :=
  match socket_roomId socket with
  | None => false
  | Some rid => bool_decide (rid ≠ "") && bool_decide (rid = room_id room)
  end.

(** [room.players.get(socket.playerId)] *)
Definition socket_player (room : Room) (socket : Socket) : option Player :=
  match socket_playerId socket with
  | None => None
  | Some pid => players_get pid (players room)
  end.

(** ** Helper functions *)

Definition colors : list string :=
  [ "#FF6B6B"; "#4ECDC4"; "#45B7D1"; "#96CEB4"; "#FECA57";
    "#FF9FF3"; "#54A0FF"; "#5F27CD"; "#00D2D3"; "#FF9F43";
    "#FD79A8"; "#6C5CE7"; "#A29BFE"; "#FD79A8"; "#FDCB6E";
    "#E17055"; "#74B9FF"; "#0984E3"; "#00B894"; "#FDCB6E" ].

Definition getPlayerColor (index : Z) : string :=
  colors !!! Z.to_nat (index `mod` Z.of_nat (length colors)).

(** *** Spawn placement *)

Definition minDistance : Z := 20.
Definition maxAttempts : nat := 1000.

(** [Math.sqrt(Math.pow(row - pos.row, 2) + Math.pow(col - pos.col, 2))
    < minDistance].  The sum of the squares is an integer, and the square
    root is below 20 exactly when that integer is below 400. *)
Definition closer_than_min (row col : Z) (p : Z * Z) : bool :=
  (row - p.1) ^ 2 + (col - p.2) ^ 2 <? minDistance ^ 2.

(** The [for (const pos of positions)] scan that sets [tooClose]. *)
Definition tooClose (row col : Z) (positions : list (Z * Z)) : bool :=
  existsb (closer_than_min row col) positions.

(** The [while (!validPosition && attempts < maxAttempts)] loop; [fuel] is
    [maxAttempts - attempts].  The result is the accepted draw, or [None]
    when the loop ends with [validPosition] still false. *)
Fixpoint spawn_attempts (fuel : nat) (positions : list (Z * Z)) (g : Rand)
  : option (Z * Z) * Rand :=
  match fuel with
  | O => (None, g)
  | S fuel =>
      let '(a, g) := floor_random (BOARD_SIZE - 10) g in
      let row := a + 5 in
      let '(b, g) := floor_random (BOARD_SIZE - 10) g in
      let col := b + 5 in
      if tooClose row col positions
      then spawn_attempts fuel positions g
      else (Some (row, col), g)
  end.

(** The [switch (edge)] of the fallback.  It has no default case: [None]
    stands for a position whose [row] and [col] stay [undefined]. *)
Definition spawn_fallback (g : Rand) : option (Z * Z) * Rand :=
  let '(edge, g) := floor_random 4 g in
  match edge with
  | 0 => let '(c, g) := floor_random BOARD_SIZE g in (Some (5, c), g)
  | 1 => let '(c, g) := floor_random BOARD_SIZE g in (Some (BOARD_SIZE - 5, c), g)
  | 2 => let '(r, g) := floor_random BOARD_SIZE g in (Some (r, 5), g)
  | 3 => let '(r, g) := floor_random BOARD_SIZE g in (Some (r, BOARD_SIZE - 5), g)
  | _ => (None, g)
  end.

(** One iteration of [for (let playerIndex ...)]. *)
Definition spawn_one (positions : list (Z * Z)) (g : Rand)
  : option (list (Z * Z)) * Rand :=
  match spawn_attempts maxAttempts positions g with
  | (Some p, g) => (Some (positions ++ [p]), g)
  | (None, g) =>
      match spawn_fallback g with
      | (Some p, g) => (Some (positions ++ [p]), g)
      | (None, g) => (None, g)
      end
  end.

Fixpoint spawn_positions_loop (n : nat) (positions : list (Z * Z)) (g : Rand)
  : option (list (Z * Z)) * Rand :=
  match n with
  | O => (Some positions, g)
  | S n =>
      match spawn_one positions g with
      | (Some positions, g) => spawn_positions_loop n positions g
      | (None, g) => (None, g)
      end
  end.

Definition generateSpawnPositions (playerCount : Z) (g : Rand)
  : option (list (Z * Z)) * Rand :=
  spawn_positions_loop (Z.to_nat playerCount) [] g.

(** *** The piece factory *)

Definition pieceTypes : list (PieceType * Z * Z) :=
  [ (king, 0, 0); (queen, 0, 1);
    (rook, 0, -1); (rook, 0, 2);
    (bishop, 0, -2); (bishop, 0, 3);
    (knight, 0, -3); (knight, 0, 4);
    (pawn, 1, -3); (pawn, 1, -2); (pawn, 1, -1); (pawn, 1, 0);
    (pawn, 1, 1); (pawn, 1, 2); (pawn, 1, 3); (pawn, 1, 4) ].

(** [Math.max(0, Math.min(BOARD_SIZE - 1, x))] *)
Definition clamp (x : Z) : Z := Z.max 0 (Z.min (BOARD_SIZE - 1) x).

Definition createPlayerPieces (playerId : string) (startRow startCol : Z)
    (g : Rand) : list Piece * Rand :=
  let '(q, g) := random g in
  let color := if Qle_bool q (1 # 2) then black else white in
  (imap (λ index (pieceData : PieceType * Z * Z),
           let '(ty, dr, dc) := pieceData in
           mkPiece (playerId +:+ "_" +:+ pretty index) ty color playerId
                   (clamp (startRow + dr)) (clamp (startCol + dc)) true 0)
        pieceTypes, g).

(** [player.pieces.forEach(piece => room.board[piece.row][piece.col].piece
    = piece)]: the coordinates are clamped, so the cells exist. *)
Definition place_pieces (h : list Piece) (b : gmap (Z * Z) loc) (ls : list loc)
  : gmap (Z * Z) loc :=
  foldl (λ b l, <[(piece_row (h !!! l), piece_col (h !!! l)) := l]> b) b ls.

(** The body of [for (const [playerId, player] of room.players)]. *)
Fixpoint spawn_loop (entries : list (string * Player))
    (spawnPositions : list (Z * Z)) (index : nat) (room : Room) (g : Rand)
  : Room * Rand :=
  match entries with
  | [] => (room, g)
  | (playerId, player) :: entries =>
      match spawnPositions !! index with
      | None => (room, g)
      | Some spawn =>
          let '(pcs, g) := createPlayerPieces playerId spawn.1 spawn.2 g in
          let ls := seq (length (room_heap room)) (length pcs) in
          let h := room_heap room ++ pcs in
          let room := set_heap h room in
          let room :=
            set_players (players_set playerId (set_pieces ls player) (players room))
                        room in
          let room := set_board (place_pieces h (board room) ls) room in
          spawn_loop entries spawnPositions (S index) room g
      end
  end.

Definition spawnPlayers (room : Room) (g : Rand) : option Room * Rand :=
  match generateSpawnPositions (players_size (players room)) g with
  | (Some spawnPositions, g) =>
      let '(room, g) := spawn_loop (players room) spawnPositions 0 room g in
      (Some room, g)
  | (None, g) => (None, g)
  end.

(** ** Piece removal, lookup and win detection *)

Definition removePieceFromGame (room : Room) (piece : loc) : Room :=
  let h := room_heap room in
  let pc := h !!! piece in
  match players_get (piece_playerId pc) (players room) with
  | Some player =>
      let pieces' :=
        filter (λ p, piece_id (h !!! p) ≠ piece_id pc) (player_pieces player) in
      let player := set_pieces pieces' player in
      let player :=
        if bool_decide (length pieces' = 0%nat) then set_alive false player
        else player in
      set_players (players_set (piece_playerId pc) player (players room)) room
  | None => room
  end.

(** The [for (const [playerId, player] of room.players)] loop of
    [findPiece]. *)
Fixpoint findPiece_loop (h : list Piece) (pieceId : string)
    (entries : list (string * Player)) : option loc :=
  match entries with
  | [] => None
  | (_, player) :: entries =>
      match find (λ p, bool_decide (piece_id (h !!! p) = pieceId))
                 (player_pieces player) with
      | Some piece => Some piece
      | None => findPiece_loop h pieceId entries
      end
  end.

Definition findPiece (room : Room) (pieceId : string) : option loc :=
  findPiece_loop (room_heap room) pieceId (players room).

(** [Array.from(room.players.values()).filter(p => p.alive &&
    p.pieces.length > 0)] *)
Definition alivePlayers (room : Room) : list Player :=
  filter (λ p, player_alive p = true ∧ (0 < length (player_pieces p))%nat)
         (players_values (players room)).

Definition checkGameEnd (room : Room) : Room * list Effect :=
  let alive := alivePlayers room in
  if bool_decide (length alive ≤ 1)%nat then
    let room := set_phase ended room in
    let clear :=
      match shrinkInterval room with
      | Some h => [ClearInterval h]
      | None => []
      end in
    let winner := head alive in
    (room, clear ++ [Emit (to_room (room_id room))
                          (game_ended (player_name <$> winner))])
  else (room, []).

(** ** The move engine *)

Definition isValidMove (room : Room) (piece : loc) (toRow toCol : Z)
  : option bool :=
  let h := room_heap room in
  let pc := h !!! piece in
  if (toRow <? 0) || (toRow >=? BOARD_SIZE) || (toCol <? 0) || (toCol >=? BOARD_SIZE)
  then Some false
  else if bool_decide ((toRow, toCol) ∈ woods room)
          || bool_decide ((toRow, toCol) ∈ dangerZones room)
  then Some false
  else if negb (piece_canMove pc) && bool_decide (piece_type pc ≠ king)
  then Some false
  else
    match players_get (piece_playerId pc) (players room) with
    | None => None
    | Some player =>
        match find (λ p, bool_decide (piece_type (h !!! p) = king))
                   (player_pieces player) with
        | Some k =>
            let distanceToKing :=
              Z.max (Z.abs (toRow - piece_row (h !!! k)))
                    (Z.abs (toCol - piece_col (h !!! k))) in
            if distanceToKing >? 10 then Some false else Some true
        | None => Some true
        end
    end.

(** [executeMove] always returns [true]; the result here is the new room
    and the timer it sets.  [now] is [Date.now()]. *)
Definition executeMove (now : Z) (room : Room) (piece : loc) (toRow toCol : Z)
  : option (Room * list Effect) :=
  let pc := room_heap room !!! piece in
  b ← board_set (board room) (piece_row pc) (piece_col pc) None;
  let room := set_board b room in
  capturedPiece ← board_get (board room) toRow toCol;
  let room :=
    match capturedPiece with
    | Some cp => removePieceFromGame room cp
    | None => room
    end in
  let room :=
    set_heap (alter (set_row_col toRow toCol) piece (room_heap room)) room in
  b ← board_set (board room) toRow toCol (Some piece);
  let room := set_board b room in
  if bool_decide (piece_type pc ≠ king) then
    let room :=
      set_heap (alter (λ p, set_cooldownExpires (now + 5000) (set_canMove false p))
                      piece (room_heap room)) room in
    Some (room, [SetTimeout (cooldown_timeout piece) 5000])
  else Some (room, []).

(** The callback of the [setTimeout] of [executeMove]. *)
Definition cooldown_callback (room : Room) (piece : loc) : Room * list Effect :=
  (set_heap (alter (set_canMove true) piece (room_heap room)) room,
   [Emit (to_room (room_id room))
         (cooldown_expired (piece_id (room_heap room !!! piece)))]).

(** ** The shrink scheduler *)

(** The nested loops that fill [borderSquares], in row-major order. *)
Definition borderSquares (dz : gset (Z * Z)) : list (Z * Z) :=
  row ← seqZ 0 BOARD_SIZE;
  col ← seqZ 0 BOARD_SIZE;
  if (bool_decide (row = 0) || bool_decide (row = BOARD_SIZE - 1)
      || bool_decide (col = 0) || bool_decide (col = BOARD_SIZE - 1))
     && negb (bool_decide ((row, col) ∈ dz))
  then [(row, col)] else [].

(** [a.splice(i, 1)]: the removed element, if any, and what is left of the
    array. *)
Definition splice1 {A} (i : Z) (l : list A) : option A * list A :=
  let len := Z.of_nat (length l) in
  let start := if i <? 0 then Z.max (len + i) 0 else Z.min i len in
  (l !! Z.to_nat start, delete (Z.to_nat start) l).

(** The [for (let i = 0; i < Math.min(2, borderSquares.length); i++)] loop;
    the bound is evaluated again at each iteration, on the spliced array.
    As [i] stays below 2, a fuel of 3 is never used up. *)
Fixpoint shrink_loop (fuel : nat) (i : Z) (room : Room) (squares : list (Z * Z))
    (g : Rand) : option (Room * Rand) :=
  match fuel with
  | O => None
  | S fuel =>
      if i <? Z.min 2 (Z.of_nat (length squares)) then
        let '(randomIndex, g) := floor_random (Z.of_nat (length squares)) g in
        match splice1 randomIndex squares with
        | (None, _) => None
        | (Some square, squares) =>
            let room :=
              set_dangerZones ({[ square ]} ∪ dangerZones room) room in
            occupant ← board_get (board room) square.1 square.2;
            let room :=
              match occupant with
              | Some piece => removePieceFromGame room piece
              | None => room
              end in
            shrink_loop fuel (i + 1) room squares g
        end
      else Some (room, g)
  end.

Definition shrinkBoard (room : Room) (g : Rand) : option (Room * Rand) :=
  shrink_loop 3 0 room (borderSquares (dangerZones room)) g.

Definition startShrinkTimer (handle : nat) (room : Room) : Room * list Effect :=
  (set_shrinkInterval (Some handle) room, [SetInterval handle 1000]).

(** The callback of the [setInterval] of [startShrinkTimer]. *)
Definition shrink_tick (room : Room) (g : Rand) : option (Room * list Effect) :=
  if bool_decide (phase room ≠ playing) then
    Some (room, match shrinkInterval room with
                | Some h => [ClearInterval h]
                | None => []
                end)
  else
    let room := set_shrinkTimer (shrinkTimer room - 1) room in
    room ← (if shrinkTimer room <=? 0 then
              '(room, _) ← shrinkBoard room g;
              Some (set_shrinkTimer 1 room)
            else Some room);
    Some (room, [Emit (to_room (room_id room))
                      (timer_update (shrinkTimer room) (dangerZones room))]).

(** ** Reset and player removal *)

Definition resetGame (room : Room) (g : Rand) : Room * list Effect :=
  let room := set_phase lobby room in
  let room := set_board createBoard room in
  let '(w, _) := generateWoods g in
  let room := set_woods w room in
  let room := set_dangerZones ∅ room in
  let room := set_shrinkTimer 60 room in
  let room := set_turn 0 room in
  let room := set_cooldowns ∅ room in
  let clear :=
    match shrinkInterval room with
    | Some h => [ClearInterval h]
    | None => []
    end in
  let room :=
    set_players
      (prod_map id (λ player, set_alive true (set_pieces [] player))
         <$> players room) room in
  (room, clear).

(** [player.pieces.forEach(piece => room.board[piece.row][piece.col].piece
    = null)] *)
Fixpoint clear_cells (h : list Piece) (b : gmap (Z * Z) loc) (ls : list loc)
  : option (gmap (Z * Z) loc) :=
  match ls with
  | [] => Some b
  | l :: ls =>
      b ← board_set b (piece_row (h !!! l)) (piece_col (h !!! l)) None;
      clear_cells h b ls
  end.

Definition removePlayer (room : Room) (playerId : string) : option Room :=
  match players_get playerId (players room) with
  | Some player =>
      b ← clear_cells (room_heap room) (board room) (player_pieces player);
      let room := set_board b room in
      let room := set_players (players_delete playerId (players room)) room in
      if bool_decide (admin room = Some playerId)
         && (players_size (players room) >? 0) then
        match players room with
        | (k, newAdmin) :: rest =>
            let room := set_players ((k, set_isAdmin true newAdmin) :: rest) room in
            Some (set_admin (Some (player_id newAdmin)) room)
        | [] => None
        end
      else Some room
  | None => Some room
  end.

(** ** The socket handlers *)

Record JoinData := mkJoinData {
  join_roomId : string;
  join_playerName : string;
  join_isAdmin : bool;
  join_adminPassword : string;
  join_sessionId : string
}.

Record MoveData := mkMoveData {
  move_pieceId : string;
  move_fromRow : Z;
  move_fromCol : Z;
  move_toRow : Z;
  move_toCol : Z
}.

(** The text of the random number in a fresh player id.  JS prints the
    double in decimal; the ids are only ever compared, and the fraction is
    printed here. *)
Definition render_random (q : Q) : string :=
  pretty (Qnum q) +:+ "/" +:+ pretty (Z.pos (Qden q)).

(** [Array.from(room.players.values()).find(p => p.sessionId === sessionId)],
    and the assignments to the player found:
    [existingPlayer.socketId = socket.id; existingPlayer.connected = true]. *)
Fixpoint reconnect_player (sessionId socketId : string)
    (m : list (string * Player)) : option (Player * list (string * Player)) :=
  match m with
  | [] => None
  | (k, p) :: m =>
      if bool_decide (player_sessionId p = sessionId) then
        Some (p, (k, set_connected true (set_socketId socketId p)) :: m)
      else
        '(q, m) ← reconnect_player sessionId socketId m;
        Some (q, (k, p) :: m)
  end.

(** [socket.on('join_room', ...)]; [existing] is
    [gameRooms.get(data.roomId)]. *)
Definition on_join_room (now : Z) (g : Rand) (existing : option Room)
    (socket : Socket) (data : JoinData)
  : option Room * Socket * list Effect :=
  let roomId := join_roomId data in
  let sessionId := join_sessionId data in
  if join_isAdmin data && bool_decide (join_adminPassword data ≠ ADMIN_PASSWORD)
  then (existing, socket,
        [Emit (to_socket (socket_id socket)) (join_error "Invalid admin password")])
  else
    let '(room, g) :=
      match existing with
      | Some room => (room, g)
      | None => createGameRoom roomId now g
      end in
    match reconnect_player sessionId (socket_id socket) (players room) with
    | Some (existingPlayer, m) =>
        let room := set_players m room in
        let socket :=
          mkSocket (socket_id socket) (Some roomId) (socket_playerId socket)
                   (Some sessionId) in
        let room := set_lastActivity now room in
        (Some room, socket,
         [Emit (to_socket (socket_id socket)) (reconnected (player_id existingPlayer));
          Emit (to_others roomId (socket_id socket))
               (player_reconnected (player_id existingPlayer)
                                   (player_name existingPlayer))])
    | None =>
        if players_size (players room) >=? MAX_PLAYERS then
          (Some room, socket,
           [Emit (to_socket (socket_id socket)) (join_error "Room is full")])
        else if bool_decide (phase room ≠ lobby) then
          (Some room, socket,
           [Emit (to_socket (socket_id socket))
                 (join_error "Game already in progress")])
        else
          let '(q, _) := random g in
          let playerId := "player_" +:+ pretty now +:+ "_" +:+ render_random q in
          let player :=
            mkPlayer playerId sessionId (socket_id socket) (join_playerName data)
                     (join_isAdmin data && bool_decide (admin room = None))
                     (getPlayerColor (players_size (players room)))
                     [] true true now None in
          let room :=
            if player_isAdmin player then set_admin (Some playerId) room
            else room in
          let room := set_players (players_set playerId player (players room)) room in
          let socket :=
            mkSocket (socket_id socket) (Some roomId) (Some playerId)
                     (Some sessionId) in
          let room := set_lastActivity now room in
          (Some room, socket,
           [Emit (to_socket (socket_id socket)) (joined_room playerId);
            Emit (to_others roomId (socket_id socket))
                 (player_joined playerId (players_size (players room)))])
    end.

(** [socket.on('start_game', ...)]; [handle] is what [setInterval]
    returns. *)
Definition on_start_game (handle : nat) (g : Rand) (room : Room) (socket : Socket)
  : option (Room * list Effect) :=
  if negb (socket_room room socket) then Some (room, [])
  else
    let admin_error :=
      Some (room, [Emit (to_socket (socket_id socket))
                        (error_event "Admin access required")]) in
    match socket_player room socket with
    | None => admin_error
    | Some player =>
        if negb (player_isAdmin player) then admin_error
        else if bool_decide (phase room ≠ lobby) then
          Some (room, [Emit (to_socket (socket_id socket))
                            (error_event "Game already started")])
        else if players_size (players room) <? 2 then
          Some (room, [Emit (to_socket (socket_id socket))
                            (error_event "Need at least 2 players")])
        else
          let room := set_phase playing room in
          match spawnPlayers room g with
          | (Some room, _) =>
              let '(room, effs) := startShrinkTimer handle room in
              Some (room, effs ++ [Emit (to_room (room_id room)) game_started])
          | (None, _) => None
          end
    end.

(** [socket.on('move_piece', ...)] *)
Definition on_move_piece (now : Z) (room : Room) (socket : Socket)
    (data : MoveData) : option (Room * list Effect) :=
  if negb (socket_room room socket) then Some (room, [])
  else if bool_decide (phase room ≠ playing) then Some (room, [])
  else
    match socket_player room socket, socket_playerId socket with
    | Some player, Some playerId =>
        if negb (player_alive player) then Some (room, [])
        else
          match findPiece room (move_pieceId data) with
          | None => Some (room, [])
          | Some piece =>
              if bool_decide (piece_playerId (room_heap room !!! piece) ≠ playerId)
              then Some (room, [])
              else
                valid ← isValidMove room piece (move_toRow data) (move_toCol data);
                if negb valid then
                  Some (room, [Emit (to_socket (socket_id socket))
                                    (invalid_move "Invalid move")])
                else
                  '(room, effs) ←
                    executeMove now room piece (move_toRow data) (move_toCol data);
                  let moved :=
                    Emit (to_room (room_id room))
                         (piece_moved (move_pieceId data)
                            (move_fromRow data) (move_fromCol data)
                            (move_toRow data) (move_toCol data) playerId) in
                  let '(room, ended_effs) := checkGameEnd room in
                  Some (room, effs ++ [moved] ++ ended_effs)
          end
    | _, _ => Some (room, [])
    end.

(** [socket.on('reset_game', ...)] *)
Definition on_reset_game (g : Rand) (room : Room) (socket : Socket)
  : Room * list Effect :=
  if negb (socket_room room socket) then (room, [])
  else
    match socket_player room socket with
    | None => (room, [])
    | Some player =>
        if negb (player_isAdmin player) then (room, [])
        else
          let '(room, effs) := resetGame room g in
          (room, effs ++ [Emit (to_room (room_id room)) game_reset])
    end.

(** [socket.on('disconnect', ...)] *)
Definition on_disconnect (now : Z) (room : Room) (socket : Socket)
  : Room * list Effect :=
  match socket_playerId socket with
  | Some playerId =>
      if socket_room room socket && bool_decide (playerId ≠ "") then
        match players_get playerId (players room) with
        | Some player =>
            let player := set_disconnectedAt now (set_connected false player) in
            (set_players (players_set playerId player (players room)) room,
             [Emit (to_others (room_id room) (socket_id socket))
                   (player_disconnected playerId (player_name player));
              SetTimeout (removal_timeout playerId) (5 * 60 * 1000)])
        | None => (room, [])
        end
      else (room, [])
  | None => (room, [])
  end.

(** The callback of the [setTimeout] of the disconnect handler. *)
Definition removal_callback (room : Room) (playerId : string)
  : option (Room * list Effect) :=
  match players_get playerId (players room) with
  | Some p =>
      if negb (player_connected p) then
        room ← removePlayer room playerId;
        Some (room, [Emit (to_room (room_id room)) (player_removed playerId)])
      else Some (room, [])
  | None => Some (room, [])
  end.

(** [serializeGameState] *)
Record PlayerSummary := mkPlayerSummary {
  summary_id : string;
  summary_name : string;
  summary_color : string;
  summary_isAdmin : bool;
  summary_alive : bool;
  summary_connected : bool;
  summary_pieceCount : Z
}.

Record Snapshot := mkSnapshot {
  snap_phase : Phase;
  snap_players : list PlayerSummary;
  snap_boardSize : Z;
  snap_woods : gset (Z * Z);
  snap_dangerZones : gset (Z * Z);
  snap_shrinkTimer : Z;
  snap_turn : Z
}.

Definition serializeGameState (room : Room) : Snapshot :=
  mkSnapshot (phase room)
    ((λ p, mkPlayerSummary (player_id p) (player_name p) (player_color p)
             (player_isAdmin p) (player_alive p) (player_connected p)
             (Z.of_nat (length (player_pieces p))))
       <$> players_values (players room))
    BOARD_SIZE (woods room) (dangerZones room) (shrinkTimer room) (turn room).

(** ** The event loop *)

(** The server around one room: the room, the clock, the pending
    [setTimeout] callbacks with the time they are due, the live
    [setInterval] handles, and what has been emitted so far. *)
Record World := mkWorld {
  w_room : Room;
  w_now : Z;
  w_timeouts : list (Z * Callback);
  w_intervals : list nat;
  w_outbox : list (Target * Event)
}.

Definition run_effect (w : World) (e : Effect) : World :=
  match e with
  | Emit t ev =>
      mkWorld (w_room w) (w_now w) (w_timeouts w) (w_intervals w)
              (w_outbox w ++ [(t, ev)])
  | SetTimeout cb delay =>
      mkWorld (w_room w) (w_now w) (w_timeouts w ++ [(w_now w + delay, cb)])
              (w_intervals w) (w_outbox w)
  | SetInterval h _ =>
      mkWorld (w_room w) (w_now w) (w_timeouts w) (h :: w_intervals w)
              (w_outbox w)
  | ClearInterval h =>
      mkWorld (w_room w) (w_now w) (w_timeouts w)
              (filter (λ h', h' ≠ h) (w_intervals w)) (w_outbox w)
  end.

(** The world after a handler or callback has returned [room] and
    [effs]. *)
Definition commit (w : World) (room : Room) (effs : list Effect) : World :=
  foldl run_effect
        (mkWorld room (w_now w) (w_timeouts w) (w_intervals w) (w_outbox w))
        effs.

Definition run_callback (room : Room) (cb : Callback)
  : option (Room * list Effect) :=
  match cb with
  | cooldown_timeout piece => Some (cooldown_callback room piece)
  | removal_timeout playerId => removal_callback room playerId
  end.

(** One turn of the event loop.  Time passes; a socket event arrives, with
    any socket and any payload; a timeout that is due runs, no sooner than
    its delay after it was set; a live interval ticks. *)
Inductive step : World → World → Prop :=
  | step_clock w t :
      w_now w ≤ t →
      step w (mkWorld (w_room w) t (w_timeouts w) (w_intervals w) (w_outbox w))
  | step_join w g socket data room socket' effs :
      unit_interval g →
      join_roomId data = room_id (w_room w) →
      on_join_room (w_now w) g (Some (w_room w)) socket data
        = (Some room, socket', effs) →
      step w (commit w room effs)
  | step_start w handle g socket room effs :
      unit_interval g →
      handle ∉ w_intervals w →
      on_start_game handle g (w_room w) socket = Some (room, effs) →
      step w (commit w room effs)
  | step_move w socket data room effs :
      on_move_piece (w_now w) (w_room w) socket data = Some (room, effs) →
      step w (commit w room effs)
  | step_reset w g socket room effs :
      unit_interval g →
      on_reset_game g (w_room w) socket = (room, effs) →
      step w (commit w room effs)
  | step_disconnect w socket room effs :
      on_disconnect (w_now w) (w_room w) socket = (room, effs) →
      step w (commit w room effs)
  | step_timeout w due cb before after room effs :
      w_timeouts w = before ++ (due, cb) :: after →
      due ≤ w_now w →
      run_callback (w_room w) cb = Some (room, effs) →
      step w (commit (mkWorld (w_room w) (w_now w) (before ++ after)
                              (w_intervals w) (w_outbox w))
                     room effs)
  | step_interval w handle g room effs :
      handle ∈ w_intervals w →
      unit_interval g →
      shrink_tick (w_room w) g = Some (room, effs) →
      step w (commit w room effs).

(** The server once the first [join_room] has created the room. *)
Definition initial_world (roomId : string) (now : Z) (g : Rand) : World :=
  mkWorld (createGameRoom roomId now g).1 now [] [] [].

Definition reachable (w : World) : Prop :=
  ∃ roomId now g, unit_interval g ∧ rtc step (initial_world roomId now g) w.

(** ** Sessions and the sweep of old rooms *)

Record SessionData := mkSessionData {
  reg_sessionId : string;
  reg_roomId : string
}.

(** An entry of the [playerSessions] map. *)
Record SessionEntry := mkSessionEntry {
  entry_socketId : string;
  entry_roomId : string;
  entry_lastSeen : Z
}.

(** [socket.on('register_session', ...)] *)
Definition on_register_session (now : Z)
    (playerSessions : gmap string SessionEntry) (socket : Socket)
    (data : SessionData) : gmap string SessionEntry * Socket :=
  (<[reg_sessionId data :=
       mkSessionEntry (socket_id socket) (reg_roomId data) now]> playerSessions,
   mkSocket (socket_id socket) (Some (reg_roomId data)) (socket_playerId socket)
            (Some (reg_sessionId data))).

(** The callback of the hourly [setInterval] at the end of the file: a room
    whose last activity is more than 24 hours old is deleted from
    [gameRooms]. *)
Definition sweep (now : Z) (gameRooms : gmap string Room) : gmap string Room :=
  filter (λ kv, ¬ (24 * 60 * 60 * 1000 < now - lastActivity kv.2)) gameRooms.

(** * Vocabulary of the properties *)

(** ** Spawn placement *)

(** Euclidean distance at least [minDistance], on the squares. *)
Definition far_apart (p q : Z * Z) : Prop :=
  minDistance ^ 2 ≤ (p.1 - q.1) ^ 2 + (p.2 - q.2) ^ 2.

Definition in_inset (p : Z * Z) : Prop :=
  5 ≤ p.1 < BOARD_SIZE - 5 ∧ 5 ≤ p.2 < BOARD_SIZE - 5.

Definition on_fallback_line (p : Z * Z) : Prop :=
  p.1 = 5 ∨ p.1 = BOARD_SIZE - 5 ∨ p.2 = 5 ∨ p.2 = BOARD_SIZE - 5.

(** What [positions] looks like after any number of players: every entry
    was either accepted by a draw, in the inset and far from all earlier
    entries, or was taken on a fallback line. *)
Definition placed (earlier : list (Z * Z)) (p : Z * Z) : Prop :=
  in_bounds p.1 p.2 = true ∧
  ((in_inset p ∧ Forall (far_apart p) earlier) ∨ on_fallback_line p).

Definition all_placed (positions : list (Z * Z)) : Prop :=
  ∀ i p, positions !! i = Some p → placed (take i positions) p.

(** ** The move engine *)

(** The first king of a piece list: [player.pieces.find(p => p.type ===
    'king')]. *)
Definition find_king (h : list Piece) (ls : list loc) : option loc :=
  find (λ p, bool_decide (piece_type (h !!! p) = king)) ls.

(** Chebyshev distance. *)
Definition chebyshev (r1 c1 r2 c2 : Z) : Z :=
  Z.max (Z.abs (r1 - r2)) (Z.abs (c1 - c2)).

(** The leash: the destination is within distance 10 of the owner's first
    king, if there is one. *)
Definition within_leash (h : list Piece) (player : Player) (toRow toCol : Z) : Prop :=
  ∀ k, find_king h (player_pieces player) = Some k →
       chebyshev toRow toCol (piece_row (h !!! k)) (piece_col (h !!! k)) ≤ 10.

(** The listed reasons for which a move is turned down. *)
Definition rejected_move (room : Room) (player : Player) (piece : loc)
    (toRow toCol : Z) : Prop :=
  let h := room_heap room in
  ¬ ((0 ≤ toRow < BOARD_SIZE) ∧ (0 ≤ toCol < BOARD_SIZE)) ∨
  (toRow, toCol) ∈ woods room ∨
  (toRow, toCol) ∈ dangerZones room ∨
  (∃ k, find_king h (player_pieces player) = Some k ∧
        10 < chebyshev toRow toCol (piece_row (h !!! k)) (piece_col (h !!! k))) ∨
  (piece_type (h !!! piece) ≠ king ∧ piece_canMove (h !!! piece) = false).

(** What [executeMove] computes, field by field, when the origin and the
    destination are cells of the board. *)
Definition moved_heap (now : Z) (h : list Piece) (piece : loc) (toRow toCol : Z)
  : list Piece :=
  if bool_decide (piece_type (h !!! piece) ≠ king) then
    alter (λ p, set_cooldownExpires (now + 5000) (set_canMove false p)) piece
          (alter (set_row_col toRow toCol) piece h)
  else alter (set_row_col toRow toCol) piece h.

Definition origin (room : Room) (piece : loc) : Z * Z :=
  (piece_row (room_heap room !!! piece), piece_col (room_heap room !!! piece)).

(** What C7 promises of a move on to an occupied cell. *)
Definition captures (room r : Room) (piece occ : loc) (toRow toCol : Z) : Prop :=
  players r = players (removePieceFromGame room occ) ∧
  board r !! origin room piece = None ∧
  board r !! (toRow, toCol) = Some piece ∧
  piece_row (room_heap r !!! piece) = toRow ∧
  piece_col (room_heap r !!! piece) = toCol.

(** ** The shrink scheduler *)

(** The original outer ring of the board. *)
Definition on_outer_ring (sq : Z * Z) : Prop :=
  ((0 ≤ sq.1 < BOARD_SIZE) ∧ (0 ≤ sq.2 < BOARD_SIZE)) ∧
  (sq.1 = 0 ∨ sq.1 = BOARD_SIZE - 1 ∨ sq.2 = 0 ∨ sq.2 = BOARD_SIZE - 1).

(** The number of iterations of the loop of [shrinkBoard] from index [i]
    with [len] candidates left. *)
Fixpoint shrink_count (fuel : nat) (i len : Z) : nat :=
  match fuel with
  | O => O
  | S fuel =>
      if i <? Z.min 2 len then S (shrink_count fuel (i + 1) (len - 1)) else O
  end.

(** Piece lists only ever lose entries from [room] to [r]. *)
Definition pieces_only_removed (room r : Room) : Prop :=
  ∀ k p', players_get k (players r) = Some p' →
          ∃ p, players_get k (players room) = Some p ∧
               player_pieces p' ⊆ player_pieces p.

(** The piece [l] is in the list of no player that its [playerId] names. *)
Definition detached (r : Room) (l : loc) : Prop :=
  ∀ owner,
    players_get (piece_playerId (room_heap r !!! l)) (players r) = Some owner →
    l ∉ player_pieces owner.

(** ** Invariants of the event loop *)

(** A property of every player's piece list and [alive] flag. *)
Definition players_all (P : list loc → bool → Prop) (m : list (string * Player))
  : Prop :=
  Forall (λ kp, P (player_pieces kp.2) (player_alive kp.2)) m.

(** [P] survives the loss of pieces, with [alive] cleared when none is
    left: what [removePieceFromGame] does to a player. *)
Definition removal_closed (P : list loc → bool → Prop) : Prop :=
  ∀ ls a ls', ls' ⊆ ls → P ls a →
              P ls' (if bool_decide (length ls' = 0%nat) then false else a).

(** The keys of the [players] map are distinct. *)
Definition keys_distinct (m : list (string * Player)) : Prop := NoDup m.*1.

(** The request reaches [executeMove] with [piece]. *)
Definition validated_move (room : Room) (socket : Socket) (data : MoveData)
    (piece : loc) : Prop :=
  socket_room room socket = true ∧
  phase room = playing ∧
  ∃ player playerId,
    socket_playerId socket = Some playerId ∧
    players_get playerId (players room) = Some player ∧
    player_alive player = true ∧
    findPiece room (move_pieceId data) = Some piece ∧
    piece_playerId (room_heap room !!! piece) = playerId ∧
    isValidMove room piece (move_toRow data) (move_toCol data) = Some true.

(** The pieces for which [effs] sets a cooldown timer. *)
Definition cooldown_effects (effs : list Effect) : list loc :=
  omap (λ e, match e with
             | SetTimeout (cooldown_timeout l) _ => Some l
             | _ => None
             end) effs.

(** Players as [join_room] and [resetGame] leave them. *)
Definition fresh (ls : list loc) (a : bool) : Prop := a = true ∧ ls = [].

(** What [spawnPlayers] leaves of a player: the [alive] flag as it was, and
    a non-empty list of pieces allocated by this call. *)
Definition spawned (room r : Room) (kp kp' : string * Player) : Prop :=
  player_alive kp'.2 = player_alive kp.2 ∧
  player_pieces kp'.2 ≠ [] ∧
  Forall (λ l, (length (room_heap room) ≤ l < length (room_heap r))%nat)
         (player_pieces kp'.2).

Definition scheduled (now : Z) (effs : list Effect) : list (Z * Callback) :=
  omap (λ e, match e with
             | SetTimeout cb delay => Some (now + delay, cb)
             | _ => None
             end) effs.


Definition alive_iff_pieces (ls : list loc) (a : bool) : Prop :=
  a = false ↔ ls = [].

(** In the lobby every player is alive with no piece; from the start of a
    match on, a player is dead exactly when the piece list is empty. *)
Definition match_invariant (room : Room) : Prop :=
  keys_distinct (players room) ∧
  if decide (phase room = lobby) then players_all fresh (players room)
  else players_all alive_iff_pieces (players room).




(** ** Cooldowns over time *)


(** ** Liveness, duality and win detection *)

(** The alive players with pieces, by name. *)
Definition survivors (room : Room) : list string :=
  player_name <$> alivePlayers room.

(** All the pieces of all the players. *)
Definition all_pieces (room : Room) : list loc :=
  players room ≫= λ kp, player_pieces kp.2.

(** Board-piece duality: every occupied cell holds a piece of some player
    whose recorded coordinates are those of the cell; every piece of every
    player stands on the cell of its recorded coordinates; no piece is
    listed twice. *)
Definition duality (room : Room) : Prop :=
  let h := room_heap room in
  map_Forall (λ rc l, (piece_row (h !!! l), piece_col (h !!! l)) = rc ∧
                      l ∈ all_pieces room) (board room) ∧
  Forall (λ l, board room !! (piece_row (h !!! l), piece_col (h !!! l)) = Some l)
         (all_pieces room) ∧
  NoDup (all_pieces room).

(** ** Cells *)

(** Every coordinate of the set is a cell of the board. *)
Definition on_board (s : gset (Z * Z)) : Prop :=
  ∀ sq, sq ∈ s → in_bounds sq.1 sq.2 = true.

(** The cell on which a piece stands, by its own record. *)
Definition cell (p : Piece) : Z * Z := (piece_row p, piece_col p).

(** ** What a handler did *)

(** The player object that [join_room] builds for a new player. *)
Definition new_player (now : Z) (g : Rand) (room : Room) (socket : Socket)
    (data : JoinData) : Player :=
  mkPlayer ("player_" +:+ pretty now +:+ "_" +:+ render_random (random g).1)
           (join_sessionId data) (socket_id socket) (join_playerName data)
           (join_isAdmin data && bool_decide (admin room = None))
           (getPlayerColor (players_size (players room)))
           [] true true now None.

(** The room after [join_room] has added [player]. *)
Definition joined (now : Z) (player : Player) (room : Room) : Room :=
  set_lastActivity now
    (set_players (players_set (player_id player) player (players room))
       (if player_isAdmin player then set_admin (Some (player_id player)) room
        else room)).

(** No player of the map has the session id [sessionId]. *)
Definition unknown_session (sessionId : string) (m : list (string * Player))
  : Prop :=
  Forall (λ kp, player_sessionId kp.2 ≠ sessionId) m.

(** The [players] map after [removePlayer] has deleted [playerId]: when the
    admin has left and someone remains, the first remaining player is made
    admin. *)
Definition without_player (adm : option string) (playerId : string)
    (m : list (string * Player)) : list (string * Player) :=
  match players_delete playerId m with
  | (k, newAdmin) :: rest =>
      if bool_decide (adm = Some playerId)
      then (k, set_isAdmin true newAdmin) :: rest
      else (k, newAdmin) :: rest
  | [] => []
  end.

Definition admin_after (adm : option string) (playerId : string)
    (m : list (string * Player)) : option string :=
  match players_delete playerId m with
  | (k, newAdmin) :: rest =>
      if bool_decide (adm = Some playerId) then Some (player_id newAdmin) else adm
  | [] => adm
  end.

(** ** Requests that change nothing *)

(** The grounds on which [join_room] turns a request down. *)
Definition rejected_join (room : Room) (data : JoinData) : Prop :=
  (join_isAdmin data = true ∧ join_adminPassword data ≠ ADMIN_PASSWORD) ∨
  (unknown_session (join_sessionId data) (players room) ∧
   (MAX_PLAYERS ≤ players_size (players room) ∨ phase room ≠ lobby)).

(** A socket from which no request changes the room. *)
Definition inert (room : Room) (socket : Socket) : Prop :=
  (∀ now data, on_move_piece now room socket data = Some (room, [])) ∧
  (∀ now, on_disconnect now room socket = (room, [])) ∧
  (∀ g, on_reset_game g room socket = (room, [])) ∧
  (∀ handle g, ∃ effs, on_start_game handle g room socket = Some (room, effs)).

(** [r] differs from [room] in the players, the board and the heap at
    most. *)
Definition same_settings (room r : Room) : Prop :=
  r = set_heap (room_heap r) (set_board (board r) (set_players (players r) room)).

(** The live [setInterval] handles after an effect. *)
Definition interval_effect (hs : list nat) (e : Effect) : list nat :=
  match e with
  | SetInterval h _ => h :: hs
  | ClearInterval h => filter (λ h', h' ≠ h) hs
  | _ => hs
  end.

(** ** Phases, scheduler and terrain *)

(** The shrink interval is live exactly while the phase is [playing], and
    then it is the one whose handle the room stores. *)
Definition scheduler_invariant (w : World) : Prop :=
  (phase (w_room w) = playing →
   ∃ h, shrinkInterval (w_room w) = Some h ∧ w_intervals w = [h]) ∧
  (phase (w_room w) ≠ playing → w_intervals w = []).

Definition terrain_invariant (room : Room) : Prop :=
  on_board (woods room) ∧
  (∀ sq, sq ∈ dangerZones room → on_outer_ring sq) ∧
  1 ≤ shrinkTimer room ≤ 60 ∧
  turn room = 0 ∧ cooldowns room = ∅ ∧
  (phase room = lobby →
   dangerZones room = ∅ ∧ board room = ∅ ∧ shrinkTimer room = 60).

(** The fields that the scheduler and the terrain depend on are the
    same. *)
Definition same_match (room r : Room) : Prop :=
  phase r = phase room ∧ shrinkInterval r = shrinkInterval room ∧
  woods r = woods room ∧ dangerZones r = dangerZones room ∧
  shrinkTimer r = shrinkTimer room ∧ turn r = turn room ∧
  cooldowns r = cooldowns room.

(** No [setInterval] and no [clearInterval] among the effects. *)
Definition quiet (effs : list Effect) : Prop :=
  Forall (λ e, match e with
               | SetInterval _ _ | ClearInterval _ => False
               | _ => True
               end) effs.

(** The ways in which the phase changes in one turn of the event loop. *)
Definition phase_transition (room r : Room) : Prop :=
  phase r = phase room ∨
  (phase room = lobby ∧ phase r = playing ∧ 2 ≤ players_size (players room)) ∨
  (phase room = playing ∧ phase r = ended ∧ (length (alivePlayers r) ≤ 1)%nat) ∨
  (phase r = lobby ∧ players_all fresh (players r)).

(** ** Membership *)

(** What [spawnPlayers] makes of a player: the 16 pieces that
    [createPlayerPieces] returns for some spawn point, appended to the
    heap. *)
Definition spawned_at (room r : Room) (kp kp' : string * Player) : Prop :=
  kp'.1 = kp.1 ∧
  ∃ base spawn g0,
    kp'.2 = set_pieces (seq base 16) kp.2 ∧
    (length (room_heap room) ≤ base)%nat ∧
    ∀ i, (i < 16)%nat →
         room_heap r !! (base + i)%nat
         = (createPlayerPieces kp.1 spawn.1 spawn.2 g0).1 !! i.

(** What identifies a player of the map: the key, the [id], the admin flag
    and the session id. *)
Definition idents (m : list (string * Player))
  : list (string * string * bool * string) :=
  (λ kp, (kp.1, player_id kp.2, player_isAdmin kp.2, player_sessionId kp.2))
    <$> m.

(** The session ids of the players, in the order of the map. *)
Definition sessions (m : list (string * Player)) : list string :=
  (λ kp, player_sessionId kp.2) <$> m.

(** The keys of the map are distinct, there are at most [MAX_PLAYERS]
    players, every player is stored under its own id, a player whose admin
    flag is set is the one that [room.admin] names, and no two players have
    the same session id. *)
Definition membership (room : Room) : Prop :=
  keys_distinct (players room) ∧
  players_size (players room) ≤ MAX_PLAYERS ∧
  Forall (λ kp, player_id kp.2 = kp.1 ∧
                (player_isAdmin kp.2 = true → admin room = Some kp.1))
         (players room) ∧
  NoDup (sessions (players room)).

(** ** Piece lists *)

(** The piece [l] of player [k] is an object of the heap, names [k] as its
    owner and stands on a cell of the board. *)
Definition piece_ok (h : list Piece) (k : string) (l : nat) : Prop :=
  (l < length h)%nat ∧ piece_playerId (h !!! l) = k ∧
  in_bounds (piece_row (h !!! l)) (piece_col (h !!! l)) = true.

(** Every piece of every player is well-formed, no two pieces of a player
    have the same id, and a player has at most 16 pieces. *)
Definition pieces_ok (room : Room) : Prop :=
  Forall (λ kp,
            Forall (piece_ok (room_heap room) kp.1) (player_pieces kp.2) ∧
            NoDup ((λ l, piece_id (room_heap room !!! l)) <$> player_pieces kp.2) ∧
            (length (player_pieces kp.2) ≤ 16)%nat)
         (players room).

(** From [h] to [h'] objects are added, and the objects of [h] keep their
    id and their owner and stay on the board. *)
Definition heap_evolves (h h' : list Piece) : Prop :=
  (length h ≤ length h')%nat ∧
  ∀ l, (l < length h)%nat →
       piece_id (h' !!! l) = piece_id (h !!! l) ∧
       piece_playerId (h' !!! l) = piece_playerId (h !!! l) ∧
       (in_bounds (piece_row (h !!! l)) (piece_col (h !!! l)) = true →
        in_bounds (piece_row (h' !!! l)) (piece_col (h' !!! l)) = true).

(** Every player of [m'] has no piece, or has some of the pieces that a
    player of [m] has under the same key. *)
Definition entries_derive (m m' : list (string * Player)) : Prop :=
  Forall (λ kp', player_pieces kp'.2 = [] ∨
                 ∃ p, (kp'.1, p) ∈ m ∧
                      player_pieces kp'.2 `sublist_of` player_pieces p) m'.


(** ** Starting a match *)

(** The conditions under which [start_game] starts a match. *)
Definition may_start (room : Room) (socket : Socket) : Prop :=
  socket_room room socket = true ∧
  (∃ player, socket_player room socket = Some player ∧
             player_isAdmin player = true) ∧
  phase room = lobby ∧
  2 ≤ players_size (players room).

(** A player as [spawnPlayers] leaves it: the [alive] flag as it was, and 16
    pieces of its own on cells of the board, all free to move, the first of
    which is the king. *)
Definition freshly_spawned (r : Room) (kp kp' : string * Player) : Prop :=
  kp'.1 = kp.1 ∧
  player_alive kp'.2 = player_alive kp.2 ∧
  length (player_pieces kp'.2) = 16%nat ∧
  Forall (λ l, piece_ok (room_heap r) kp.1 l ∧
               piece_canMove (room_heap r !!! l) = true)
         (player_pieces kp'.2) ∧
  is_Some (head (player_pieces kp'.2)) ∧
  find_king (room_heap r) (player_pieces kp'.2) = head (player_pieces kp'.2).

(** ** Cells of a player *)

(** The cells on which the pieces [ls] stand. *)
Definition cells (h : list Piece) (ls : list nat) : list (Z * Z) :=
  (λ l, cell (h !!! l)) <$> ls.


(** ** Events and duality *)



(** ** Ticks and the sweep *)

(** The interval callback of [startShrinkTimer] run once for every element of
    [gs], each run with its own draws. *)
Fixpoint tick_all (gs : list Rand) (room : Room) : option Room :=
  match gs with
  | [] => Some room
  | g :: gs => '(room, _) ← shrink_tick room g; tick_all gs room
  end.

(** The room is the same room, created and last active at the same time. *)
Definition same_record (room r : Room) : Prop :=
  room_id r = room_id room ∧ createdAt r = createdAt room ∧
  lastActivity r = lastActivity room.

(** ** Spawn points, resets and sessions *)

(** A spawn point around which no coordinate of a piece is clamped. *)
Definition unclamped (p : Z * Z) : Prop :=
  0 ≤ p.1 < BOARD_SIZE - 1 ∧ 3 ≤ p.2 ≤ BOARD_SIZE - 5.

(** Two spawn points whose pieces cannot meet: the rows differ by 2 or
    more, or the columns by 8 or more. *)
Definition apart (p q : Z * Z) : Prop :=
  2 ≤ Z.abs (p.1 - q.1) ∨ 8 ≤ Z.abs (p.2 - q.2).

Definition clear_spawns (ps : list (Z * Z)) : Prop :=
  Forall unclamped ps ∧
  ∀ i j p q, (i < j)%nat → ps !! i = Some p → ps !! j = Some q → apart p q.

(** Every spawn point was accepted by a draw: none is a fallback point. *)
Definition all_drawn (ps : list (Z * Z)) : Prop :=
  ∀ i p, ps !! i = Some p → in_inset p ∧ Forall (far_apart p) (take i ps).

(** The cell [rc] is one of the 16 cells around the spawn point [q]. *)
Definition near (q rc : Z * Z) : Prop :=
  0 ≤ rc.1 - q.1 ≤ 1 ∧ -3 ≤ rc.2 - q.2 ≤ 4.

(** The board and the piece lists while [spawnPlayers] runs: the pieces are
    the objects allocated since the start, each stands on its cell, near one
    of the spawn points used so far, and the board holds nothing else. *)
Definition spawning (h0 : nat) (qs : list (Z * Z)) (room : Room) : Prop :=
  (h0 ≤ length (room_heap room))%nat ∧
  all_pieces room = seq h0 (length (room_heap room) - h0) ∧
  (∀ l, (h0 ≤ l < length (room_heap room))%nat →
        (∃ q, q ∈ qs ∧ near q (cell (room_heap room !!! l))) ∧
        board room !! cell (room_heap room !!! l) = Some l) ∧
  (∀ rc l, board room !! rc = Some l →
           (h0 ≤ l < length (room_heap room))%nat ∧
           cell (room_heap room !!! l) = rc).

(** The socket is in the room and bound to a player with the admin flag. *)
Definition may_reset (room : Room) (socket : Socket) : Prop :=
  socket_room room socket = true ∧
  ∃ player, socket_player room socket = Some player ∧
            player_isAdmin player = true.

(** ** A match, step by step *)

Module Demo.
(** The server right after the room "r" was created at time 0, by an oracle
    that draws 0 throughout: every patch is centred on (0, 0) with offsets
    (-3, -3), so there are no woods. *)
Definition world0 : World := initial_world "r" 0 (replay []).
Definition created : Room := w_room world0.

(** The clock reaches [t]. *)
Definition at_time (t : Z) (w : World) : World :=
  mkWorld (w_room w) t (w_timeouts w) (w_intervals w) (w_outbox w).

(** The world after a handler or a callback has returned. *)
Definition run (w : World) (res : option (Room * list Effect)) : World :=
  match res with
  | Some (room, effs) => commit w room effs
  | None => w
  end.

(** A [join_room] event on a fresh socket. *)
Definition join (w : World) (socketId name session : string)
    (wantsAdmin : bool) : World * Socket :=
  let '(r, s, effs) :=
    on_join_room (w_now w) (replay []) (Some (w_room w))
      (mkSocket socketId None None None)
      (mkJoinData "r" name wantsAdmin ADMIN_PASSWORD session) in
  (run w ((λ room, (room, effs)) <$> r), s).

(** A [start_game] event; [setInterval] returns the handle 7. *)
Definition start (w : World) (s : Socket) (g : Rand) : World :=
  run w (on_start_game 7 g (w_room w) s).

(** A [move_piece] event. *)
Definition move (w : World) (s : Socket) (pieceId : string) (toRow toCol : Z)
  : World :=
  run w (on_move_piece (w_now w) (w_room w) s (mkMoveData pieceId 0 0 toRow toCol)).

(** A tick of the shrink timer, and [n] of them. *)
Definition tick (g : Rand) (w : World) : World :=
  run w (shrink_tick (w_room w) g).
Fixpoint ticks (n : nat) (g : Rand) (w : World) : World :=
  match n with
  | O => w
  | S n => tick g (ticks n g w)
  end.

(** Alice joins as admin at time 1, Bob joins at time 2. *)
Definition with_alice : World * Socket :=
  join (at_time 1 world0) "sA" "Alice" "sessA" true.
Definition alice : Socket := with_alice.2.
Definition with_bob : World * Socket :=
  join (at_time 2 with_alice.1) "sB" "Bob" "sessB" false.
Definition bob : Socket := with_bob.2.
Definition world_lobby : World := with_bob.1.
Definition lobby_room : Room := w_room world_lobby.

(** Alice starts the game; the draws place her at (5, 5) and Bob at
    (5, 100). *)
Definition world_started : World :=
  start world_lobby alice (replay [0%Q; 0%Q; 0%Q; 1 # 2]).
Definition started : Room := w_room world_started.

Definition alice_king : string := "player_1_0/1_0".
Definition bob_piece (i : nat) : string := "player_2_0/1_" +:+ pretty i.

(** At time 10 Alice's king walks to the border cell (0, 5). *)
Definition world_king_on_border : World :=
  move (at_time 10 world_started) alice alice_king 0 5.
Definition king_on_border : Room := w_room world_king_on_border.

(** The 60th tick of the shrink timer draws index 5 of the candidates, the
    cell (0, 5), and then index 0. *)
Definition world_after_shrink : World :=
  ticks 60 (replay [7 # 1024; 0%Q]) world_king_on_border.
Definition after_shrink : Room := w_room world_after_shrink.

(** In another match, at time 20, Bob's king takes Bob's fifteen other
    pieces, one move each, and then steps on to the border cell (0, 100). *)
Definition bob_targets : list (Z * Z) :=
  [(5, 101); (5, 99); (5, 102); (5, 98); (5, 103); (5, 97); (5, 104);
   (6, 97); (6, 98); (6, 99); (6, 100); (6, 101); (6, 102); (6, 103); (6, 104);
   (0, 100)].
Definition world_bob_alone : World :=
  foldl (λ w t, move w bob (bob_piece 0) t.1 t.2) (at_time 20 world_started)
        bob_targets.
Definition bob_alone : Room := w_room world_bob_alone.

(** The 60th tick draws index 100 of the candidates, the cell (0, 100). *)
Definition world_bob_shrunk : World :=
  ticks 60 (replay [129 # 1024; 0%Q]) world_bob_alone.
Definition bob_shrunk : Room := w_room world_bob_shrunk.

(** In a third match Bob's socket disconnects at time 30, and the removal
    timer fires five minutes later. *)
Definition disconnect (w : World) (s : Socket) : World :=
  let '(room, effs) := on_disconnect (w_now w) (w_room w) s in
  commit w room effs.

(** The [i]-th pending timeout runs, if it is due. *)
Definition fire (i : nat) (w : World) : World :=
  match w_timeouts w !! i with
  | Some (due, cb) =>
      if due <=? w_now w then
        match run_callback (w_room w) cb with
        | Some (room, effs) =>
            commit (mkWorld (w_room w) (w_now w) (delete i (w_timeouts w))
                            (w_intervals w) (w_outbox w))
                   room effs
        | None => w
        end
      else w
  | None => w
  end.

Definition world_bob_disconnected : World :=
  disconnect (at_time 30 world_started) bob.
Definition world_bob_removed : World :=
  fire 0 (at_time 300030 world_bob_disconnected).
Definition bob_removed : Room := w_room world_bob_removed.

End Demo.

(** * Properties *)

(** ** The oracle *)

Lemma pow2_pos e : (0 < 2 ^ e)%Q.
Proof. by apply Qpower_0_lt. Qed.

Lemma pow2_nonzero e : ¬ (2 ^ e == 0)%Q.
Proof. pose proof (pow2_pos e). lra. Qed.

Lemma pow2_Z n : 0 ≤ n → (2 ^ n == inject_Z (2 ^ n))%Q.
Proof. intros Hn. change 2%Q with (inject_Z 2). by rewrite Zpower_Qpower. Qed.

Lemma inject_Z_pos (n : Z) : 0 < n → (0 < inject_Z n)%Q.
Proof. intros. change 0%Q with (inject_Z 0). rewrite <- Zlt_Qlt. lia. Qed.

Lemma Qlog2_lower x : (0 < x)%Q → (2 ^ Qlog2 x <= x)%Q.
Proof.
  intros Hx. unfold Qlog2. cbv zeta.
  destruct (Qle_bool _ x) eqn:Hle; [by apply Qle_bool_iff|].
  destruct x as [a b]. cbn [Qnum Qden] in *.
  assert (0 < a) as Ha by (unfold Qlt in Hx; cbn in Hx; lia).
  pose proof (Z.log2_spec a Ha) as [Hla _].
  pose proof (Z.log2_spec (Z.pos b) ltac:(lia)) as [_ Hlb].
  pose proof (Z.log2_nonneg a) as Hna.
  pose proof (Z.log2_nonneg (Z.pos b)) as Hnb.
  replace (Z.log2 a - Z.log2 (Z.pos b) - 1)
    with (Z.log2 a - Z.succ (Z.log2 (Z.pos b))) by lia.
  rewrite Qpower_minus by done.
  rewrite !pow2_Z by lia.
  pose proof (inject_Z_pos a Ha) as Ha0.
  pose proof (inject_Z_pos (Z.pos b) ltac:(lia)) as Hb0.
  pose proof (inject_Z_pos (2 ^ Z.succ (Z.log2 (Z.pos b))) ltac:(lia)) as Hp0.
  assert (inject_Z (2 ^ Z.log2 a) <= inject_Z a)%Q as Hla'
    by (rewrite <- Zle_Qle; lia).
  assert (inject_Z (Z.pos b) <= inject_Z (2 ^ Z.succ (Z.log2 (Z.pos b))))%Q
    as Hlb' by (rewrite <- Zle_Qle; lia).
  rewrite (Qmake_Qdiv a b).
  apply Qle_shift_div_r; [done|].
  apply Qle_trans with (inject_Z a); [lra|].
  set (A := inject_Z a) in *. set (B := inject_Z (Z.pos b)) in *.
  set (P := inject_Z (2 ^ Z.succ (Z.log2 (Z.pos b)))) in *.
  assert (A / B * P == A * (P / B))%Q as -> by (field; lra).
  assert (1 <= P / B)%Q by (apply Qle_shift_div_l; lra).
  nra.
Qed.

Lemma round_half_even_floor m :
  Qfloor m ≤ round_half_even m ≤ Qfloor m + 1.
Proof.
  unfold round_half_even. cbv zeta.
  destruct (_ ?= _)%Q; [destruct (Z.even _)|..]; lia.
Qed.

Lemma round_half_even_error m :
  (m - (1 # 2) <= inject_Z (round_half_even m))%Q ∧
  (inject_Z (round_half_even m) <= m + (1 # 2))%Q.
Proof.
  unfold round_half_even. cbv zeta.
  pose proof (Qfloor_le m) as Hlo. pose proof (Qlt_floor m) as Hhi.
  rewrite inject_Z_plus in Hhi. change (inject_Z 1) with 1%Q in Hhi.
  destruct (_ ?= _)%Q eqn:Hc.
  - apply Qeq_alt in Hc.
    destruct (Z.even _); rewrite ?inject_Z_plus; change (inject_Z 1) with 1%Q;
      lra.
  - apply Qlt_alt in Hc. lra.
  - apply Qgt_alt in Hc. rewrite inject_Z_plus. change (inject_Z 1) with 1%Q.
    lra.
Qed.

Lemma round_half_even_ge m J :
  (inject_Z J <= m)%Q → J ≤ round_half_even m.
Proof.
  intros HJ. pose proof (round_half_even_floor m) as [Hf _].
  assert (J ≤ Qfloor m); [|lia].
  rewrite <- (Qfloor_Z J). by apply Qfloor_resp_le.
Qed.

Lemma round_half_even_lt m J :
  (m < inject_Z J - (1 # 2))%Q → round_half_even m < J.
Proof.
  intros HJ. pose proof (round_half_even_error m) as [_ Hhi].
  rewrite Zlt_Qlt. lra.
Qed.

Lemma round_half_even_le m J :
  (m <= inject_Z J)%Q → round_half_even m ≤ J.
Proof.
  intros HJ. unfold round_half_even. cbv zeta.
  pose proof (Qfloor_le m) as Hlo. pose proof (Qlt_floor m) as Hhi.
  rewrite inject_Z_plus in Hhi. change (inject_Z 1) with 1%Q in Hhi.
  assert (Qfloor m ≤ J) as Hf.
  { rewrite Zle_Qle. lra. }
  destruct (decide (Qfloor m = J)) as [Heq|Hne].
  - assert (m - inject_Z (Qfloor m) <= 0)%Q as Hd by (rewrite Heq; lra).
    assert ((m - inject_Z (Qfloor m) ?= 1 # 2)%Q = Lt) as ->.
    { rewrite <- Qlt_alt. lra. }
    lia.
  - destruct (_ ?= _)%Q; [destruct (Z.even _)|..]; lia.
Qed.

(** Below [2^53] the unit in the last place is at most 1. *)
Lemma ulp_exp_bound x t :
  (0 < x)%Q → (x < 2 ^ t)%Q → -1074 ≤ t - 53 → ulp_exp x ≤ t - 53.
Proof.
  intros Hx Ht Hmin. pose proof (Qlog2_lower x Hx) as Hlo.
  assert (Qlog2 x < t).
  { apply (Qpower_lt_compat_l_inv 2); [|done]. lra. }
  unfold ulp_exp. lia.
Qed.

Lemma ulp_exp_min x : -1074 ≤ ulp_exp x.
Proof. unfold ulp_exp. lia. Qed.

(** The result is on the grid of the multiples of [2^e]. *)
Lemma round_double_pos x :
  (0 < x)%Q →
  round_double x
  = (inject_Z (round_half_even (x / 2 ^ ulp_exp x)) * 2 ^ ulp_exp x)%Q.
Proof.
  intros Hx. unfold round_double.
  by assert ((x ?= 0)%Q = Gt) as -> by (by rewrite <- Qgt_alt).
Qed.

Lemma round_double_0 x : (x == 0)%Q → round_double x = 0%Q.
Proof.
  intros Hx. unfold round_double.
  by assert ((x ?= 0)%Q = Eq) as -> by (by rewrite <- Qeq_alt).
Qed.

(** Rounding moves a number by at most half a unit in the last place. *)
Lemma round_double_error x :
  (0 < x)%Q →
  (x - 2 ^ (ulp_exp x - 1) <= round_double x)%Q ∧
  (round_double x <= x + 2 ^ (ulp_exp x - 1))%Q.
Proof.
  intros Hx. rewrite round_double_pos by done.
  set (e := ulp_exp x).
  pose proof (pow2_pos e) as He.
  pose proof (round_half_even_error (x / 2 ^ e)) as [Hlo Hhi].
  assert (2 ^ (e - 1) == 2 ^ e * (1 # 2))%Q as ->.
  { rewrite Qpower_minus by done. change (2 ^ 1)%Q with 2%Q. field. }
  assert (x == x / 2 ^ e * 2 ^ e)%Q as Hx' by (field; lra).
  set (m := (x / 2 ^ e)%Q) in *.
  set (r := inject_Z (round_half_even m)) in *.
  clearbody m r. set (p := (2 ^ e)%Q) in *. clearbody p.
  split; rewrite Hx'; nra.
Qed.

(** Rounding does not cross an integer: integers below [2^53] are binary64
    numbers. *)
Lemma round_double_ge_Z x j :
  (0 < x)%Q → (x < 2 ^ 53)%Q →
  (inject_Z j <= x)%Q → (inject_Z j <= round_double x)%Q.
Proof.
  intros Hx H53 Hj. rewrite round_double_pos by done.
  pose proof (ulp_exp_bound x 53 Hx H53 ltac:(lia)) as He.
  pose proof (ulp_exp_min x) as Hmin.
  set (e := ulp_exp x) in *. pose proof (pow2_pos e) as Hpe.
  assert (/ 2 ^ e == inject_Z (2 ^ (- e)))%Q as Hinv.
  { rewrite <- pow2_Z by lia. by rewrite Qpower_opp. }
  assert (inject_Z (j * 2 ^ (- e)) <= x / 2 ^ e)%Q as HJ.
  { rewrite inject_Z_mult, <- Hinv. unfold Qdiv.
    apply Qmult_le_compat_r; [done|]. apply Qinv_le_0_compat. lra. }
  apply round_half_even_ge in HJ. rewrite Zle_Qle in HJ.
  rewrite inject_Z_mult, <- Hinv in HJ.
  set (r := inject_Z (round_half_even (x / 2 ^ e))) in *.
  assert (inject_Z j == inject_Z j * / 2 ^ e * 2 ^ e)%Q as -> by (field; lra).
  apply Qmult_le_compat_r; [done|lra].
Qed.

Lemma round_double_le_Z x j :
  (0 < x)%Q → (x < 2 ^ 53)%Q →
  (x <= inject_Z j)%Q → (round_double x <= inject_Z j)%Q.
Proof.
  intros Hx H53 Hj. rewrite round_double_pos by done.
  pose proof (ulp_exp_bound x 53 Hx H53 ltac:(lia)) as He.
  pose proof (ulp_exp_min x) as Hmin.
  set (e := ulp_exp x) in *. pose proof (pow2_pos e) as Hpe.
  assert (/ 2 ^ e == inject_Z (2 ^ (- e)))%Q as Hinv.
  { rewrite <- pow2_Z by lia. by rewrite Qpower_opp. }
  assert (x / 2 ^ e <= inject_Z (j * 2 ^ (- e)))%Q as HJ.
  { rewrite inject_Z_mult, <- Hinv. unfold Qdiv.
    apply Qmult_le_compat_r; [done|]. apply Qinv_le_0_compat. lra. }
  apply round_half_even_le in HJ. rewrite Zle_Qle in HJ.
  rewrite inject_Z_mult, <- Hinv in HJ.
  set (r := inject_Z (round_half_even (x / 2 ^ e))) in *.
  assert (inject_Z j == inject_Z j * / 2 ^ e * 2 ^ e)%Q as -> by (field; lra).
  apply Qmult_le_compat_r; [done|lra].
Qed.

(** [Math.random() * n] stays below [n], also after rounding. *)
Lemma round_double_scaled_lt q n :
  (0 <= q)%Q → (q <= max_random)%Q → 1 ≤ n →
  (round_double (q * inject_Z n) < inject_Z n)%Q.
Proof.
  intros Hq0 Hq1 Hn.
  assert (1 <= inject_Z n)%Q as Hn1.
  { change 1%Q with (inject_Z 1). rewrite <- Zle_Qle. lia. }
  assert (max_random == 1 - (1 # 9007199254740992))%Q as Hmax by reflexivity.
  rewrite Hmax in Hq1. clear Hmax.
  set (x := (q * inject_Z n)%Q).
  assert (0 <= x)%Q as Hx0 by (unfold x; nra).
  assert (x <= inject_Z n - inject_Z n * (1 # 9007199254740992))%Q as Hx1
    by (unfold x; nra).
  destruct (Qle_lt_or_eq _ _ Hx0) as [Hx|Hx].
  2:{ rewrite round_double_0 by (by symmetry). lra. }
  pose proof (round_double_error x Hx) as [_ Hhi].
  pose proof (Qlog2_lower x Hx) as Hlo.
  unfold ulp_exp in Hhi.
  destruct (Z.max_spec (Qlog2 x - 52) (-1074)) as [[_ Hm]|[_ Hm]];
    rewrite Hm in Hhi.
  - assert (2 ^ (-1074 - 1) < 1 # 9007199254740992)%Q as Hsub by (by vm_compute).
    set (r := round_double x) in *. clearbody r.
    set (s := (2 ^ (-1074 - 1))%Q) in *. clearbody s. lra.
  - replace (Qlog2 x - 52 - 1) with (Qlog2 x + -53) in Hhi by lia.
    rewrite Qpower_plus in Hhi by done.
    assert (2 ^ (-53) == 1 # 9007199254740992)%Q as H53 by reflexivity.
    rewrite H53 in Hhi. clear H53.
    set (r := round_double x) in *. clearbody r.
    set (p := (2 ^ Qlog2 x)%Q) in *. clearbody p. lra.
Qed.

Lemma round_double_nonneg x : (0 <= x)%Q → (0 <= round_double x)%Q.
Proof.
  intros Hx0. destruct (Qle_lt_or_eq _ _ Hx0) as [Hx|Hx].
  2:{ rewrite round_double_0 by (by symmetry). lra. }
  rewrite round_double_pos by done.
  pose proof (pow2_pos (ulp_exp x)) as Hp.
  assert (0 ≤ round_half_even (x / 2 ^ ulp_exp x)) as Hr.
  { apply round_half_even_ge. change (inject_Z 0) with 0%Q.
    apply Qle_shift_div_l; [done|]. lra. }
  rewrite Zle_Qle in Hr. change (inject_Z 0) with 0%Q in Hr. nra.
Qed.

Lemma Qfloor_unique (x : Q) (k : Z) :
  (inject_Z k <= x)%Q → (x < inject_Z (k + 1))%Q → Qfloor x = k.
Proof.
  intros Hlo Hhi.
  pose proof (Qfloor_le x) as H1. pose proof (Qlt_floor x) as H2.
  assert (k < Qfloor x + 1).
  { rewrite Zlt_Qlt. eapply Qle_lt_trans; eauto. }
  assert (Qfloor x < k + 1).
  { rewrite Zlt_Qlt. eapply Qle_lt_trans; eauto. }
  lia.
Qed.

Lemma half_ulp_bound x t :
  (0 < x)%Q → (x < 2 ^ t)%Q → -1021 ≤ t →
  (2 ^ (ulp_exp x - 1) <= 2 ^ (t - 54))%Q.
Proof.
  intros Hx Ht Hmin. apply Qpower_le_compat_l; [|lra].
  pose proof (ulp_exp_bound x t Hx Ht ltac:(lia)). lia.
Qed.

(** [Math.floor(x)] of a rounded [x] below [2^t]: it is [k] when [x] is
    between [k] and [k + 1], except within [2^(t-54)], half a unit in the
    last place, of [k + 1]. *)
Lemma Qfloor_round_double_intro x t k :
  (0 <= x)%Q → (x < 2 ^ t)%Q → -1021 ≤ t ≤ 53 →
  (inject_Z k <= x)%Q → (x + 2 ^ (t - 54) < inject_Z (k + 1))%Q →
  Qfloor (round_double x) = k.
Proof.
  intros Hx0 Ht Hrange Hk Hk1.
  pose proof (pow2_pos (t - 54)) as Hslack.
  destruct (Qle_lt_or_eq _ _ Hx0) as [Hx|Hx].
  2:{ rewrite round_double_0 by (by symmetry). apply Qfloor_unique; lra. }
  assert (x < 2 ^ 53)%Q as H53.
  { eapply Qlt_le_trans; [exact Ht|]. apply Qpower_le_compat_l; [lia|lra]. }
  pose proof (round_double_ge_Z x k Hx H53 Hk) as Hlo.
  pose proof (round_double_error x Hx) as [_ Hhi].
  pose proof (half_ulp_bound x t Hx Ht ltac:(lia)) as Hulp.
  apply Qfloor_unique; lra.
Qed.

Lemma Qfloor_round_double_elim x t k :
  (0 <= x)%Q → (x < 2 ^ t)%Q → -1021 ≤ t ≤ 53 →
  Qfloor (round_double x) = k →
  (inject_Z k - 2 ^ (t - 54) <= x)%Q ∧ (x < inject_Z (k + 1))%Q.
Proof.
  intros Hx0 Ht Hrange <-.
  pose proof (pow2_pos (t - 54)) as Hslack.
  pose proof (Qfloor_le (round_double x)) as Hlo.
  pose proof (Qlt_floor (round_double x)) as Hhi.
  destruct (Qle_lt_or_eq _ _ Hx0) as [Hx|Hx].
  2:{ rewrite round_double_0 in * by (by symmetry). lra. }
  assert (x < 2 ^ 53)%Q as H53.
  { eapply Qlt_le_trans; [exact Ht|]. apply Qpower_le_compat_l; [lia|lra]. }
  pose proof (round_double_error x Hx) as [_ Herr].
  pose proof (half_ulp_bound x t Hx Ht ltac:(lia)) as Hulp.
  split; [lra|].
  destruct (Qlt_le_dec x (inject_Z (Qfloor (round_double x) + 1)))
    as [?|Hge]; [done|].
  pose proof (round_double_ge_Z x _ Hx H53 Hge). lra.
Qed.

Lemma Qlog2_upper x : (0 < x)%Q → (x < 2 ^ (Qlog2 x + 1))%Q.
Proof.
  intros Hx. unfold Qlog2. cbv zeta.
  destruct (Qle_bool _ x) eqn:Hle.
  2:{ replace (Z.log2 (Qnum x) - Z.log2 (Z.pos (Qden x)) - 1 + 1)
        with (Z.log2 (Qnum x) - Z.log2 (Z.pos (Qden x))) by lia.
      apply Qnot_le_lt. intros H. apply Qle_bool_iff in H. congruence. }
  clear Hle. destruct x as [a b]. cbn [Qnum Qden] in *.
  assert (0 < a) as Ha by (unfold Qlt in Hx; cbn in Hx; lia).
  pose proof (Z.log2_spec a Ha) as [_ Hla].
  pose proof (Z.log2_spec (Z.pos b) ltac:(lia)) as [Hlb _].
  pose proof (Z.log2_nonneg a) as Hna.
  pose proof (Z.log2_nonneg (Z.pos b)) as Hnb.
  replace (Z.log2 a - Z.log2 (Z.pos b) + 1)
    with (Z.succ (Z.log2 a) - Z.log2 (Z.pos b)) by lia.
  rewrite Qpower_minus by done.
  rewrite !pow2_Z by lia.
  pose proof (inject_Z_pos a Ha) as Ha0.
  pose proof (inject_Z_pos (Z.pos b) ltac:(lia)) as Hb0.
  pose proof (inject_Z_pos (2 ^ Z.log2 (Z.pos b)) ltac:(lia)) as Hp0.
  assert (inject_Z a < inject_Z (2 ^ Z.succ (Z.log2 a)))%Q as Hla'
    by (rewrite <- Zlt_Qlt; lia).
  assert (inject_Z (2 ^ Z.log2 (Z.pos b)) <= inject_Z (Z.pos b))%Q
    as Hlb' by (rewrite <- Zle_Qle; lia).
  rewrite (Qmake_Qdiv a b).
  apply Qlt_shift_div_l; [done|].
  set (A := inject_Z a) in *. set (B := inject_Z (Z.pos b)) in *.
  set (P := inject_Z (2 ^ Z.log2 (Z.pos b))) in *.
  set (T := inject_Z (2 ^ Z.succ (Z.log2 a))) in *.
  assert (A / B * P == A * (P / B))%Q as -> by (field; lra).
  assert (P / B <= 1)%Q by (apply Qle_shift_div_r; lra).
  assert (0 < P / B)%Q by (apply Qlt_shift_div_l; lra).
  nra.
Qed.

Lemma Qlog2_unique x k :
  (2 ^ k <= x)%Q → (x < 2 ^ (k + 1))%Q → Qlog2 x = k.
Proof.
  intros Hlo Hhi. pose proof (pow2_pos k) as Hk.
  assert (0 < x)%Q as Hx by lra.
  pose proof (Qlog2_lower x Hx) as Hl. pose proof (Qlog2_upper x Hx) as Hu.
  assert (k < Qlog2 x + 1).
  { apply (Qpower_lt_compat_l_inv 2); [|done]. lra. }
  assert (Qlog2 x < k + 1).
  { apply (Qpower_lt_compat_l_inv 2); [|done]. lra. }
  lia.
Qed.

(** A binary64 number below 1 is at most [1 - 2^-53]. *)
Lemma double_below_one q :
  is_double q → (q < 1)%Q → (q <= max_random)%Q.
Proof.
  intros Hd H1. apply Qnot_lt_le. intros Hlt.
  assert (max_random == 1 - (1 # 9007199254740992))%Q as Hmax by reflexivity.
  rewrite Hmax in Hlt. clear Hmax.
  assert (0 < q)%Q as Hq by lra.
  assert (Qlog2 q = -1) as Hlog.
  { apply Qlog2_unique.
    - change (2 ^ (-1))%Q with (1 # 2)%Q. lra.
    - change (2 ^ (-1 + 1))%Q with 1%Q. done. }
  unfold is_double in Hd. rewrite round_double_pos in Hd by done.
  unfold ulp_exp in Hd. rewrite Hlog in Hd.
  change (Z.max (-1 - 52) (-1074)) with (-53) in Hd.
  assert (2 ^ (-53) == 1 # 9007199254740992)%Q as Hp by reflexivity.
  set (r := round_half_even _) in Hd. clearbody r.
  rewrite Hp in Hd.
  assert (inject_Z 9007199254740991 < inject_Z r)%Q as Hlo.
  { change (inject_Z 9007199254740991) with 9007199254740991%Q. lra. }
  assert (inject_Z r < inject_Z 9007199254740992)%Q as Hhi.
  { change (inject_Z 9007199254740992) with 9007199254740992%Q. lra. }
  rewrite <- Zlt_Qlt in Hlo, Hhi. lia.
Qed.

Lemma floor_random_range n g :
  0 < n → unit_interval g → 0 ≤ (floor_random n g).1 < n.
Proof.
  intros Hn Hg. unfold floor_random. simpl.
  destruct (Hg (pos g)) as (Hd & H0 & H1).
  pose proof (double_below_one _ Hd H1) as Hmax.
  pose proof (inject_Z_pos n Hn) as Hn'. split.
  - rewrite <- (Qfloor_Z 0). apply Qfloor_resp_le. apply round_double_nonneg.
    apply Qmult_le_0_compat; [done|]. by apply Qlt_le_weak.
  - rewrite Zlt_Qlt. eapply Qle_lt_trans; [apply Qfloor_le|].
    apply round_double_scaled_lt; [done|done|lia].
Qed.

Lemma random_unit_interval g : unit_interval g → unit_interval (random g).2.
Proof. intros H i. apply H. Qed.

Lemma floor_random_unit_interval n g :
  unit_interval g → unit_interval (floor_random n g).2.
Proof. intros H i. apply H. Qed.

Lemma replay_unit_interval (l : list Q) :
  Forall (λ q, is_double q ∧ (0 <= q)%Q ∧ (q < 1)%Q) l →
  unit_interval (replay l).
Proof.
  intros Hl i. simpl. revert i.
  induction Hl as [|q l Hq Hl IH]; intros i; simpl; [by vm_compute|].
  destruct (i =? 0)%N; [done|apply IH].
Defined.

Ltac unit_interval_replay :=
  apply replay_unit_interval;
  repeat (apply Forall_cons_2;
          [vm_compute; repeat split; first [reflexivity | intro; discriminate]|]);
  apply Forall_nil_2.

(** ** Terrain generation *)

Lemma woods_subdraw_eq centerRow centerCol w g :
  woods_subdraw centerRow centerCol w g =
  let row := centerRow + ((floor_random 6 g).1 - 3) in
  let col := centerCol + ((floor_random 6 (floor_random 6 g).2).1 - 3) in
  (if in_bounds row col then {[ (row, col) ]} ∪ w else w,
   (floor_random 6 (floor_random 6 g).2).2).
Proof. unfold woods_subdraw, in_bounds. simpl. by case_match. Qed.

(** Every pair of offsets of [[-3,2]] is drawn by some oracle. *)
Lemma woods_subdraw_covers (dr dc : Z) :
  -3 ≤ dr ≤ 2 → -3 ≤ dc ≤ 2 →
  ∃ g, unit_interval g ∧
       (floor_random 6 g).1 - 3 = dr ∧
       (floor_random 6 (floor_random 6 g).2).1 - 3 = dc.
Proof.
  intros Hr Hc.
  exists (replay [(11 * (dr + 3) + 6) # 64; (11 * (dc + 3) + 6) # 64]).
  assert (dr ∈ seqZ (-3) 6) as Hin by (apply elem_of_seqZ; lia).
  assert (dc ∈ seqZ (-3) 6) as Hin' by (apply elem_of_seqZ; lia).
  clear -Hin Hin'. vm_compute in Hin, Hin'.
  repeat (apply elem_of_cons in Hin as [->|Hin]);
    try (by apply elem_of_nil in Hin);
    repeat (apply elem_of_cons in Hin' as [->|Hin']);
    try (by apply elem_of_nil in Hin');
    (split; [unit_interval_replay|by vm_compute]).
Qed.

(** C8, as stated, fails: an offset of [+3] is never drawn.  From the
    centre (100, 100) no oracle makes a sub-draw add the cell (103, 100),
    which lies at offset (3, 0). *)
Lemma woods_subdraw_never_plus_3 :
  ¬ ∃ g, unit_interval g ∧ (103, 100) ∈ (woods_subdraw 100 100 ∅ g).1.
Proof.
  intros (g & Hg & Hin). rewrite woods_subdraw_eq in Hin.
  pose proof (floor_random_range 6 g ltac:(lia) Hg) as Hr.
  cbv zeta in Hin. cbn [fst] in Hin.
  case_match; [|by apply not_elem_of_empty in Hin].
  apply elem_of_union in Hin as [Hin|Hin]; [|by apply not_elem_of_empty in Hin].
  apply elem_of_singleton in Hin.
  assert (103 = 100 + ((floor_random 6 g).1 - 3)) by congruence. lia.
Qed.

(** [Math.floor(q * 6)] for a draw [q]: it is [k] when the exact product
    lies in [[k, k+1)], except within [2^-51] below [k + 1], where the
    rounding of the product to a binary64 number may lift it to [k + 1];
    conversely an outcome [k] leaves the exact product in [[k, k+1)] or
    within [2^-51] below [k]. *)
Lemma floor_scaled_6 (q : Q) (k : Z) :
  (0 <= q)%Q → (q < 1)%Q →
  ((inject_Z k <= q * 6)%Q ∧ (q * 6 + 2 ^ (-51) < inject_Z (k + 1))%Q →
   Qfloor (round_double (q * inject_Z 6)) = k) ∧
  (Qfloor (round_double (q * inject_Z 6)) = k →
   (inject_Z k - 2 ^ (-51) <= q * 6)%Q ∧ (q * 6 < inject_Z (k + 1))%Q).
Proof.
  intros H0 H1. change (inject_Z 6) with 6%Q.
  assert (0 <= q * 6)%Q as Hx0 by lra.
  assert (q * 6 < 2 ^ 3)%Q as Hx1 by (change (2 ^ 3)%Q with 8%Q; lra).
  split.
  - intros [Hlo Hhi].
    by apply (Qfloor_round_double_intro (q * 6) 3 k).
  - intros Hk. by apply (Qfloor_round_double_elim (q * 6) 3 k).
Qed.

(** C8 (amended): a sub-draw of [generateWoods] offsets the patch centre,
    on each axis, by an integer of [[-3,2]] computed from a draw of its own
    (two consecutive, independent calls of [Math.random]) as
    [Math.floor(draw * 6) - 3].  The offset is [k - 3] when [draw * 6] lies
    in [[k, k+1)] and not within [2^-51] of [k + 1], and only when
    [draw * 6] lies in [[k, k+1)] or within [2^-51] below [k]: up to the
    rounding of the product, the six offsets have preimages of the same
    length.  The resulting coordinate is added to [woods] when it is in
    bounds on the 200x200 board and dropped otherwise, and adding a
    coordinate that is already there changes nothing. *)
Theorem woods_subdraw_spec (centerRow centerCol : Z) (w : gset (Z * Z)) (g : Rand) :
  unit_interval g →
  let q1 := (random g).1 in
  let q2 := (random (random g).2).1 in
  let offsetRow := Qfloor (round_double (q1 * inject_Z 6)) - 3 in
  let offsetCol := Qfloor (round_double (q2 * inject_Z 6)) - 3 in
  let row := centerRow + offsetRow in
  let col := centerCol + offsetCol in
  (-3 ≤ offsetRow ≤ 2 ∧ -3 ≤ offsetCol ≤ 2) ∧
  (∀ k,
     ((inject_Z k <= q1 * 6)%Q ∧ (q1 * 6 + 2 ^ (-51) < inject_Z (k + 1))%Q →
      offsetRow = k - 3) ∧
     (offsetRow = k - 3 →
      (inject_Z k - 2 ^ (-51) <= q1 * 6)%Q ∧ (q1 * 6 < inject_Z (k + 1))%Q)) ∧
  (∀ k,
     ((inject_Z k <= q2 * 6)%Q ∧ (q2 * 6 + 2 ^ (-51) < inject_Z (k + 1))%Q →
      offsetCol = k - 3) ∧
     (offsetCol = k - 3 →
      (inject_Z k - 2 ^ (-51) <= q2 * 6)%Q ∧ (q2 * 6 < inject_Z (k + 1))%Q)) ∧
  (woods_subdraw centerRow centerCol w g).1 =
    (if in_bounds row col then {[ (row, col) ]} ∪ w else w) ∧
  (in_bounds row col = false → (woods_subdraw centerRow centerCol w g).1 = w) ∧
  ((row, col) ∈ w → (woods_subdraw centerRow centerCol w g).1 = w).
Proof.
  intros Hg q1 q2 offsetRow offsetCol row col.
  pose proof (floor_random_range 6 g ltac:(lia) Hg) as Hr.
  pose proof (floor_random_range 6 _ ltac:(lia)
                (floor_random_unit_interval 6 g Hg)) as Hc.
  assert (Heq : (woods_subdraw centerRow centerCol w g).1 =
                (if in_bounds row col then {[ (row, col) ]} ∪ w else w))
    by (by rewrite woods_subdraw_eq).
  destruct (Hg (pos g)) as (_ & H10 & H11).
  destruct (Hg (N.succ (pos g))) as (_ & H20 & H21).
  split; [|split; [|split; [|split; [|split]]]].
  - unfold offsetRow, offsetCol, q1, q2. simpl in *. lia.
  - intros k. destruct (floor_scaled_6 q1 k H10 H11) as [Hin Hout].
    unfold offsetRow. split.
    + intros Hk. rewrite (Hin Hk). lia.
    + intros Hk. apply Hout. lia.
  - intros k. destruct (floor_scaled_6 q2 k H20 H21) as [Hin Hout].
    unfold offsetCol. split.
    + intros Hk. rewrite (Hin Hk). lia.
    + intros Hk. apply Hout. lia.
  - done.
  - intros Hb. by rewrite Heq, Hb.
  - intros Hin. rewrite Heq. case_match; [|done].
    apply subseteq_union_1_L. by apply singleton_subseteq_l.
Qed.

Lemma woods_subdraw_spec_witness :
  (woods_subdraw 100 100 ∅ (replay [0%Q; 7 # 8])).1 = {[ (97, 102) ]} ∪ ∅.
Proof.
  pose proof (woods_subdraw_spec 100 100 ∅ (replay [0%Q; 7 # 8])
                ltac:(unit_interval_replay)) as H.
  destruct H as (_ & _ & _ & H & _). exact H.
Defined.

(** The rounding of the product is observable: the binary64 number nearest
    to 1/6 lies below 1/6, its exact product with 6 lies below 1, and the
    product that JS computes is 1, which gives the offset [-2]. *)
Example woods_subdraw_rounded_product :
  let q := (6004799503160661 # 36028797018963968)%Q in
  is_double q ∧ (q * 6 < 1)%Q ∧
  (woods_subdraw 100 100 ∅ (replay [q; 0%Q])).1 = {[ (98, 97) ]}.
Proof. by vm_compute. Qed.

(** ** Spawn placement *)

Section spawn.
#[local] Arguments floor_random : simpl never.




Lemma in_bounds_true r c :
  in_bounds r c = true ↔ (0 ≤ r < BOARD_SIZE) ∧ (0 ≤ c < BOARD_SIZE).
Proof. unfold in_bounds. rewrite !andb_true_iff, !Z.leb_le, !Z.ltb_lt. lia. Qed.

Lemma in_bounds_false r c :
  in_bounds r c = false ↔ ¬ ((0 ≤ r < BOARD_SIZE) ∧ (0 ≤ c < BOARD_SIZE)).
Proof. rewrite <- in_bounds_true. by destruct (in_bounds r c). Qed.

Lemma tooClose_false row col positions :
  tooClose row col positions = false → Forall (far_apart (row, col)) positions.
Proof.
  unfold tooClose. induction positions as [|q qs IH]; simpl; [done|].
  intros [H1 H2]%orb_false_elim. constructor; [|by apply IH].
  unfold closer_than_min in H1. unfold far_apart. simpl. lia.
Qed.

Lemma spawn_attempts_unit_interval fuel positions g :
  unit_interval g → unit_interval (spawn_attempts fuel positions g).2.
Proof. 
  revert g. induction fuel as [|fuel IH]; intros g Hg; simpl; [done|].
  case_match; [|done]. apply IH. intros i; apply Hg.
Qed.

Lemma spawn_attempts_accept fuel positions g p :
  unit_interval g →
  (spawn_attempts fuel positions g).1 = Some p →
  in_inset p ∧ Forall (far_apart p) positions.
Proof.
  revert g. induction fuel as [|fuel IH]; intros g Hg; simpl; [done|].
  pose proof (floor_random_range (BOARD_SIZE - 10) g ltac:(done) Hg) as Hr.
  pose proof (floor_random_range (BOARD_SIZE - 10) _ ltac:(done)
                (floor_random_unit_interval (BOARD_SIZE - 10) g Hg)) as Hc.
  simpl in Hr, Hc.
  case_match eqn:Hclose.
  - apply IH. intros i; apply Hg.
  - simpl. intros [= <-]. split; [|by apply tooClose_false].
    unfold in_inset, BOARD_SIZE in *. simpl. lia.
Qed.

Lemma spawn_fallback_total g :
  unit_interval g →
  ∃ p, (spawn_fallback g).1 = Some p ∧ on_fallback_line p ∧ in_bounds p.1 p.2 = true.
Proof.
  intros Hg. unfold spawn_fallback.
  pose proof (floor_random_range 4 g ltac:(done) Hg) as He.
  pose proof (floor_random_range BOARD_SIZE _ ltac:(done)
                (floor_random_unit_interval 4 g Hg)) as Hc.
  destruct (floor_random 4 g) as [edge g1]. cbn [fst snd] in He, Hc.
  destruct (floor_random BOARD_SIZE g1) as [x g2]. cbn [fst snd] in Hc.
  assert (edge = 0 ∨ edge = 1 ∨ edge = 2 ∨ edge = 3) as [-> | [-> | [-> | ->]]] by lia;
    simpl; eexists; (split; [done|]); rewrite in_bounds_true;
    unfold on_fallback_line, BOARD_SIZE in *; simpl; lia.
Qed.

Lemma spawn_fallback_unit_interval g :
  unit_interval g → unit_interval (spawn_fallback g).2.
Proof.
  intros Hg. unfold spawn_fallback.
  destruct (floor_random 4 g) as [edge g1] eqn:E1.
  assert (unit_interval g1) as Hg1.
  { replace g1 with (floor_random 4 g).2 by by rewrite E1. intros i; apply Hg. }
  destruct (floor_random BOARD_SIZE g1) as [x g2] eqn:E2.
  assert (unit_interval g2) as Hg2.
  { replace g2 with (floor_random BOARD_SIZE g1).2 by by rewrite E2. intros i; apply Hg1. }
  repeat case_match; simplify_eq; done.
Qed.

Lemma spawn_one_spec positions g :
  unit_interval g →
  match spawn_attempts maxAttempts positions g with
  | (Some p, g') =>
      spawn_one positions g = (Some (positions ++ [p]), g') ∧
      in_inset p ∧ Forall (far_apart p) positions
  | (None, g') =>
      ∃ p, (spawn_fallback g').1 = Some p ∧
           spawn_one positions g = (Some (positions ++ [p]), (spawn_fallback g').2) ∧
           on_fallback_line p ∧ in_bounds p.1 p.2 = true
  end.
Proof.
  intros Hg. unfold spawn_one.
  pose proof (spawn_attempts_unit_interval maxAttempts positions g Hg) as Hg'.
  pose proof (spawn_attempts_accept maxAttempts positions g) as Hacc.
  destruct (spawn_attempts maxAttempts positions g) as [[p|] g'].
  - split; [done|]. by apply Hacc.
  - destruct (spawn_fallback_total g' Hg') as (p & Hp & Hline & Hb).
    exists p. destruct (spawn_fallback g') as [o g'']. simpl in Hp. subst o.
    done.
Qed.

Lemma spawn_one_unit_interval positions g :
  unit_interval g → unit_interval (spawn_one positions g).2.
Proof.
  intros Hg. unfold spawn_one.
  pose proof (spawn_attempts_unit_interval maxAttempts positions g Hg) as Hg'.
  destruct (spawn_attempts maxAttempts positions g) as [[p|] g']; [done|].
  pose proof (spawn_fallback_unit_interval g' Hg') as Hg''.
  by destruct (spawn_fallback g') as [[?|] g''].
Qed.



Lemma all_placed_snoc positions p :
  all_placed positions → placed positions p → all_placed (positions ++ [p]).
Proof.
  intros Hall Hp i q Hi.
  destruct (decide (i < length positions)%nat) as [Hlt|Hge].
  - rewrite lookup_app_l in Hi by done.
    rewrite take_app_le by lia. by apply Hall.
  - rewrite lookup_app_r in Hi by lia.
    apply list_lookup_singleton_Some in Hi as [Hi ->].
    assert (i = length positions) as -> by lia.
    by rewrite take_app_length.
Qed.

Lemma in_inset_in_bounds p : in_inset p → in_bounds p.1 p.2 = true.
Proof. unfold in_inset, BOARD_SIZE. rewrite in_bounds_true. unfold BOARD_SIZE. lia. Qed.

Lemma spawn_positions_loop_spec n positions g :
  unit_interval g → all_placed positions →
  ∃ ps, (spawn_positions_loop n positions g).1 = Some ps ∧
        length ps = (length positions + n)%nat ∧ all_placed ps.
Proof.
  revert positions g. induction n as [|n IH]; intros positions g Hg Hall; simpl.
  - exists positions. split; [done|]. split; [lia|done].
  - pose proof (spawn_one_spec positions g Hg) as Hone.
    pose proof (spawn_one_unit_interval positions g Hg) as Hg1.
    destruct (spawn_attempts maxAttempts positions g) as [[p|] g'].
    + destruct Hone as (Hone & Hin & Hfar). rewrite Hone in Hg1 |- *. simpl in Hg1.
      destruct (IH (positions ++ [p]) g' Hg1) as (ps & Hps & Hlen & Hpl).
      { apply all_placed_snoc; [done|]. split; [by apply in_inset_in_bounds|by left]. }
      exists ps. split; [done|]. rewrite length_app in Hlen. simpl in Hlen.
      split; [lia|done].
    + destruct Hone as (p & Hp & Hone & Hline & Hb).
      rewrite Hone in Hg1 |- *. simpl in Hg1.
      destruct (IH (positions ++ [p]) _ Hg1) as (ps & Hps & Hlen & Hpl).
      { apply all_placed_snoc; [done|]. split; [done|by right]. }
      exists ps. split; [done|]. rewrite length_app in Hlen. simpl in Hlen.
      split; [lia|done].
Qed.



End spawn.

(** Two runs of the placement: one where each first draw is accepted, and
    one where the second player's 1000 draws all repeat the first player's
    coordinate, so that the fallback point (5, 0) is taken. *)
Example generateSpawnPositions_accepts :
  (generateSpawnPositions 2 (replay [0%Q; 0%Q; 0%Q; 1 # 2])).1
  = Some [(5, 5); (5, 100)].
Proof. by vm_compute. Qed.

Example generateSpawnPositions_falls_back :
  (generateSpawnPositions 2 (replay [])).1 = Some [(5, 5); (5, 0)].
Proof. by vm_compute. Qed.

(** ** The move engine *)




Lemma out_of_range_test toRow toCol :
  ((toRow <? 0) || (toRow >=? BOARD_SIZE) || (toCol <? 0) || (toCol >=? BOARD_SIZE))
  = false ↔ (0 ≤ toRow < BOARD_SIZE ∧ 0 ≤ toCol < BOARD_SIZE).
Proof. rewrite !orb_false_iff, !Z.ltb_ge, !Z.geb_leb, !Z.leb_gt. lia. Qed.

Lemma obstructed_test room toRow toCol :
  (bool_decide ((toRow, toCol) ∈ woods room)
   || bool_decide ((toRow, toCol) ∈ dangerZones room)) = false ↔
  ((toRow, toCol) ∉ woods room) ∧ ((toRow, toCol) ∉ dangerZones room).
Proof. by rewrite orb_false_iff, !bool_decide_eq_false. Qed.

Lemma cooldown_test (pc : Piece) :
  (negb (piece_canMove pc) && bool_decide (piece_type pc ≠ king)) = false ↔
  (piece_canMove pc = true ∨ piece_type pc = king).
Proof.
  rewrite andb_false_iff, negb_false_iff, bool_decide_eq_false.
  split; (intros [?|?]; [by left|right]); [by apply dec_stable|by intros ?].
Qed.

Lemma isValidMove_true room piece toRow toCol :
  isValidMove room piece toRow toCol = Some true ↔
  ((0 ≤ toRow < BOARD_SIZE ∧ 0 ≤ toCol < BOARD_SIZE) ∧
   (((toRow, toCol) ∉ woods room) ∧ ((toRow, toCol) ∉ dangerZones room)) ∧
   (piece_canMove (room_heap room !!! piece) = true
    ∨ piece_type (room_heap room !!! piece) = king) ∧
   ∃ player,
     players_get (piece_playerId (room_heap room !!! piece)) (players room)
       = Some player ∧
     within_leash (room_heap room) player toRow toCol).
Proof.
  unfold isValidMove. cbv zeta.
  rewrite <- out_of_range_test, <- obstructed_test, <- cooldown_test.
  destruct (_ || _ || _ || _); [by split; [|intros [? _]]|].
  destruct (_ || _); [by split; [|intros (_ & ? & _)]|].
  destruct (_ && _); [by split; [|intros (_ & _ & ? & _)]|].
  destruct (players_get _ _) as [player|];
    [|by split; [|intros (_ & _ & _ & ? & ? & _)]].
  unfold within_leash, find_king, chebyshev.
  destruct (find _ _) as [k|] eqn:Hk.
  - destruct (Z.gtb_spec (Z.max (Z.abs (toRow - piece_row (room_heap room !!! k)))
                               (Z.abs (toCol - piece_col (room_heap room !!! k)))) 10).
    + split; [done|]. intros (_ & _ & _ & p & [= <-] & Hl).
      specialize (Hl k Hk). lia.
    + split; [|done]. intros _. repeat (split; [done|]).
      exists player. split; [done|]. intros k' Hk'. rewrite Hk in Hk'.
      simplify_eq. lia.
  - split; [|done]. intros _. repeat (split; [done|]).
    exists player. split; [done|]. intros k' Hk'. by rewrite Hk in Hk'.
Qed.


Lemma isValidMove_defined room piece toRow toCol player :
  players_get (piece_playerId (room_heap room !!! piece)) (players room)
    = Some player →
  ∃ b, isValidMove room piece toRow toCol = Some b.
Proof.
  intros Hp. unfold isValidMove. cbv zeta. rewrite Hp.
  repeat case_match; eauto.
Qed.

Lemma isValidMove_rejects room piece toRow toCol player :
  players_get (piece_playerId (room_heap room !!! piece)) (players room)
    = Some player →
  rejected_move room player piece toRow toCol →
  isValidMove room piece toRow toCol = Some false.
Proof.
  intros Hp Hrej.
  destruct (isValidMove_defined room piece toRow toCol player Hp) as [[|] Hb];
    [|done].
  apply isValidMove_true in Hb as (Hb & [Hw Hd] & Hc & p & Hp' & Hl).
  rewrite Hp in Hp'. simplify_eq.
  destruct Hrej as [?|[?|[?|[(k & Hk & Hfar)|[Hnk Hcm]]]]]; try done.
  - specialize (Hl k Hk). lia.
  - destruct Hc as [Hc|Hc]; congruence.
Qed.

Lemma socket_player_get room socket player :
  socket_player room socket = Some player →
  ∃ playerId, socket_playerId socket = Some playerId ∧
              players_get playerId (players room) = Some player.
Proof. unfold socket_player. destruct (socket_playerId socket); naive_solver. Qed.

(** C4: a [move_piece] request is turned down, with the room exactly as it
    was, whenever its destination is outside [[0,200)] on either axis, is in
    [woods], is in [dangerZones], is at Chebyshev distance more than 10 from
    the acting player's king, or its piece is not a king and has [canMove]
    false.  Nothing is broadcast: the handler emits nothing at all, or the
    single [invalid_move] event to the calling socket; it emits that event
    whenever the request has passed the gates on the room, the phase, the
    player and the ownership of the piece. *)
Theorem on_move_piece_rejects (now : Z) (room : Room) (socket : Socket)
    (data : MoveData) :
  (∀ player piece,
     socket_player room socket = Some player →
     findPiece room (move_pieceId data) = Some piece →
     rejected_move room player piece (move_toRow data) (move_toCol data)) →
  (∃ effs, on_move_piece now room socket data = Some (room, effs) ∧
           (effs = [] ∨
            effs = [Emit (to_socket (socket_id socket)) (invalid_move "Invalid move")])) ∧
  (∀ player piece,
     socket_room room socket = true →
     phase room = playing →
     socket_player room socket = Some player →
     player_alive player = true →
     findPiece room (move_pieceId data) = Some piece →
     Some (piece_playerId (room_heap room !!! piece)) = socket_playerId socket →
     on_move_piece now room socket data
       = Some (room, [Emit (to_socket (socket_id socket))
                           (invalid_move "Invalid move")])).
Proof.
  intros Hrej.
  assert (Hcore : ∀ player piece playerId,
            socket_player room socket = Some player →
            socket_playerId socket = Some playerId →
            findPiece room (move_pieceId data) = Some piece →
            piece_playerId (room_heap room !!! piece) = playerId →
            isValidMove room piece (move_toRow data) (move_toCol data) = Some false).
  { intros player piece playerId Hsp Hid Hf Hown.
    apply (isValidMove_rejects _ _ _ _ player); [|by apply Hrej].
    apply socket_player_get in Hsp as (pid & Hpid & Hget). congruence. }
  split.
  - unfold on_move_piece.
    destruct (socket_room room socket); simpl; [|eauto].
    case_bool_decide; [eauto|].
    destruct (socket_player room socket) as [player|] eqn:Hsp; [|eauto].
    destruct (socket_playerId socket) as [playerId|] eqn:Hid; [|eauto].
    destruct (player_alive player); simpl; [|eauto].
    destruct (findPiece room (move_pieceId data)) as [piece|] eqn:Hf; [|eauto].
    case_bool_decide as Hown; [eauto|].
    rewrite (Hcore player piece playerId) by done. simpl. eauto.
  - intros player piece Hroom Hphase Hsp Halive Hf Hown.
    assert (∃ playerId, socket_playerId socket = Some playerId ∧
              piece_playerId (room_heap room !!! piece) = playerId)
      as (playerId & Hid & Hown') by (rewrite <- Hown; eauto).
    pose proof (Hcore _ _ _ Hsp Hid Hf Hown') as Hv.
    unfold on_move_piece. rewrite Hroom, Hphase, Hsp, Hid. simpl.
    rewrite Halive, Hf. simpl.
    rewrite bool_decide_eq_false_2 by (by intros ?).
    by rewrite Hv.
Qed.

(** *** Execution *)

Lemma removePieceFromGame_fields room piece :
  let r := removePieceFromGame room piece in
  board r = board room ∧ room_heap r = room_heap room ∧ phase r = phase room ∧
  woods r = woods room ∧ dangerZones r = dangerZones room ∧
  shrinkTimer r = shrinkTimer room ∧ shrinkInterval r = shrinkInterval room ∧
  room_id r = room_id room ∧ admin r = admin room.
Proof. unfold removePieceFromGame. cbv zeta. by case_match. Qed.

Lemma removePieceFromGame_set_board b room piece :
  removePieceFromGame (set_board b room) piece
  = set_board b (removePieceFromGame room piece).
Proof. unfold removePieceFromGame. simpl. by case_match. Qed.



Lemma board_set_in b r c v :
  in_bounds r c = true →
  board_set b r c v
  = Some (match v with Some l => <[(r, c) := l]> b | None => delete (r, c) b end).
Proof. unfold board_set. by intros ->. Qed.

Lemma board_get_in b r c :
  in_bounds r c = true → board_get b r c = Some (b !! (r, c)).
Proof. unfold board_get. by intros ->. Qed.

Lemma executeMove_spec now room piece toRow toCol :
  in_bounds (origin room piece).1 (origin room piece).2 = true →
  in_bounds toRow toCol = true →
  ∃ r effs,
    executeMove now room piece toRow toCol = Some (r, effs) ∧
    board r = <[(toRow, toCol) := piece]> (delete (origin room piece) (board room)) ∧
    players r =
      players (match delete (origin room piece) (board room) !! (toRow, toCol) with
               | Some cp => removePieceFromGame room cp
               | None => room
               end) ∧
    room_heap r = moved_heap now (room_heap room) piece toRow toCol ∧
    effs = (if bool_decide (piece_type (room_heap room !!! piece) ≠ king)
            then [SetTimeout (cooldown_timeout piece) 5000] else []) ∧
    phase r = phase room ∧ woods r = woods room ∧
    dangerZones r = dangerZones room ∧ shrinkTimer r = shrinkTimer room ∧
    shrinkInterval r = shrinkInterval room ∧ room_id r = room_id room ∧
    admin r = admin room.
Proof.
  unfold origin. cbn [fst snd]. intros Ho Hd.
  unfold executeMove, moved_heap. cbv zeta.
  rewrite (board_set_in _ _ _ None Ho). cbn [mbind option_bind].
  cbn [board set_board]. rewrite (board_get_in _ _ _ Hd). cbn [mbind option_bind].
  destruct (delete _ (board room) !! (toRow, toCol)) as [cp|] eqn:Hcp.
  - rewrite removePieceFromGame_set_board.
    pose proof (removePieceFromGame_fields room cp) as Hf. cbv zeta in Hf.
    destruct Hf as (Hb & Hh & Hph & Hw & Hdz & Hst & Hsi & Hid & Had).
    cbn [board set_board set_heap]. rewrite (board_set_in _ _ _ (Some piece) Hd).
    cbn [mbind option_bind].
    case_bool_decide; eexists _, _; (split; [done|]); cbn;
      rewrite ?Hh; repeat split; done.
  - cbn [board set_board set_heap]. rewrite (board_set_in _ _ _ (Some piece) Hd).
    cbn [mbind option_bind].
    case_bool_decide; eexists _, _; (split; [done|]); cbn; repeat split; done.
Qed.

Lemma players_get_set k v m : players_get k (players_set k v m) = Some v.
Proof.
  induction m as [|[k' v'] m IH]; simpl.
  - by rewrite decide_True.
  - destruct (decide (k' = k)) as [->|Hne]; simpl.
    + by rewrite decide_True.
    + by rewrite decide_False.
Qed.

Lemma players_get_set_ne k k' v m :
  k ≠ k' → players_get k' (players_set k v m) = players_get k' m.
Proof.
  intros Hne. induction m as [|[k0 v0] m IH]; simpl.
  - by rewrite decide_False.
  - destruct (decide (k0 = k)) as [->|Hne0]; simpl.
    + by rewrite !decide_False.
    + by rewrite IH.
Qed.

Lemma moved_heap_position now h piece toRow toCol :
  is_Some (h !! piece) →
  piece_row (moved_heap now h piece toRow toCol !!! piece) = toRow ∧
  piece_col (moved_heap now h piece toRow toCol !!! piece) = toCol.
Proof.
  intros Hl%lookup_lt_is_Some. unfold moved_heap. case_bool_decide.
  - rewrite !list_lookup_total_alter_eq by (by rewrite ?length_alter). done.
  - by rewrite !list_lookup_total_alter_eq.
Qed.

(** The occupant of a cell is gone from its owner's list once it has been
    removed. *)
Lemma removePieceFromGame_gone room occ owner :
  players_get (piece_playerId (room_heap room !!! occ))
              (players (removePieceFromGame room occ)) = Some owner →
  occ ∉ player_pieces owner.
Proof.
  unfold removePieceFromGame. cbv zeta.
  destruct (players_get _ (players room)) as [p|] eqn:Hp; [|congruence].
  simpl. rewrite players_get_set. intros [= <-].
  case_bool_decide; simpl; intros Hin;
    apply list_elem_of_filter in Hin as [Hne _]; done.
Qed.


(** C7 (amended): when a validated move goes to a cell other than the one
    the piece stands on, and that cell holds a piece [occ], of whatever
    owner, then [executeMove] returns, the players are what Piece Removal of
    [occ] leaves (so [occ] is no longer in its owner's list), the origin cell
    is empty, the destination cell holds the moving piece, and the recorded
    coordinates of the moving piece are the destination. *)
Theorem executeMove_captures (now : Z) (room : Room) (piece occ : loc)
    (toRow toCol : Z) :
  is_Some (room_heap room !! piece) →
  in_bounds (origin room piece).1 (origin room piece).2 = true →
  isValidMove room piece toRow toCol = Some true →
  (toRow, toCol) ≠ origin room piece →
  board room !! (toRow, toCol) = Some occ →
  ∃ r effs,
    executeMove now room piece toRow toCol = Some (r, effs) ∧
    captures room r piece occ toRow toCol ∧
    (∀ owner,
       players_get (piece_playerId (room_heap room !!! occ)) (players r)
         = Some owner →
       occ ∉ player_pieces owner).
Proof.
  intros Hpiece Ho Hvalid Hne Hocc.
  apply isValidMove_true in Hvalid as (Hb & _).
  apply in_bounds_true in Hb.
  destruct (executeMove_spec now room piece toRow toCol Ho Hb)
    as (r & effs & Hex & Hboard & Hplayers & Hheap & _).
  rewrite lookup_delete_ne, Hocc in Hplayers by done.
  exists r, effs. split; [done|]. split.
  - unfold captures. rewrite Hboard, Hheap. split; [done|].
    rewrite lookup_insert_ne, lookup_delete_eq by done.
    rewrite lookup_insert_eq. split; [done|]. split; [done|].
    by apply moved_heap_position.
  - intros owner. rewrite Hplayers. apply removePieceFromGame_gone.
Qed.

Lemma executeMove_captures_witness :
  ∃ r effs,
    executeMove 10 Demo.started 16%nat 5 101 = Some (r, effs) ∧
    captures Demo.started r 16%nat 17%nat 5 101 ∧
    (∀ owner,
       players_get (piece_playerId (room_heap Demo.started !!! 17%nat)) (players r)
         = Some owner →
       (17%nat : loc) ∉ player_pieces owner).
Proof.
  apply (executeMove_captures 10 Demo.started 16%nat 17%nat 5 101).
  - vm_compute. eauto.
  - by vm_compute.
  - by vm_compute.
  - by vm_compute.
  - by vm_compute.
Defined.

(** C7, as stated, fails for a move to the cell the piece stands on, which
    [isValidMove] accepts.  In the started demo room Alice's king stands on
    (5, 5).  The move of the king to (5, 5) is validated and its destination
    cell holds a piece (the king), yet after [executeMove] the origin cell is
    not empty: the king is still there. *)
Lemma executeMove_on_own_cell :
  isValidMove Demo.started 0%nat 5 5 = Some true ∧
  board Demo.started !! (5, 5) = Some 0%nat ∧
  ¬ ∃ r effs, executeMove 10 Demo.started 0%nat 5 5 = Some (r, effs) ∧
              captures Demo.started r 0%nat 0%nat 5 5.
Proof.
  split; [by vm_compute|]. split; [by vm_compute|].
  intros (r & effs & Hex & _ & Hcleared & _).
  assert ((executeMove 10 Demo.started 0%nat 5 5 ≫= λ x, board x.1 !! (5, 5))
          = Some 0%nat) as Hstill by (by vm_compute).
  rewrite Hex in Hstill. simpl in Hstill.
  replace (origin Demo.started 0%nat) with (5, 5) in Hcleared by (by vm_compute).
  pose proof (eq_trans (eq_sym Hstill) Hcleared) as Habs. discriminate Habs.
Qed.

Lemma on_move_piece_rejects_witness :
  on_move_piece 10 Demo.started Demo.alice
    (mkMoveData Demo.alice_king 5 5 200 5)
  = Some (Demo.started,
          [Emit (to_socket "sA") (invalid_move "Invalid move")]).
Proof.
  refine (proj2 (on_move_piece_rejects 10 Demo.started Demo.alice
                   (mkMoveData Demo.alice_king 5 5 200 5) _)
                (default inhabitant (socket_player Demo.started Demo.alice))
                0%nat _ _ _ _ _ _).
  - intros player piece _ _. left. simpl. unfold BOARD_SIZE. lia.
  - by vm_compute.
  - by vm_compute.
  - by vm_compute.
  - by vm_compute.
  - by vm_compute.
  - by vm_compute.
Defined.


(** A request that passes every gate of the handler is executed,
    broadcast, and followed by win detection. *)
Lemma on_move_piece_accepts now room socket data player playerId piece :
  socket_room room socket = true →
  phase room = playing →
  socket_playerId socket = Some playerId →
  players_get playerId (players room) = Some player →
  player_alive player = true →
  findPiece room (move_pieceId data) = Some piece →
  piece_playerId (room_heap room !!! piece) = playerId →
  isValidMove room piece (move_toRow data) (move_toCol data) = Some true →
  in_bounds (origin room piece).1 (origin room piece).2 = true →
  ∃ r effs,
    executeMove now room piece (move_toRow data) (move_toCol data) = Some (r, effs) ∧
    on_move_piece now room socket data
    = Some ((checkGameEnd r).1,
            effs ++ [Emit (to_room (room_id room))
                          (piece_moved (move_pieceId data)
                             (move_fromRow data) (move_fromCol data)
                             (move_toRow data) (move_toCol data) playerId)]
                 ++ (checkGameEnd r).2).
Proof.
  intros Hroom Hphase Hid Hget Halive Hfind Hown Hvalid Ho.
  pose proof Hvalid as (Hb & _)%isValidMove_true. apply in_bounds_true in Hb.
  destruct (executeMove_spec now room piece _ _ Ho Hb)
    as (r & effs & Hex & _ & _ & _ & _ & _ & _ & _ & _ & _ & Hrid & _).
  exists r, effs. split; [done|].
  unfold on_move_piece, socket_player. rewrite Hroom, Hphase, Hid, Hget. simpl.
  rewrite Halive, Hfind. simpl.
  rewrite bool_decide_eq_false_2 by (by intros ?).
  rewrite Hvalid. simpl. rewrite Hex. simpl. rewrite Hrid.
  by destruct (checkGameEnd r).
Qed.

Lemma find_king_None h ls :
  Forall (λ p, piece_type (h !!! p) ≠ king) ls → find_king h ls = None.
Proof.
  unfold find_king. induction 1 as [|p ls Hp _ IH]; simpl; [done|].
  by rewrite bool_decide_eq_false_2.
Qed.

(** C10: when the acting player's piece list holds no king, a request for
    one of that player's pieces whose destination is in bounds, outside
    [woods] and [dangerZones], and which passes the cooldown gate, is
    validated whatever the distance: the leash test is skipped.  The move is
    then executed and broadcast. *)
Theorem move_without_king_accepted (now : Z) (room : Room) (socket : Socket)
    (data : MoveData) (player : Player) (playerId : string) (piece : loc) :
  let pc := room_heap room !!! piece in
  let toRow := move_toRow data in
  let toCol := move_toCol data in
  socket_room room socket = true →
  phase room = playing →
  socket_playerId socket = Some playerId →
  players_get playerId (players room) = Some player →
  player_alive player = true →
  findPiece room (move_pieceId data) = Some piece →
  piece_playerId pc = playerId →
  in_bounds (piece_row pc) (piece_col pc) = true →
  Forall (λ p, piece_type (room_heap room !!! p) ≠ king) (player_pieces player) →
  (0 ≤ toRow < BOARD_SIZE) ∧ (0 ≤ toCol < BOARD_SIZE) →
  (toRow, toCol) ∉ woods room →
  (toRow, toCol) ∉ dangerZones room →
  piece_canMove pc = true ∨ piece_type pc = king →
  isValidMove room piece toRow toCol = Some true ∧
  ∃ r effs,
    executeMove now room piece toRow toCol = Some (r, effs) ∧
    on_move_piece now room socket data
    = Some ((checkGameEnd r).1,
            effs ++ [Emit (to_room (room_id room))
                          (piece_moved (move_pieceId data)
                             (move_fromRow data) (move_fromCol data)
                             toRow toCol playerId)]
                 ++ (checkGameEnd r).2).
Proof.
  intros pc toRow toCol Hroom Hphase Hid Hget Halive Hfind Hown Ho Hnoking
    Hb Hw Hd Hc.
  assert (isValidMove room piece toRow toCol = Some true) as Hvalid.
  { apply isValidMove_true. repeat (split; [done|]).
    exists player. split; [unfold pc in Hown; by rewrite Hown|].
    intros k Hk. by rewrite find_king_None in Hk. }
  split; [done|]. by eapply on_move_piece_accepts.
Qed.

Lemma move_without_king_accepted_witness :
  isValidMove Demo.after_shrink 1%nat 150 150 = Some true.
Proof.
  refine (proj1 (move_without_king_accepted 70 Demo.after_shrink Demo.alice
            (mkMoveData "player_1_0/1_1" 5 6 150 150)
            (default inhabitant (socket_player Demo.after_shrink Demo.alice))
            "player_1_0/1" 1%nat _ _ _ _ _ _ _ _ _ _ _ _ _)).
  - by vm_compute.
  - by vm_compute.
  - by vm_compute.
  - by vm_compute.
  - by vm_compute.
  - by vm_compute.
  - by vm_compute.
  - by vm_compute.
  - vm_compute. repeat constructor; by intros ?.
  - by vm_compute.
  - by vm_compute.
  - by vm_compute.
  - left. by vm_compute.
Defined.

(** ** The shrink scheduler *)





Section shrink.
#[local] Arguments floor_random : simpl never.

Lemma elem_of_borderSquares dz sq :
  sq ∈ borderSquares dz ↔ on_outer_ring sq ∧ sq ∉ dz.
Proof.
  unfold borderSquares, on_outer_ring. destruct sq as [r c]. cbn [fst snd].
  split.
  - intros Hin. apply list_elem_of_bind in Hin as (row & Hin & Hrow).
    apply elem_of_seqZ in Hrow.
    apply list_elem_of_bind in Hin as (col & Hin & Hcol). apply elem_of_seqZ in Hcol.
    case_match eqn:Hc; [|by apply elem_of_nil in Hin].
    apply list_elem_of_singleton in Hin. simplify_eq.
    apply andb_true_iff in Hc as [Hring Hdz].
    apply negb_true_iff, bool_decide_eq_false in Hdz.
    rewrite !orb_true_iff, !bool_decide_eq_true in Hring.
    unfold BOARD_SIZE in *. split; [lia|done].
  - intros [[Hb Hring] Hdz]. apply list_elem_of_bind.
    exists r. split; [|apply elem_of_seqZ; lia].
    apply list_elem_of_bind. exists c. split; [|apply elem_of_seqZ; lia].
    rewrite andb_true_intro; [by apply list_elem_of_singleton|].
    split.
    + rewrite !orb_true_iff, !bool_decide_eq_true. unfold BOARD_SIZE in *. lia.
    + by apply negb_true_iff, bool_decide_eq_false.
Qed.

Lemma NoDup_borderSquares dz : NoDup (borderSquares dz).
Proof.
  unfold borderSquares. apply NoDup_bind; [| |apply NoDup_seqZ].
  - intros r1 r2 sq _ _ H1 H2.
    apply list_elem_of_bind in H1 as (c1 & H1 & _).
    apply list_elem_of_bind in H2 as (c2 & H2 & _).
    repeat case_match; try (by apply elem_of_nil in H1);
      try (by apply elem_of_nil in H2).
    apply list_elem_of_singleton in H1, H2. congruence.
  - intros r _. apply NoDup_bind; [| |apply NoDup_seqZ].
    + intros c1 c2 sq _ _ H1 H2.
      repeat case_match; try (by apply elem_of_nil in H1);
        try (by apply elem_of_nil in H2).
      apply list_elem_of_singleton in H1, H2. congruence.
    + intros c _. case_match; [apply NoDup_singleton|apply NoDup_nil_2].
Qed.

Lemma splice1_in_range {A} (i : Z) (l : list A) :
  0 ≤ i < Z.of_nat (length l) →
  ∃ x, splice1 i l = (Some x, delete (Z.to_nat i) l) ∧
       l !! Z.to_nat i = Some x.
Proof.
  intros Hi. unfold splice1.
  rewrite (proj2 (Z.ltb_ge i 0)) by lia.
  rewrite Z.min_l by lia.
  destruct (lookup_lt_is_Some_2 l (Z.to_nat i)) as [x Hx]; [lia|].
  exists x. by rewrite Hx.
Qed.

Lemma removePieceFromGame_pieces room piece :
  pieces_only_removed room (removePieceFromGame room piece).
Proof.
  intros k p'. unfold removePieceFromGame. cbv zeta.
  destruct (players_get _ (players room)) as [p|] eqn:Hp; [|eauto].
  simpl. destruct (decide (piece_playerId (room_heap room !!! piece) = k)) as [<-|Hne].
  - rewrite players_get_set. intros [= <-]. exists p. split; [done|].
    case_bool_decide; simpl; intros x Hx; by apply list_elem_of_filter in Hx as [_ ?].
  - rewrite players_get_set_ne by done. eauto.
Qed.

Lemma pieces_only_removed_trans r1 r2 r3 :
  pieces_only_removed r1 r2 → pieces_only_removed r2 r3 →
  pieces_only_removed r1 r3.
Proof.
  intros H12 H23 k p3 Hp3.
  destruct (H23 k p3 Hp3) as (p2 & Hp2 & Hs2).
  destruct (H12 k p2 Hp2) as (p1 & Hp1 & Hs1).
  exists p1. split; [done|]. by etrans.
Qed.

Lemma detached_mono room r l :
  room_heap r = room_heap room →
  pieces_only_removed room r → detached room l → detached r l.
Proof.
  intros Hh Hrem Hdet owner Hget. rewrite Hh in Hget.
  destruct (Hrem _ _ Hget) as (p & Hp & Hsub).
  intros Hin. by apply (Hdet p Hp), Hsub.
Qed.

Lemma removePieceFromGame_detached room l :
  detached (removePieceFromGame room l) l.
Proof.
  intros owner.
  pose proof (removePieceFromGame_fields room l) as Hf. cbv zeta in Hf.
  destruct Hf as (_ & -> & _). apply removePieceFromGame_gone.
Qed.

Lemma shrink_loop_spec fuel i room squares g :
  unit_interval g →
  0 ≤ i →
  Z.max 1 (3 - i) ≤ Z.of_nat fuel →
  NoDup squares →
  (∀ sq, sq ∈ squares → in_bounds sq.1 sq.2 = true) →
  ∃ r g' sel,
    shrink_loop fuel i room squares g = Some (r, g') ∧
    NoDup sel ∧ sel ⊆ squares ∧
    length sel = shrink_count fuel i (Z.of_nat (length squares)) ∧
    dangerZones r = list_to_set sel ∪ dangerZones room ∧
    (board r = board room ∧ room_heap r = room_heap room ∧
     phase r = phase room ∧ woods r = woods room ∧
     shrinkTimer r = shrinkTimer room ∧ shrinkInterval r = shrinkInterval room ∧
     room_id r = room_id room ∧ admin r = admin room) ∧
    pieces_only_removed room r ∧
    (∀ sq l, sq ∈ sel → board room !! sq = Some l → detached r l) ∧
    (i < Z.min 2 (Z.of_nat (length squares)) →
     head sel
     = squares !! Z.to_nat (floor_random (Z.of_nat (length squares)) g).1).
Proof.
  revert i room squares g.
  induction fuel as [|fuel IH]; intros i room squares g Hg Hi Hfuel Hnd Hin; [lia|].
  cbn [shrink_loop shrink_count].
  destruct (Z.ltb_spec i (Z.min 2 (Z.of_nat (length squares)))) as [Hlt|Hge].
  2:{ exists room, g, []. split; [done|]. split; [constructor|].
      split; [by intros ? ?%elem_of_nil|]. split; [done|].
      split; [by rewrite list_to_set_nil, union_empty_l_L|].
      split; [done|]. split; [intros k p'; eauto|].
      split; [by intros sq l ?%elem_of_nil|lia]. }
  pose proof (floor_random_range (Z.of_nat (length squares)) g ltac:(lia) Hg) as Hr.
  pose proof (floor_random_unit_interval (Z.of_nat (length squares)) g Hg) as Hg1.
  destruct (floor_random (Z.of_nat (length squares)) g) as [randomIndex g1].
  cbn [fst snd] in Hr, Hg1 |- *.
  destruct (splice1_in_range randomIndex squares Hr) as (square & -> & Hsq).
  assert (square ∈ squares) as Hsqin by (by eapply list_elem_of_lookup_2).
  rewrite board_get_in by (by apply Hin). cbn [mbind option_bind].
  cbn [board set_dangerZones].
  set (room1 := set_dangerZones ({[square]} ∪ dangerZones room) room).
  set (room2 := match board room !! (square.1, square.2) with
                | Some piece => removePieceFromGame room1 piece
                | None => room1
                end).
  assert (Hrest : delete (Z.to_nat randomIndex) squares ⊆ squares).
  { intros x. apply list_elem_of_delete_inv. }
  assert (Hnd' : NoDup (delete (Z.to_nat randomIndex) squares)).
  { apply (sublist_NoDup _ squares); [done|apply sublist_delete]. }
  assert (Hnotin : square ∉ delete (Z.to_nat randomIndex) squares).
  { rewrite delete_take_drop.
    rewrite <- (take_drop_middle squares (Z.to_nat randomIndex) square Hsq) in Hnd.
    apply NoDup_app in Hnd as (_ & Hd1 & Hd2). apply NoDup_cons in Hd2 as [Hd2 _].
    intros [Hx|Hx]%elem_of_app; [by apply (Hd1 square Hx); left|done]. }
  destruct (IH (i + 1) room2 (delete (Z.to_nat randomIndex) squares) g1)
    as (r & g' & sel & Hloop & Hsel & Hsub & Hlen & Hdz & Hframe & Hrem & Hdet & _);
    [done|lia|lia|done|by intros sq ?; apply Hin, Hrest|].
  assert (Hframe2 :
            board room2 = board room ∧ room_heap room2 = room_heap room ∧
            phase room2 = phase room ∧ woods room2 = woods room ∧
            shrinkTimer room2 = shrinkTimer room ∧
            shrinkInterval room2 = shrinkInterval room ∧
            room_id room2 = room_id room ∧ admin room2 = admin room ∧
            dangerZones room2 = {[square]} ∪ dangerZones room ∧
            pieces_only_removed room room2).
  { unfold room2. destruct (board room !! (square.1, square.2)) as [piece|].
    - pose proof (removePieceFromGame_fields room1 piece) as Hf.
      cbv zeta in Hf. destruct Hf as (? & ? & ? & ? & ? & ? & ? & ? & ?).
      repeat (split; [done|]).
      apply (removePieceFromGame_pieces room1 piece).
    - repeat (split; [done|]). intros k p'; eauto. }
  destruct Hframe2 as (Hb2 & Hh2 & Hp2 & Hw2 & Hst2 & Hsi2 & Hid2 & Had2 & Hdz2 & Hrem2).
  destruct Hframe as (Hb & Hh & Hp & Hw & Hst & Hsi & Hid & Had).
  exists r, g', (square :: sel). rewrite Hloop. split; [done|].
  split; [constructor; [by intros ?%Hsub|done]|].
  split; [intros x [->|?%Hsub]%elem_of_cons; [done|by apply Hrest]|].
  split.
  { cbn [length]. rewrite Hlen, length_delete by eauto.
    do 2 f_equal. lia. }
  split.
  { rewrite Hdz, Hdz2, list_to_set_cons.
    by rewrite !(assoc_L (∪)), (comm_L (∪) _ {[square]}). }
  split; [by rewrite Hb, Hh, Hp, Hw, Hst, Hsi, Hid, Had|].
  split; [by eapply pieces_only_removed_trans|].
  split; [|done].
  intros sq l [->|Hsel']%elem_of_cons Hl.
  - apply (detached_mono room2); [done|done|].
    unfold room2. destruct square as [sr sc]. cbn [fst snd] in *. rewrite Hl.
    apply removePieceFromGame_detached.
  - apply (Hdet sq l Hsel'). by rewrite Hb2.
Qed.
End shrink.



Lemma on_outer_ring_in_bounds sq : on_outer_ring sq → in_bounds sq.1 sq.2 = true.
Proof. intros [Hb _]. by apply in_bounds_true. Qed.



(** ** Invariants of the event loop *)

Section players_map.
Context (P : list loc → bool → Prop).

Lemma players_all_get m k p :
  players_all P m → players_get k m = Some p →
  P (player_pieces p) (player_alive p).
Proof.
  induction 1 as [|[k' p'] m Hp _ IH]; simpl; [done|].
  case_decide; [by intros [= <-]|done].
Qed.

Lemma players_all_set m k p :
  players_all P m → P (player_pieces p) (player_alive p) →
  players_all P (players_set k p m).
Proof.
  intros Hall Hp. induction Hall as [|[k' p'] m Hp' Hall IH]; simpl.
  - by repeat constructor.
  - case_decide; by constructor.
Qed.

Lemma players_all_delete m k :
  players_all P m → players_all P (players_delete k m).
Proof.
  induction 1 as [|[k' p'] m Hp' Hall IH]; simpl; [constructor|].
  case_decide; [done|by constructor].
Qed.

Lemma players_all_removePieceFromGame room l :
  removal_closed P →
  players_all P (players room) →
  players_all P (players (removePieceFromGame room l)).
Proof.
  intros Hclosed Hall. unfold removePieceFromGame. cbv zeta.
  destruct (players_get _ (players room)) as [p|] eqn:Hp; [|done].
  cbn [players set_players]. apply players_all_set; [done|].
  pose proof (players_all_get _ _ _ Hall Hp) as HP.
  set (ls' := filter _ (player_pieces p)).
  assert (ls' ⊆ player_pieces p) as Hsub.
  { intros x Hx. by apply list_elem_of_filter in Hx as [_ ?]. }
  pose proof (Hclosed _ _ ls' Hsub HP) as HP'.
  by destruct (bool_decide (length ls' = 0%nat)).
Qed.
End players_map.

Lemma players_set_keys k p m :
  (players_set k p m).*1 = if decide (k ∈ m.*1) then m.*1 else m.*1 ++ [k].
Proof.
  induction m as [|[k0 p0] m IH].
  - rewrite decide_False; [done|]. by intros ?%elem_of_nil.
  - cbn [players_set]. destruct (decide (k0 = k)) as [->|Hne];
      rewrite !fmap_cons; cbn [fst].
    + rewrite decide_True; [done|by left].
    + rewrite IH.
      destruct (decide (k ∈ m.*1)) as [Hin|Hnin].
      * rewrite decide_True; [done|by right].
      * rewrite decide_False; [done|].
        by intros [->|?]%elem_of_cons.
Qed.

Lemma keys_distinct_set m k p : keys_distinct m → keys_distinct (players_set k p m).
Proof.
  unfold keys_distinct. rewrite players_set_keys. intros Hnd.
  case_decide as Hin; [done|]. apply NoDup_app. split; [done|]. split.
  - by intros x Hx ->%list_elem_of_singleton.
  - apply NoDup_singleton.
Qed.

Lemma players_delete_sublist k m : players_delete k m `sublist_of` m.
Proof.
  induction m as [|[k0 p0] m IH]; simpl; [done|].
  case_decide; [by apply sublist_cons|by apply sublist_skip].
Qed.

Lemma keys_distinct_delete m k : keys_distinct m → keys_distinct (players_delete k m).
Proof.
  unfold keys_distinct. intros Hnd. eapply sublist_NoDup; [done|].
  apply fmap_sublist, players_delete_sublist.
Qed.

(** *** What each handler does to the room *)

Lemma executeMove_inv now room piece toRow toCol r effs :
  executeMove now room piece toRow toCol = Some (r, effs) →
  in_bounds (origin room piece).1 (origin room piece).2 = true ∧
  in_bounds toRow toCol = true ∧
  board r = <[(toRow, toCol) := piece]> (delete (origin room piece) (board room)) ∧
  players r =
    players (match delete (origin room piece) (board room) !! (toRow, toCol) with
             | Some cp => removePieceFromGame room cp
             | None => room
             end) ∧
  room_heap r = moved_heap now (room_heap room) piece toRow toCol ∧
  effs = (if bool_decide (piece_type (room_heap room !!! piece) ≠ king)
          then [SetTimeout (cooldown_timeout piece) 5000] else []) ∧
  phase r = phase room ∧ woods r = woods room ∧
  dangerZones r = dangerZones room ∧ shrinkTimer r = shrinkTimer room ∧
  shrinkInterval r = shrinkInterval room ∧ room_id r = room_id room ∧
  admin r = admin room.
Proof.
  intros Hex.
  assert (in_bounds (origin room piece).1 (origin room piece).2 = true) as Ho.
  { unfold origin. cbn [fst snd].
    destruct (in_bounds (piece_row (room_heap room !!! piece))
                        (piece_col (room_heap room !!! piece))) eqn:E; [done|].
    unfold executeMove, board_set in Hex. by rewrite E in Hex. }
  assert (in_bounds toRow toCol = true) as Hd.
  { unfold executeMove in Hex. unfold origin in Ho. cbn [fst snd] in Ho.
    rewrite (board_set_in _ _ _ None Ho) in Hex. cbn [mbind option_bind] in Hex.
    destruct (in_bounds toRow toCol) eqn:E; [done|].
    unfold board_get in Hex. cbn [board set_board] in Hex. by rewrite E in Hex. }
  destruct (executeMove_spec now room piece toRow toCol Ho Hd)
    as (r' & effs' & Hex' & Hspec).
  rewrite Hex in Hex'. injection Hex' as <- <-. by repeat (split; [done|]).
Qed.

Lemma on_move_piece_inv now room socket data r effs :
  on_move_piece now room socket data = Some (r, effs) →
  (r = room ∧
   (effs = [] ∨
    effs = [Emit (to_socket (socket_id socket)) (invalid_move "Invalid move")])) ∨
  (∃ piece r0 effs0 moved,
     validated_move room socket data piece ∧
     executeMove now room piece (move_toRow data) (move_toCol data)
       = Some (r0, effs0) ∧
     r = (checkGameEnd r0).1 ∧
     effs = effs0 ++ [Emit (to_room (room_id r0)) moved] ++ (checkGameEnd r0).2).
Proof.
  unfold on_move_piece.
  destruct (socket_room room socket) eqn:Hroom; cbn [negb];
    [|intros [= <- <-]; left; eauto].
  case_bool_decide as Hphase; [intros [= <- <-]; left; eauto|].
  unfold socket_player.
  destruct (socket_playerId socket) as [playerId|] eqn:Hid;
    [|intros [= <- <-]; left; eauto].
  destruct (players_get playerId (players room)) as [player|] eqn:Hget;
    [|intros [= <- <-]; left; eauto].
  destruct (player_alive player) eqn:Halive; cbn [negb];
    [|intros [= <- <-]; left; eauto].
  destruct (findPiece room (move_pieceId data)) as [piece|] eqn:Hfind;
    [|intros [= <- <-]; left; eauto].
  case_bool_decide as Hown; [intros [= <- <-]; left; eauto|].
  destruct (isValidMove room piece _ _) as [[|]|] eqn:Hvalid;
    cbn [mbind option_bind negb]; [|intros [= <- <-]; left; eauto|done].
  destruct (executeMove now room piece _ _) as [[r0 effs0]|] eqn:Hex;
    cbn [mbind option_bind]; [|done].
  destruct (checkGameEnd r0) as [r1 effs1] eqn:Hend. intros [= <- <-].
  right. exists piece, r0, effs0. eexists. split.
  { split; [done|]. split; [done|]. exists player, playerId. by repeat split. }
  rewrite Hend. by repeat split.
Qed.

Lemma players_set_keys_present k p p' m :
  players_get k m = Some p' → (players_set k p m).*1 = m.*1.
Proof.
  intros Hget. rewrite players_set_keys, decide_True; [done|].
  induction m as [|[k0 p0] m IH]; simpl in *; [done|].
  case_decide; [subst; by left|right; by apply IH].
Qed.

Lemma removePieceFromGame_keys room l :
  (players (removePieceFromGame room l)).*1 = (players room).*1.
Proof.
  unfold removePieceFromGame. cbv zeta.
  destruct (players_get _ (players room)) as [p|] eqn:Hp; [|done].
  cbn [players set_players]. by eapply players_set_keys_present.
Qed.

Lemma checkGameEnd_spec room :
  let r := (checkGameEnd room).1 in
  (phase r = phase room ∨ phase r = ended) ∧
  players r = players room ∧ room_heap r = room_heap room ∧
  board r = board room ∧ dangerZones r = dangerZones room ∧
  cooldown_effects (checkGameEnd room).2 = [].
Proof.
  unfold checkGameEnd. cbv zeta. case_bool_decide; cbn [fst snd].
  - split; [by right|]. repeat (split; [done|]).
    cbn [shrinkInterval set_phase]. by destruct (shrinkInterval room).
  - split; [by left|]. by repeat (split; [done|]).
Qed.

Lemma shrink_loop_frame fuel i room squares g r g' :
  shrink_loop fuel i room squares g = Some (r, g') →
  room_heap r = room_heap room ∧ phase r = phase room ∧
  board r = board room ∧
  (players r).*1 = (players room).*1 ∧
  (∀ P, removal_closed P →
        players_all P (players room) → players_all P (players r)).
Proof.
  revert i room squares g. induction fuel as [|fuel IH];
    intros i room squares g; cbn [shrink_loop]; [done|].
  case_match; [|by intros [= <- <-]].
  destruct (floor_random _ g) as [randomIndex g1].
  destruct (splice1 randomIndex squares) as [[square|] rest]; [|done].
  destruct (board_get _ _ _) as [occupant|]; cbn [mbind option_bind]; [|done].
  intros Hloop. apply IH in Hloop as (Hh & Hp & Hb & Hk & Hall).
  destruct occupant as [piece|].
  - pose proof (removePieceFromGame_fields
                  (set_dangerZones ({[square]} ∪ dangerZones room) room) piece) as Hf.
    cbv zeta in Hf. destruct Hf as (Hb' & Hh' & Hp' & _).
    rewrite Hh, Hp, Hb, Hk, Hh', Hp', Hb', removePieceFromGame_keys.
    repeat (split; [done|]). intros P HP HPall. apply Hall; [done|].
    by apply players_all_removePieceFromGame.
  - by rewrite Hh, Hp, Hb, Hk.
Qed.

Lemma shrink_tick_spec room g r effs :
  shrink_tick room g = Some (r, effs) →
  room_heap r = room_heap room ∧ phase r = phase room ∧
  board r = board room ∧
  (players r).*1 = (players room).*1 ∧
  (phase room ≠ playing → r = room) ∧
  (∀ P, removal_closed P →
        players_all P (players room) → players_all P (players r)) ∧
  cooldown_effects effs = [].
Proof.
  unfold shrink_tick. case_bool_decide as Hphase.
  { intros [= <- <-]. repeat (split; [done|]). by destruct (shrinkInterval room). }
  cbn [shrinkTimer set_shrinkTimer].
  destruct (shrinkTimer room - 1 <=? 0).
  - unfold shrinkBoard.
    destruct (shrink_loop _ _ _ _ _) as [[r0 g']|] eqn:Hloop;
      cbn [mbind option_bind]; [|done].
    intros [= <- <-].
    apply shrink_loop_frame in Hloop as (Hh & Hp & Hb & Hk & Hall).
    cbn in *. by repeat (split; [done|]).
  - cbn [mbind option_bind]. intros [= <- <-]. by repeat (split; [done|]).
Qed.

Lemma cooldown_callback_spec room piece :
  let r := (cooldown_callback room piece).1 in
  players r = players room ∧ phase r = phase room ∧
  room_heap r = alter (set_canMove true) piece (room_heap room) ∧
  cooldown_effects (cooldown_callback room piece).2 = [].
Proof. done. Qed.

Lemma removePlayer_spec room playerId r :
  removePlayer room playerId = Some r →
  room_heap r = room_heap room ∧ phase r = phase room ∧
  (keys_distinct (players room) → keys_distinct (players r)) ∧
  (∀ P, players_all P (players room) → players_all P (players r)).
Proof.
  unfold removePlayer.
  destruct (players_get playerId (players room)) as [player|];
    [|by intros [= <-]].
  destruct (clear_cells _ _ _) as [b|]; cbn [mbind option_bind]; [|done].
  cbn [admin set_players set_board players].
  pose proof (keys_distinct_delete (players room) playerId) as Hk.
  assert (HP : ∀ P, players_all P (players room) →
                    players_all P (players_delete playerId (players room)))
    by (intros P; apply players_all_delete).
  destruct (_ && _).
  - destruct (players_delete playerId (players room)) as [|[k newAdmin] rest];
      [done|].
    intros [= <-]. cbn. repeat (split; [done|]).
    intros P Hall. specialize (HP P Hall). apply Forall_cons in HP as [? ?].
    by constructor.
  - intros [= <-]. by cbn.
Qed.

Lemma removal_callback_spec room playerId r effs :
  removal_callback room playerId = Some (r, effs) →
  room_heap r = room_heap room ∧ phase r = phase room ∧
  (keys_distinct (players room) → keys_distinct (players r)) ∧
  (∀ P, players_all P (players room) → players_all P (players r)) ∧
  cooldown_effects effs = [].
Proof.
  unfold removal_callback.
  destruct (players_get playerId (players room)) as [p|];
    [|by intros [= <- <-]].
  destruct (player_connected p); cbn [negb]; [by intros [= <- <-]|].
  destruct (removePlayer room playerId) as [r0|] eqn:Hrm;
    cbn [mbind option_bind]; [|done].
  intros [= <- <-]. apply removePlayer_spec in Hrm as (? & ? & ? & ?).
  by repeat (split; [done|]).
Qed.

Lemma reconnect_player_spec sessionId socketId m q m' :
  reconnect_player sessionId socketId m = Some (q, m') →
  m'.*1 = m.*1 ∧ (∀ P, players_all P m → players_all P m').
Proof.
  revert q m'. induction m as [|[k p] m IH]; intros q m'; cbn [reconnect_player];
    [done|].
  case_bool_decide.
  - intros [= <- <-]. split; [done|]. intros P [? ?]%Forall_cons. by constructor.
  - destruct (reconnect_player sessionId socketId m) as [[q0 m0]|];
      cbn [mbind option_bind]; [|done].
    intros [= <- <-]. destruct (IH _ _ eq_refl) as [Hk HP].
    split; [by rewrite !fmap_cons, Hk|].
    intros P [? ?]%Forall_cons. constructor; [done|by apply HP].
Qed.

Lemma on_join_room_spec now g room socket data r socket' effs :
  on_join_room now g (Some room) socket data = (Some r, socket', effs) →
  room_heap r = room_heap room ∧ phase r = phase room ∧
  (keys_distinct (players room) → keys_distinct (players r)) ∧
  (∀ P, (phase room = lobby → P [] true) →
        players_all P (players room) → players_all P (players r)) ∧
  cooldown_effects effs = [].
Proof.
  unfold on_join_room. cbv zeta.
  destruct (_ && _); [by intros [= <- <- <-]|].
  destruct (reconnect_player _ _ (players room)) as [[existingPlayer m]|] eqn:Hre.
  { intros [= <- <- <-]. apply reconnect_player_spec in Hre as [Hk HP].
    cbn. unfold keys_distinct. rewrite Hk. repeat (split; [done|]).
    split; [|done]. intros P _. apply HP. }
  destruct (_ >=? _); [by intros [= <- <- <-]|].
  case_bool_decide as Hphase; [by intros [= <- <- <-]|].
  destruct (random g) as [q g']. intros [= <- <- <-].
  set (player := mkPlayer _ _ _ _ _ _ _ _ _ _ _).
  assert (Hfields : ∀ room0 : Room,
            (if player_isAdmin player
             then set_admin (Some (player_id player)) room0 else room0)
            = set_admin (if player_isAdmin player then Some (player_id player)
                         else admin room0) room0).
  { intros room0. destruct (player_isAdmin player); [done|by destruct room0]. }
  cbn [player_id player] in Hfields. rewrite Hfields. cbn.
  split; [done|]. split; [done|]. split; [apply keys_distinct_set|].
  split; [|done]. intros P HP Hall. apply players_all_set; [done|].
  by apply HP.
Qed.

Lemma on_disconnect_spec now room socket r effs :
  on_disconnect now room socket = (r, effs) →
  room_heap r = room_heap room ∧ phase r = phase room ∧
  (keys_distinct (players room) → keys_distinct (players r)) ∧
  (∀ P, players_all P (players room) → players_all P (players r)) ∧
  cooldown_effects effs = [].
Proof.
  unfold on_disconnect.
  destruct (socket_playerId socket) as [playerId|]; [|by intros [= <- <-]].
  destruct (_ && _); [|by intros [= <- <-]].
  destruct (players_get playerId (players room)) as [player|] eqn:Hp;
    [|by intros [= <- <-]].
  intros [= <- <-]. cbn. split; [done|]. split; [done|].
  split; [apply keys_distinct_set|]. split; [|done].
  intros P Hall. apply players_all_set; [done|].
  by apply (players_all_get P _ _ _ Hall Hp).
Qed.

Lemma resetGame_spec room g :
  let r := (resetGame room g).1 in
  phase r = lobby ∧ room_heap r = room_heap room ∧
  (players r).*1 = (players room).*1 ∧
  players_all fresh (players r) ∧
  cooldown_effects (resetGame room g).2 = [].
Proof.
  unfold resetGame. cbv zeta. destruct (generateWoods g) as [w g']. cbn.
  split; [done|]. split; [done|]. split.
  { rewrite <- list_fmap_compose. apply list_fmap_ext. by intros i [k p] _. }
  split; [|by destruct (shrinkInterval room)].
  unfold players_all. apply Forall_fmap, Forall_true. by intros [k p].
Qed.

Lemma on_reset_game_spec g room socket r effs :
  on_reset_game g room socket = (r, effs) →
  cooldown_effects effs = [] ∧ room_heap r = room_heap room ∧
  (players r).*1 = (players room).*1 ∧
  (r = room ∨ (phase r = lobby ∧ players_all fresh (players r))).
Proof.
  unfold on_reset_game.
  destruct (socket_room room socket); cbn [negb]; [|intros [= <- <-]; auto].
  destruct (socket_player room socket) as [player|]; [|intros [= <- <-]; auto].
  destruct (player_isAdmin player); cbn [negb]; [|intros [= <- <-]; auto].
  pose proof (resetGame_spec room g) as Hr. cbv zeta in Hr.
  destruct (resetGame room g) as [r0 effs0]. cbn [fst snd] in Hr.
  destruct Hr as (Hp & Hh & Hk & Hf & He). intros [= <- <-].
  split; [unfold cooldown_effects in *; by rewrite omap_app, He|].
  split; [done|]. split; [done|]. by right.
Qed.

Lemma createPlayerPieces_length playerId startRow startCol g :
  length (createPlayerPieces playerId startRow startCol g).1 = 16%nat.
Proof.
  unfold createPlayerPieces. destruct (random g) as [q g']. cbn [fst].
  by rewrite length_imap.
Qed.

Lemma players_set_middle k v p done rest :
  k ∉ done.*1 →
  players_set k v (done ++ (k, p) :: rest) = done ++ (k, v) :: rest.
Proof.
  induction done as [|[k0 p0] done IH]; intros Hnotin; simpl.
  - by rewrite decide_True.
  - rewrite fmap_cons in Hnotin. apply not_elem_of_cons in Hnotin as [Hne Hnotin].
    rewrite decide_False by done. by rewrite IH.
Qed.

Lemma spawn_loop_spec entries done positions index room g :
  players room = done ++ entries →
  keys_distinct (players room) →
  (index + length entries ≤ length positions)%nat →
  let r := (spawn_loop entries positions index room g).1 in
  (∃ new, room_heap r = room_heap room ++ new) ∧
  phase r = phase room ∧
  ∃ entries', players r = done ++ entries' ∧
              entries'.*1 = entries.*1 ∧
              Forall2 (spawned room r) entries entries'.
Proof.
  revert done index room g.
  induction entries as [|[k p] rest IH]; intros done index room g Hpl Hnd Hlen;
    cbn [spawn_loop].
  { cbn [fst]. split; [exists []; by rewrite app_nil_r|]. split; [done|].
    exists []. by rewrite Hpl. }
  destruct (lookup_lt_is_Some_2 positions index) as [spawn Hspawn];
    [cbn [length] in Hlen; lia|].
  rewrite Hspawn.
  pose proof (createPlayerPieces_length k spawn.1 spawn.2 g) as Hpcs.
  destruct (createPlayerPieces k spawn.1 spawn.2 g) as [pcs g1].
  cbn [fst] in Hpcs. rewrite Hpcs.
  set (ls := seq (length (room_heap room)) 16).
  set (room1 := set_board _ _).
  assert (Hk : k ∉ done.*1).
  { unfold keys_distinct in Hnd. rewrite Hpl, fmap_app, fmap_cons in Hnd.
    apply NoDup_app in Hnd as (_ & Hnd & _). intros Hin.
    apply (Hnd k Hin). by left. }
  assert (Hpl1 : players room1 = (done ++ [(k, set_pieces ls p)]) ++ rest).
  { cbn. rewrite Hpl, players_set_middle by done. by rewrite <- app_assoc. }
  assert (Hnd1 : keys_distinct (players room1)).
  { unfold keys_distinct in *. rewrite Hpl1, <- app_assoc. cbn [app].
    rewrite fmap_app, fmap_cons.
    by rewrite Hpl, fmap_app, fmap_cons in Hnd. }
  destruct (IH _ (S index) room1 g1 Hpl1 Hnd1) as ([new Hnew] & Hphase & entries' & Hr & Hkeys & Hall);
    [cbn [length] in Hlen; lia|].
  set (r := (spawn_loop rest positions (S index) room1 g1).1) in *.
  assert (Hh1 : room_heap room1 = room_heap room ++ pcs) by done.
  split; [exists (pcs ++ new); by rewrite Hnew, Hh1, <- app_assoc|].
  split; [done|].
  exists ((k, set_pieces ls p) :: entries'). split; [by rewrite Hr, <- app_assoc|].
  split; [by rewrite !fmap_cons, Hkeys|].
  constructor.
  - split; [done|]. split; [done|]. cbn [snd player_pieces set_pieces].
    unfold ls. apply Forall_forall. intros l Hl%elem_of_seq.
    rewrite Hnew, Hh1, !length_app, Hpcs. lia.
  - eapply Forall2_impl; [exact Hall|].
    intros kp kp' (? & ? & Hb). split; [done|]. split; [done|].
    eapply Forall_impl; [exact Hb|]. intros l. cbn beta.
    rewrite Hh1, length_app. lia.
Qed.

Lemma generateSpawnPositions_length (n : nat) g ps :
  unit_interval g →
  (generateSpawnPositions (Z.of_nat n) g).1 = Some ps → length ps = n.
Proof.
  intros Hg Hps. unfold generateSpawnPositions in Hps. rewrite Nat2Z.id in Hps.
  destruct (spawn_positions_loop_spec n [] g Hg) as (ps' & Hps' & Hlen & _).
  { by intros i p Hi. }
  simpl in Hlen. congruence.
Qed.

Lemma on_start_game_spec handle g room socket r effs :
  unit_interval g →
  on_start_game handle g room socket = Some (r, effs) →
  cooldown_effects effs = [] ∧
  (r = room ∨
   (phase room = lobby ∧ phase r = playing ∧
    (∃ new, room_heap r = room_heap room ++ new) ∧
    (keys_distinct (players room) →
     (players r).*1 = (players room).*1 ∧
     Forall2 (spawned room r) (players room) (players r)))).
Proof.
  intros Hg. unfold on_start_game.
  destruct (socket_room room socket); cbn [negb]; [|intros [= <- <-]; auto].
  destruct (socket_player room socket) as [player|]; [|intros [= <- <-]; auto].
  destruct (player_isAdmin player); cbn [negb]; [|intros [= <- <-]; auto].
  case_bool_decide as Hphase; [intros [= <- <-]; auto|].
  destruct (_ <? _); [intros [= <- <-]; auto|].
  unfold spawnPlayers. cbn [players set_phase].
  destruct (generateSpawnPositions _ g) as [[ps|] g1] eqn:Hps; [|done].
  assert (length ps = length (players room)) as Hlen.
  { eapply generateSpawnPositions_length; [done|].
    unfold players_size in Hps. by rewrite Hps. }
  set (room0 := set_phase playing room).
  destruct (spawn_loop (players room) ps 0 room0 g1) as [r0 g2] eqn:Hloop.
  intros [= <- <-]. split; [done|]. right.
  split; [done|].
  assert (r0 = (spawn_loop (players room) ps 0 room0 g1).1) as Hr0
    by (by rewrite Hloop).
  cbn [phase room_heap players set_shrinkInterval startShrinkTimer fst].
  assert (Hgen : keys_distinct (players room) →
            (∃ new, room_heap r0 = room_heap room ++ new) ∧
            phase r0 = playing ∧
            (players r0).*1 = (players room).*1 ∧
            Forall2 (spawned room r0) (players room) (players r0)).
  { intros Hnd.
    destruct (spawn_loop_spec (players room) [] ps 0 room0 g1)
      as (Hnew & Hph & entries' & Hpl & Hkeys & Hall); [done|done|lia|].
    rewrite <- Hr0 in *. by rewrite Hpl. }
  split.
  { (* the phase does not depend on the keys *)
    clear Hgen. rewrite Hr0.
    generalize (players room) at 1. generalize 0%nat. generalize g1.
    assert (phase room0 = playing) as Hp0 by done. revert Hp0.
    generalize room0. clear.
    intros room0 Hp0 g1 n entries. revert room0 Hp0 g1 n.
    induction entries as [|[k p] rest IH]; intros room0 Hp0 g1 n;
      cbn [spawn_loop]; [done|].
    destruct (ps !! n); [|done]. destruct (createPlayerPieces _ _ _ _).
    by apply IH. }
  split.
  { clear Hgen. rewrite Hr0.
    assert (∃ new, room_heap room0 = room_heap room ++ new) as Hh0
      by (exists []; by rewrite app_nil_r).
    revert Hh0. generalize (players room) at 1. generalize 0%nat. generalize g1.
    generalize room0. clear.
    intros room0 g1 n entries. revert room0 g1 n.
    induction entries as [|[k p] rest IH]; intros room0 g1 n Hh0;
      cbn [spawn_loop]; [done|].
    destruct (ps !! n); [|done]. destruct (createPlayerPieces _ _ _ _).
    apply IH. cbn. destruct Hh0 as [new ->]. eexists. by rewrite <- app_assoc. }
  intros Hnd. by destruct (Hgen Hnd) as (_ & _ & ? & ?).
Qed.

(** *** The event loop *)

Lemma run_effects_spec effs w :
  w_room (foldl run_effect w effs) = w_room w ∧
  w_now (foldl run_effect w effs) = w_now w ∧
  w_timeouts (foldl run_effect w effs) = w_timeouts w ++ scheduled (w_now w) effs.
Proof.
  revert w. induction effs as [|e effs IH]; intros w; cbn [foldl].
  - by rewrite app_nil_r.
  - destruct (IH (run_effect w e)) as (-> & -> & ->).
    destruct e; cbn; try done. by rewrite <- app_assoc.
Qed.

Lemma commit_spec w room effs :
  w_room (commit w room effs) = room ∧
  w_now (commit w room effs) = w_now w ∧
  w_timeouts (commit w room effs) = w_timeouts w ++ scheduled (w_now w) effs.
Proof. apply run_effects_spec. Qed.



(** ** Alive players are the players with pieces *)

Lemma alive_iff_pieces_removal_closed : removal_closed alive_iff_pieces.
Proof.
  intros ls a ls' Hsub [H1 H2]. case_bool_decide as Hlen.
  - split; [|done]. intros _. by apply nil_length_inv.
  - split; [|by intros ->].
    intros ->. destruct ls' as [|x ls']; [done|].
    specialize (H1 eq_refl). subst ls.
    assert (x ∈ ([] : list nat)) as Hx by (apply Hsub; by left).
    by apply elem_of_nil in Hx.
Qed.

Lemma match_invariant_same_phase room r :
  phase r = phase room →
  (keys_distinct (players room) → keys_distinct (players r)) →
  (∀ P, (phase room = lobby → P [] true) →
        (phase room ≠ lobby → removal_closed P) →
        players_all P (players room) → players_all P (players r)) →
  match_invariant room → match_invariant r.
Proof.
  intros Hphase Hk HP [Hnd Hinv]. split; [by apply Hk|].
  rewrite Hphase. case_decide as Hl.
  - by apply HP; [|done..].
  - apply HP; [done| |done]. intros _. apply alive_iff_pieces_removal_closed.
Qed.

Lemma match_invariant_players room r :
  players r = players room → phase r = phase room →
  match_invariant room → match_invariant r.
Proof. unfold match_invariant. by intros -> ->. Qed.

Lemma spawned_alive_iff room r :
  players_all fresh (players room) →
  Forall2 (spawned room r) (players room) (players r) →
  players_all alive_iff_pieces (players r).
Proof.
  unfold players_all. intros Hfresh Hall.
  induction Hall as [|kp kp' m m' (Ha & Hne & _) _ IH]; [constructor|].
  apply Forall_cons in Hfresh as [[Hal _] Hfresh]. constructor; [|by apply IH].
  unfold alive_iff_pieces. rewrite Ha, Hal. split; [done|]. by intros ?.
Qed.

Lemma executeMove_players_all P now room piece toRow toCol r effs :
  removal_closed P →
  executeMove now room piece toRow toCol = Some (r, effs) →
  players_all P (players room) → players_all P (players r).
Proof.
  intros HP Hex Hall.
  apply executeMove_inv in Hex as (_ & _ & _ & -> & _).
  destruct (delete _ _ !! _); [|done].
  by apply players_all_removePieceFromGame.
Qed.

Lemma executeMove_keys now room piece toRow toCol r effs :
  executeMove now room piece toRow toCol = Some (r, effs) →
  (players r).*1 = (players room).*1.
Proof.
  intros Hex. apply executeMove_inv in Hex as (_ & _ & _ & -> & _).
  destruct (delete _ _ !! _); [|done]. apply removePieceFromGame_keys.
Qed.

Lemma match_invariant_step w w' :
  step w w' → match_invariant (w_room w) → match_invariant (w_room w').
Proof.
  destruct 1 as [w t Ht
                |w g socket data room socket' effs Hg Hid Hjoin
                |w handle g socket room effs Hg Hfresh Hstart
                |w socket data room effs Hmove
                |w g socket room effs Hg Hreset
                |w socket room effs Hdis
                |w due cb before after room effs Hts Hdue Hcb
                |w handle g room effs Hin Hg Htick];
    rewrite ?(proj1 (commit_spec _ _ _)); cbn [w_room]; intros Hinv.
  - done.
  - apply on_join_room_spec in Hjoin as (_ & Hp & Hk & HP & _).
    apply (match_invariant_same_phase (w_room w)); [done|done| |done].
    intros P Hl _. by apply HP.
  - apply on_start_game_spec in Hstart as (_ & [->|(Hl & Hp & _ & Hspawn)]);
      [done| |done].
    destruct Hinv as [Hnd Hinv]. rewrite decide_True in Hinv by done.
    destruct (Hspawn Hnd) as [Hkeys Hall].
    split; [unfold keys_distinct; by rewrite Hkeys|].
    rewrite decide_False by (by rewrite Hp). by eapply spawned_alive_iff.
  - apply on_move_piece_inv in Hmove
      as [[-> _]|(piece & r0 & effs0 & moved & Hval & Hex & -> & _)]; [done|].
    destruct Hval as (_ & Hplaying & _).
    pose proof (checkGameEnd_spec r0) as Hend. cbv zeta in Hend.
    destruct Hend as (Hphase & Hpl & _).
    pose proof (executeMove_keys _ _ _ _ _ _ _ Hex) as Hkeys.
    pose proof (executeMove_players_all alive_iff_pieces _ _ _ _ _ _ _
                  alive_iff_pieces_removal_closed Hex) as Hall.
    apply executeMove_inv in Hex as (_ & _ & _ & _ & _ & _ & Hp0 & _).
    destruct Hinv as [Hnd Hinv].
    rewrite decide_False in Hinv by (by rewrite Hplaying).
    split; [unfold keys_distinct; by rewrite Hpl, Hkeys|].
    rewrite decide_False, Hpl; [by apply Hall|].
    destruct Hphase as [->| ->]; [by rewrite Hp0, Hplaying|done].
  - apply on_reset_game_spec in Hreset as (_ & _ & Hkeys & [->|[Hl Hf]]); [done|].
    destruct Hinv as [Hnd _].
    split; [unfold keys_distinct; by rewrite Hkeys|]. by rewrite decide_True.
  - apply on_disconnect_spec in Hdis as (_ & Hp & Hk & HP & _).
    apply (match_invariant_same_phase (w_room w)); [done|done| |done].
    intros P _ _. apply HP.
  - destruct cb as [piece|playerId]; cbn [run_callback] in Hcb.
    + injection Hcb as <- <-. by apply (match_invariant_players (w_room w)).
    + apply removal_callback_spec in Hcb as (_ & Hp & Hk & HP & _).
      apply (match_invariant_same_phase (w_room w)); [done|done| |done].
      intros P _ _. apply HP.
  - apply shrink_tick_spec in Htick as (_ & Hp & _ & Hkeys & Hsame & HP & _).
    destruct (decide (phase (w_room w) = playing)) as [Hpl|Hnpl];
      [|by rewrite (Hsame Hnpl)].
    apply (match_invariant_same_phase (w_room w)); [done| | |done].
    + unfold keys_distinct. by rewrite Hkeys.
    + intros P _ Hclosed. apply HP, Hclosed. by rewrite Hpl.
Qed.

Lemma match_invariant_reachable w : reachable w → match_invariant (w_room w).
Proof.
  intros (roomId & now & g & Hg & Hsteps).
  assert (match_invariant (w_room (initial_world roomId now g))) as Hinit.
  { unfold initial_world, createGameRoom. destruct (generateWoods g). cbn.
    split; [constructor|]. rewrite decide_True by done. constructor. }
  revert Hinit. induction Hsteps as [|w1 w2 w3 Hstep _ IH]; [done|].
  intros Hinv. by apply IH, (match_invariant_step w1).
Qed.

(** ** Cooldowns *)




Lemma moved_heap_length now h piece toRow toCol :
  length (moved_heap now h piece toRow toCol) = length h.
Proof. unfold moved_heap. case_bool_decide; by rewrite !length_alter. Qed.

Lemma moved_heap_other now h piece toRow toCol l :
  l ≠ piece → moved_heap now h piece toRow toCol !!! l = h !!! l.
Proof.
  intros Hne. unfold moved_heap.
  case_bool_decide; by rewrite !list_lookup_total_alter_ne.
Qed.












(** ** The cooldown lasts *)







Lemma on_move_piece_validated now room socket data piece :
  validated_move room socket data piece →
  on_move_piece now room socket data =
  executeMove now room piece (move_toRow data) (move_toCol data) ≫= λ x,
    Some ((checkGameEnd x.1).1,
          x.2 ++ [Emit (to_room (room_id x.1))
                       (piece_moved (move_pieceId data)
                          (move_fromRow data) (move_fromCol data)
                          (move_toRow data) (move_toCol data)
                          (piece_playerId (room_heap room !!! piece)))]
              ++ (checkGameEnd x.1).2).
Proof.
  intros (Hroom & Hphase & player & playerId & Hid & Hget & Halive & Hfind
          & Hown & Hvalid).
  unfold on_move_piece, socket_player. rewrite Hroom, Hphase, Hid, Hget.
  cbn [negb]. rewrite bool_decide_eq_false_2 by (by intros ?).
  rewrite Halive, Hfind. cbn [negb].
  rewrite bool_decide_eq_false_2 by (by intros ?).
  rewrite Hvalid. cbn [mbind option_bind negb].
  destruct (executeMove now room piece _ _) as [[r0 effs0]|];
    cbn [mbind option_bind fst snd]; [|done].
  rewrite Hown. by destruct (checkGameEnd r0).
Qed.

(** ** The demo match is a run of the event loop *)

Lemma reachable_step w w' : reachable w → step w w' → reachable w'.
Proof.
  intros (roomId & now & g & Hg & Hsteps) Hstep.
  exists roomId, now, g. split; [done|]. by eapply rtc_r.
Qed.

Lemma reachable_world0 : reachable Demo.world0.
Proof. exists "r", 0, (replay []). split; [unit_interval_replay|done]. Qed.

Lemma reachable_at_time t w :
  reachable w → w_now w ≤ t → reachable (Demo.at_time t w).
Proof. intros Hw Ht. apply (reachable_step w); [done|]. by constructor. Qed.

Lemma reachable_run_move w socket data :
  reachable w →
  reachable (Demo.run w (on_move_piece (w_now w) (w_room w) socket data)).
Proof.
  intros Hw. destruct (on_move_piece _ _ _ _) as [[room effs]|] eqn:Hmove; [|done].
  apply (reachable_step w); [done|]. by eapply step_move.
Qed.

Lemma reachable_move w s pieceId toRow toCol :
  reachable w → reachable (Demo.move w s pieceId toRow toCol).
Proof. apply reachable_run_move. Qed.

Lemma reachable_moves w s pieceId targets :
  reachable w →
  reachable (foldl (λ w t, Demo.move w s pieceId t.1 t.2) w targets).
Proof.
  revert w. induction targets as [|t targets IH]; intros w Hw; [done|].
  cbn [foldl]. by apply IH, reachable_move.
Qed.

Lemma reachable_join w socketId name session wantsAdmin :
  reachable w → room_id (w_room w) = "r" →
  reachable (Demo.join w socketId name session wantsAdmin).1.
Proof.
  intros Hw Hid. unfold Demo.join.
  destruct (on_join_room _ _ _ _ _) as [[[room|] s] effs] eqn:Hjoin; [|done].
  apply (reachable_step w); [done|].
  eapply step_join; [| |exact Hjoin]; [unit_interval_replay|by rewrite Hid].
Qed.

Lemma reachable_start w s g :
  reachable w → unit_interval g → 7%nat ∉ w_intervals w →
  reachable (Demo.start w s g).
Proof.
  intros Hw Hg Hfresh. unfold Demo.start.
  destruct (on_start_game _ _ _ _) as [[room effs]|] eqn:Hstart; [|done].
  apply (reachable_step w); [done|]. by eapply step_start.
Qed.

Lemma reachable_tick g w :
  reachable w → unit_interval g → w_intervals w ≠ [] →
  reachable (Demo.tick g w).
Proof.
  intros Hw Hg Hlive. unfold Demo.tick.
  destruct (shrink_tick _ _) as [[room effs]|] eqn:Htick; [|done].
  destruct (w_intervals w) as [|handle hs] eqn:Hint; [done|].
  apply (reachable_step w); [done|].
  eapply (step_interval _ handle); [|done|done]. rewrite Hint. by left.
Qed.

Lemma tick_playing g w :
  phase (w_room w) = playing →
  phase (w_room (Demo.tick g w)) = playing ∧
  w_intervals (Demo.tick g w) = w_intervals w.
Proof.
  intros Hphase. unfold Demo.tick.
  destruct (shrink_tick (w_room w) g) as [[room effs]|] eqn:Htick; [|done].
  pose proof (shrink_tick_spec _ _ _ _ Htick) as (_ & Hp & _).
  cbn [Demo.run]. rewrite (proj1 (commit_spec _ _ _)).
  split; [by rewrite Hp|].
  unfold shrink_tick in Htick. rewrite bool_decide_eq_false_2 in Htick
    by (by rewrite Hphase; intros ?).
  destruct (if _ <=? _ then _ else _) as [r|];
    cbn [mbind option_bind] in Htick; [|done].
  by simplify_eq.
Qed.

Lemma reachable_ticks n g w :
  reachable w → unit_interval g → w_intervals w ≠ [] →
  phase (w_room w) = playing →
  reachable (Demo.ticks n g w).
Proof.
  intros Hw Hg Hlive Hphase.
  assert (reachable (Demo.ticks n g w) ∧
          phase (w_room (Demo.ticks n g w)) = playing ∧
          w_intervals (Demo.ticks n g w) = w_intervals w) as (? & _);
    [|done].
  induction n as [|n (IH1 & IH2 & IH3)]; [done|]. cbn [Demo.ticks].
  destruct (tick_playing g _ IH2) as [Hp Hi].
  split; [apply reachable_tick; [done|done|congruence]|].
  split; [done|]. congruence.
Qed.

Lemma reachable_disconnect w s : reachable w → reachable (Demo.disconnect w s).
Proof.
  intros Hw. unfold Demo.disconnect.
  destruct (on_disconnect _ _ _) as [room effs] eqn:Hdis.
  apply (reachable_step w); [done|]. by eapply step_disconnect.
Qed.

Lemma reachable_fire i w : reachable w → reachable (Demo.fire i w).
Proof.
  intros Hw. unfold Demo.fire.
  destruct (w_timeouts w !! i) as [[due cb]|] eqn:Hi; [|done].
  destruct (due <=? w_now w) eqn:Hdue; [|done]. apply Z.leb_le in Hdue.
  destruct (run_callback (w_room w) cb) as [[room effs]|] eqn:Hcb; [|done].
  apply (reachable_step w); [done|].
  rewrite delete_take_drop.
  eapply (step_timeout _ due cb); [|done|done].
  by rewrite take_drop_middle.
Qed.

Lemma reachable_world_lobby : reachable Demo.world_lobby.
Proof.
  apply reachable_join; [|by vm_compute].
  apply reachable_at_time; [|by vm_compute].
  apply reachable_join; [|by vm_compute].
  apply reachable_at_time; [|by vm_compute].
  apply reachable_world0.
Qed.

Lemma reachable_world_started : reachable Demo.world_started.
Proof.
  apply reachable_start; [apply reachable_world_lobby|unit_interval_replay|].
  vm_compute. by intros ?%elem_of_nil.
Qed.

Lemma reachable_world_king_on_border : reachable Demo.world_king_on_border.
Proof.
  apply reachable_move, reachable_at_time; [|by vm_compute].
  apply reachable_world_started.
Qed.

Lemma reachable_world_after_shrink : reachable Demo.world_after_shrink.
Proof.
  apply reachable_ticks;
    [apply reachable_world_king_on_border|unit_interval_replay|by vm_compute..].
Qed.

Lemma reachable_world_bob_alone : reachable Demo.world_bob_alone.
Proof.
  apply reachable_moves, reachable_at_time; [|by vm_compute].
  apply reachable_world_started.
Qed.

Lemma reachable_world_bob_shrunk : reachable Demo.world_bob_shrunk.
Proof.
  apply reachable_ticks;
    [apply reachable_world_bob_alone|unit_interval_replay|by vm_compute..].
Qed.

Lemma reachable_world_bob_removed : reachable Demo.world_bob_removed.
Proof.
  apply reachable_fire, reachable_at_time; [|by vm_compute].
  apply reachable_disconnect, reachable_at_time; [|by vm_compute].
  apply reachable_world_started.
Qed.

(** ** The claims on cooldowns, liveness of players, duality and win detection *)



(** ** Alive players, duality and win detection *)





(** C2: the code runs win detection after a move only.  In the demo match
    where Bob is down to his king on the border cell (0, 100), a state of
    the event loop, the 60th tick of the shrink timer removes that king: Bob
    is dead and Alice is the only survivor.  [checkGameEnd] on that room
    would end the match, stop the scheduler and announce Alice; the tick
    does none of it: the phase is still [playing], the interval is live, and
    no [game_ended] was ever emitted.  The same happens when the removal
    timer deletes Bob from a two-player match. *)
Theorem shrink_and_removal_skip_win_detection :
  (reachable Demo.world_bob_shrunk ∧
   survivors Demo.bob_shrunk = ["Alice"] ∧
   phase Demo.bob_shrunk = playing ∧
   w_intervals Demo.world_bob_shrunk = [7%nat] ∧
   Forall (λ te, ∀ winner, te.2 ≠ game_ended winner)
          (w_outbox Demo.world_bob_shrunk) ∧
   phase (checkGameEnd Demo.bob_shrunk).1 = ended ∧
   (checkGameEnd Demo.bob_shrunk).2
   = [ClearInterval 7; Emit (to_room "r") (game_ended (Some "Alice"))]) ∧
  (reachable Demo.world_bob_removed ∧
   survivors Demo.bob_removed = ["Alice"] ∧
   phase Demo.bob_removed = playing ∧
   w_intervals Demo.world_bob_removed = [7%nat] ∧
   Forall (λ te, ∀ winner, te.2 ≠ game_ended winner)
          (w_outbox Demo.world_bob_removed)).
Proof.
  split.
  - split; [apply reachable_world_bob_shrunk|].
    do 3 (split; [by vm_compute|]).
    split; [|split; by vm_compute].
    apply Forall_forall. intros te Hin winner. revert Hin.
    assert (Forall (λ te : Target * Event,
                      match te.2 with game_ended _ => False | _ => True end)
                   (w_outbox Demo.world_bob_shrunk)) as Hall.
    { vm_compute. repeat constructor. }
    rewrite Forall_forall in Hall. intros Hin Heq. specialize (Hall te Hin).
    by rewrite Heq in Hall.
  - split; [apply reachable_world_bob_removed|].
    do 3 (split; [by vm_compute|]).
    apply Forall_forall. intros te Hin winner. revert Hin.
    assert (Forall (λ te : Target * Event,
                      match te.2 with game_ended _ => False | _ => True end)
                   (w_outbox Demo.world_bob_removed)) as Hall.
    { vm_compute. repeat constructor. }
    rewrite Forall_forall in Hall. intros Hin Heq. specialize (Hall te Hin).
    by rewrite Heq in Hall.
Qed.

Global Instance duality_dec room : Decision (duality room).
Proof. unfold duality. apply _. Defined.

(** C1: [removePieceFromGame] never clears a cell, and [shrinkBoard] does
    not either.  In the demo match Alice's king stands on the border cell
    (0, 5), a state of the event loop in which duality holds.  After the
    shrink event that claims (0, 5) the king is in no player's list, yet the
    cell (0, 5) still refers to it: duality is broken.  [removePlayer]
    clears the cells of the pieces it drops, and a capture overwrites the
    cell. *)
Theorem shrink_leaves_stale_cell :
  reachable Demo.world_king_on_border ∧
  duality Demo.king_on_border ∧
  reachable Demo.world_after_shrink ∧
  (0, 5) ∈ dangerZones Demo.after_shrink ∧
  board Demo.after_shrink !! (0, 5) = Some 0%nat ∧
  ((0%nat : loc) ∉ all_pieces Demo.after_shrink) ∧
  ¬ duality Demo.after_shrink ∧
  (∃ r g', shrinkBoard Demo.king_on_border (replay [7 # 1024; 0%Q]) = Some (r, g') ∧
           board r !! (0, 5) = Some 0%nat ∧ (0%nat : loc) ∉ all_pieces r).
Proof.
  split; [apply reachable_world_king_on_border|].
  split; [by apply (bool_decide_unpack _); vm_compute|].
  split; [apply reachable_world_after_shrink|].
  split; [by apply (bool_decide_unpack _); vm_compute|].
  split; [by vm_compute|].
  split; [by apply (bool_decide_unpack _); vm_compute|].
  split; [by apply (bool_decide_unpack _); vm_compute|].
  destruct (shrinkBoard Demo.king_on_border (replay [7 # 1024; 0%Q]))
    as [[r g']|] eqn:Hshrink; [|by vm_compute in Hshrink].
  exists r, g'. split; [done|].
  assert (fst <$> shrinkBoard Demo.king_on_border (replay [7 # 1024; 0%Q])
          = Some r) as Hr by (by rewrite Hshrink).
  clear Hshrink.
  assert ((fst <$> shrinkBoard Demo.king_on_border (replay [7 # 1024; 0%Q]))
            ≫= (λ r, board r !! (0, 5)) = Some 0%nat) as Hb by (by vm_compute).
  assert (from_option (λ r, bool_decide ((0%nat : loc) ∉ all_pieces r)) false
            (fst <$> shrinkBoard Demo.king_on_border (replay [7 # 1024; 0%Q]))
          = true) as Hn by (by vm_compute).
  rewrite Hr in Hb, Hn. cbn [mbind option_bind from_option] in Hb, Hn.
  split; [exact Hb|]. by apply bool_decide_eq_true in Hn.
Qed.

(** ** Terrain, the piece factory and piece lookup *)

Lemma woods_subdraw_grows centerRow centerCol w g :
  let w' := (woods_subdraw centerRow centerCol w g).1 in
  (on_board w → on_board w') ∧ (size w' ≤ S (size w))%nat.
Proof.
  rewrite woods_subdraw_eq. cbv zeta. cbn [fst].
  destruct (in_bounds _ _) eqn:Hin; [|split; [done|lia]].
  split.
  - intros Hw sq [->%elem_of_singleton|Hsq]%elem_of_union; [done|by apply Hw].
  - rewrite size_union_alt, size_singleton.
    match goal with
    | |- (1 + size ?D ≤ _)%nat =>
        assert (D ⊆ w) as Hsub by (by intros x [? _]%elem_of_difference);
        apply subseteq_size in Hsub
    end.
    lia.
Qed.

Lemma woods_subdraw_unit_interval centerRow centerCol w g :
  unit_interval g → unit_interval (woods_subdraw centerRow centerCol w g).2.
Proof.
  intros Hg. rewrite woods_subdraw_eq. cbv zeta. cbn [snd].
  by do 2 apply floor_random_unit_interval.
Qed.

Lemma woods_patch_grows n centerRow centerCol w g :
  let w' := (woods_patch n centerRow centerCol w g).1 in
  (on_board w → on_board w') ∧ (size w' ≤ size w + n)%nat ∧
  (unit_interval g → unit_interval (woods_patch n centerRow centerCol w g).2).
Proof.
  revert w g. induction n as [|n IH]; intros w g; cbn [woods_patch].
  { cbn. split; [done|]. split; [lia|done]. }
  pose proof (woods_subdraw_grows centerRow centerCol w g) as Hsub.
  pose proof (woods_subdraw_unit_interval centerRow centerCol w g) as Hu.
  destruct (woods_subdraw centerRow centerCol w g) as [w1 g1].
  cbv zeta in Hsub. cbn [fst snd] in Hsub, Hu. destruct Hsub as [Hb Hs].
  destruct (IH w1 g1) as (Hb' & Hs' & Hu'). cbv zeta.
  split; [auto|]. split; [lia|auto].
Qed.

Lemma woods_patches_grows n w g :
  let w' := (woods_patches n w g).1 in
  (on_board w → on_board w') ∧
  (unit_interval g → Z.of_nat (size w') ≤ Z.of_nat (size w) + 10 * Z.of_nat n).
Proof.
  revert w g. induction n as [|n IH]; intros w g; cbn [woods_patches].
  { cbn. split; [done|]. intros _. lia. }
  pose proof (floor_random_unit_interval BOARD_SIZE g) as Hu1.
  destruct (floor_random BOARD_SIZE g) as [centerRow g1]. cbn [snd] in Hu1.
  pose proof (floor_random_unit_interval BOARD_SIZE g1) as Hu2.
  destruct (floor_random BOARD_SIZE g1) as [centerCol g2]. cbn [snd] in Hu2.
  pose proof (floor_random_unit_interval 8 g2) as Hu3.
  pose proof (floor_random_range 8 g2) as Hr.
  destruct (floor_random 8 g2) as [s g3]. cbn [fst snd] in Hu3, Hr.
  pose proof (woods_patch_grows (Z.to_nat (s + 3)) centerRow centerCol w g3) as Hp.
  destruct (woods_patch (Z.to_nat (s + 3)) centerRow centerCol w g3) as [w1 g4].
  cbv zeta in Hp. cbn [fst snd] in Hp. destruct Hp as (Hb & Hs & Hu4).
  destruct (IH w1 g4) as (Hb' & Hs'). cbv zeta. split; [auto|].
  intros Hg. specialize (Hr ltac:(done) (Hu2 (Hu1 Hg))).
  specialize (Hs' (Hu4 (Hu3 (Hu2 (Hu1 Hg))))). lia.
Qed.

Lemma generateWoods_on_board g : on_board (generateWoods g).1.
Proof.
  unfold generateWoods.
  apply (woods_patches_grows (Z.to_nat numPatches) ∅ g).
  by intros sq ?%elem_of_empty.
Qed.

(** X1: whatever [Math.random] returns, [generateWoods] only ever puts cells
    of the board into the woods; and with draws in [[0,1)] the 2000 patches
    of at most 10 sub-draws each give at most 20000 wooded cells, half the
    board. *)
Theorem generateWoods_bounds (g : Rand) :
  on_board (generateWoods g).1 ∧
  (unit_interval g → Z.of_nat (size (generateWoods g).1) ≤ 20000).
Proof.
  unfold generateWoods.
  destruct (woods_patches_grows (Z.to_nat numPatches) ∅ g) as [Hb Hs].
  cbv zeta in Hb, Hs. split.
  - apply Hb. by intros sq ?%elem_of_empty.
  - intros Hg. specialize (Hs Hg). rewrite size_empty in Hs.
    assert (Z.of_nat (Z.to_nat numPatches) = 2000) as Hn by (by vm_compute).
    lia.
Qed.

Lemma generateWoods_bounds_witness :
  Z.of_nat (size (generateWoods (replay [1 # 2])).1) ≤ 20000.
Proof.
  apply (proj2 (generateWoods_bounds (replay [1 # 2]))).
  unit_interval_replay.
Defined.

(** *** The piece factory *)

Lemma createPlayerPieces_lookup playerId startRow startCol g i pc :
  (createPlayerPieces playerId startRow startCol g).1 !! i = Some pc →
  ∃ ty dr dc color,
    pieceTypes !! i = Some (ty, dr, dc) ∧
    pc = mkPiece (playerId +:+ "_" +:+ pretty i) ty color playerId
                 (clamp (startRow + dr)) (clamp (startCol + dc)) true 0.
Proof.
  unfold createPlayerPieces. destruct (random g) as [q g']. cbn [fst].
  rewrite list_lookup_imap_Some. intros ([[ty dr] dc] & Hi & ->).
  by exists ty, dr, dc, (if Qle_bool q (1 # 2) then black else white).
Qed.

Lemma clamp_in_bounds r c : in_bounds (clamp r) (clamp c) = true.
Proof. apply in_bounds_true. unfold clamp, BOARD_SIZE. lia. Qed.

Lemma createPlayerPieces_ids playerId startRow startCol g :
  NoDup (piece_id <$> (createPlayerPieces playerId startRow startCol g).1).
Proof.
  apply NoDup_alt. intros i j x Hi Hj.
  rewrite list_lookup_fmap in Hi, Hj.
  destruct (_ !! i) as [pi|] eqn:Hpi; [|done].
  destruct (_ !! j) as [pj|] eqn:Hpj; [|done].
  apply createPlayerPieces_lookup in Hpi as (? & ? & ? & ? & _ & ->).
  apply createPlayerPieces_lookup in Hpj as (? & ? & ? & ? & _ & ->).
  cbn in Hi, Hj. injection Hi as <-. injection Hj as Hj.
  apply (inj (String.append playerId)) in Hj.
  apply (inj (String.append "_")) in Hj.
  by apply (inj pretty) in Hj.
Qed.

(** X2: [createPlayerPieces] returns 16 pieces.  The piece at index [i] has
    the id [playerId_i], belongs to [playerId], can move, and stands on a
    cell of the board whatever the spawn point is; the king is the piece at
    index 0 and no other; the ids are pairwise distinct and all pieces have
    the same colour. *)
Theorem createPlayerPieces_spec (playerId : string) (startRow startCol : Z)
    (g : Rand) :
  let pcs := (createPlayerPieces playerId startRow startCol g).1 in
  length pcs = 16%nat ∧
  (∀ i pc, pcs !! i = Some pc →
     piece_id pc = playerId +:+ "_" +:+ pretty i ∧
     piece_playerId pc = playerId ∧
     piece_canMove pc = true ∧
     in_bounds (piece_row pc) (piece_col pc) = true ∧
     (piece_type pc = king ↔ i = 0%nat)) ∧
  NoDup (piece_id <$> pcs) ∧
  (∀ pc pc', pc ∈ pcs → pc' ∈ pcs → piece_color pc = piece_color pc').
Proof.
  cbv zeta. split; [apply createPlayerPieces_length|]. split; [|split].
  - intros i pc Hi.
    apply createPlayerPieces_lookup in Hi as (ty & dr & dc & color & Hty & ->).
    cbn. repeat (split; [done|]). split; [apply clamp_in_bounds|].
    do 16 (destruct i as [|i]; [simplify_eq/=; by split|]). done.
  - apply createPlayerPieces_ids.
  - unfold createPlayerPieces. destruct (random g) as [q g']. cbn [fst].
    intros pc pc' (i & [[ty dr] dc] & -> & _)%elem_of_lookup_imap
                  (j & [[ty' dr'] dc'] & -> & _)%elem_of_lookup_imap.
    done.
Qed.

Lemma createPlayerPieces_cells_eq playerId startRow startCol g :
  cell <$> (createPlayerPieces playerId startRow startCol g).1
  = (λ d : PieceType * Z * Z, (clamp (startRow + d.1.2), clamp (startCol + d.2)))
      <$> pieceTypes.
Proof.
  unfold createPlayerPieces. destruct (random g) as [q g']. cbn [fst].
  apply list_eq. intros i. rewrite !list_lookup_fmap, list_lookup_imap.
  by destruct (pieceTypes !! i) as [[[ty dr] dc]|].
Qed.

(** X3: for a spawn point on the board, the 16 pieces stand on 16 distinct
    cells exactly when the point is not on the last row, at least 3 columns
    from the left edge and at least 4 from the right edge.  Anywhere else
    the clamping of the coordinates puts two pieces on the same cell (a
    fallback spawn point can lie there; a point of the inset cannot). *)
Theorem createPlayerPieces_cells (playerId : string) (startRow startCol : Z)
    (g : Rand) :
  in_bounds startRow startCol = true →
  NoDup (cell <$> (createPlayerPieces playerId startRow startCol g).1)
  ↔ (startRow < BOARD_SIZE - 1 ∧ 3 ≤ startCol ≤ BOARD_SIZE - 5).
Proof.
  intros [Hr Hc]%in_bounds_true. rewrite createPlayerPieces_cells_eq.
  unfold BOARD_SIZE in *. split.
  - intros Hnd. pose proof (proj1 (NoDup_alt _) Hnd) as Hinj.
    assert (∀ i j x y, i ≠ j →
              ((λ d : PieceType * Z * Z,
                  (clamp (startRow + d.1.2), clamp (startCol + d.2)))
                 <$> pieceTypes) !! i = Some x →
              ((λ d : PieceType * Z * Z,
                  (clamp (startRow + d.1.2), clamp (startCol + d.2)))
                 <$> pieceTypes) !! j = Some y → x ≠ y) as Hne.
    { intros i j x y Hij Hi Hj ->. by apply Hij, (Hinj i j y). }
    pose proof (Hne 0%nat 11%nat _ _ ltac:(done) eq_refl eq_refl) as H1.
    pose proof (Hne 4%nat 6%nat _ _ ltac:(done) eq_refl eq_refl) as H2.
    pose proof (Hne 5%nat 7%nat _ _ ltac:(done) eq_refl eq_refl) as H3.
    cbn in H1, H2, H3. unfold clamp, BOARD_SIZE in *.
    assert (startRow ≠ 199) by (intros ->; by apply H1).
    assert (¬ startCol < 3).
    { intros ?. apply H2. f_equal. lia. }
    assert (¬ 195 < startCol).
    { intros ?. apply H3. f_equal. lia. }
    lia.
  - intros [Hrow Hcol].
    change ((λ d : PieceType * Z * Z,
               (clamp (startRow + d.1.2), clamp (startCol + d.2))) <$> pieceTypes)
      with ((λ o : Z * Z, (clamp (startRow + o.1), clamp (startCol + o.2)))
              <$> ((λ d : PieceType * Z * Z, (d.1.2, d.2)) <$> pieceTypes)).
    apply NoDup_fmap_2_strong.
    + assert (Forall (λ o : Z * Z, 0 ≤ o.1 ≤ 1 ∧ -3 ≤ o.2 ≤ 4)
                     ((λ d : PieceType * Z * Z, (d.1.2, d.2)) <$> pieceTypes))
        as Hoff by (repeat constructor; cbn; lia).
      rewrite Forall_forall in Hoff.
      intros [dr dc] [dr' dc'] Hd%Hoff Hd'%Hoff [= Hrows Hcols].
      cbn in Hd, Hd', Hrows, Hcols. unfold clamp, BOARD_SIZE in *.
      f_equal; lia.
    + apply (bool_decide_unpack (NoDup _)). by vm_compute.
Qed.

Lemma createPlayerPieces_cells_witness :
  NoDup (cell <$> (createPlayerPieces "p" 5 5 (replay [])).1)
  ↔ (5 < BOARD_SIZE - 1 ∧ 3 ≤ 5 ≤ BOARD_SIZE - 5).
Proof. apply (createPlayerPieces_cells "p" 5 5 (replay [])). reflexivity. Defined.

(** *** Piece lookup *)

(** X4: [findPiece] returns a piece that some player lists and whose id is
    the one asked for; it returns [null] only when no piece of any player
    has that id. *)
Theorem findPiece_spec (room : Room) (pieceId : string) :
  match findPiece room pieceId with
  | Some l => l ∈ all_pieces room ∧ piece_id (room_heap room !!! l) = pieceId
  | None => ∀ l, l ∈ all_pieces room → piece_id (room_heap room !!! l) ≠ pieceId
  end.
Proof.
  unfold findPiece, all_pieces.
  induction (players room) as [|[k p] m IH]; cbn [findPiece_loop].
  { by intros l ?%elem_of_nil. }
  rewrite bind_cons. cbn [snd].
  destruct (find _ (player_pieces p)) as [l|] eqn:Hfind.
  - apply find_some in Hfind as [Hin Hid%bool_decide_eq_true].
    split; [|done]. apply elem_of_app. left. by apply list_elem_of_In.
  - destruct (findPiece_loop (room_heap room) pieceId m) as [l|].
    + destruct IH as [Hin Hid]. split; [|done]. apply elem_of_app. by right.
    + intros l [Hl|Hl]%elem_of_app; [|by apply IH].
      apply list_elem_of_In in Hl.
      pose proof (find_none _ _ Hfind l Hl) as Hnone. cbn beta in Hnone.
      by apply bool_decide_eq_false in Hnone.
Qed.

(** ** The handlers, case by case *)

Lemma reconnect_player_None sessionId socketId m :
  reconnect_player sessionId socketId m = None ↔ unknown_session sessionId m.
Proof.
  unfold unknown_session. induction m as [|[k p] m IH]; cbn [reconnect_player].
  { split; [constructor|done]. }
  rewrite Forall_cons. cbn [snd]. case_bool_decide as Hs.
  - split; [done|]. by intros [? _].
  - destruct (reconnect_player sessionId socketId m) as [[q m']|];
      cbn [mbind option_bind].
    + split; [done|]. intros [_ Hm]. by apply IH in Hm.
    + split; [|done]. intros _. split; [done|]. by apply IH.
Qed.

Lemma reconnect_player_Some sessionId socketId m q m' :
  reconnect_player sessionId socketId m = Some (q, m') →
  ∃ before k after,
    m = before ++ (k, q) :: after ∧
    unknown_session sessionId before ∧
    player_sessionId q = sessionId ∧
    m' = before ++ (k, set_connected true (set_socketId socketId q)) :: after.
Proof.
  revert q m'. induction m as [|[k p] m IH]; intros q m'; cbn [reconnect_player];
    [done|].
  case_bool_decide as Hs.
  - intros [= <- <-]. exists [], k, m. by repeat split; [constructor|..].
  - destruct (reconnect_player sessionId socketId m) as [[q0 m0]|];
      cbn [mbind option_bind]; [|done].
    intros [= <- <-].
    destruct (IH _ _ eq_refl) as (before & k' & after & -> & Hb & Hq & ->).
    exists ((k, p) :: before), k', after. repeat split; [|done].
    by constructor.
Qed.

Lemma on_join_room_inv now g room socket data r socket' effs :
  on_join_room now g (Some room) socket data = (Some r, socket', effs) →
  (r = room ∧ socket' = socket ∧
   ∃ msg, effs = [Emit (to_socket (socket_id socket)) (join_error msg)]) ∨
  (∃ q m,
     reconnect_player (join_sessionId data) (socket_id socket) (players room)
       = Some (q, m) ∧
     r = set_lastActivity now (set_players m room) ∧
     socket' = mkSocket (socket_id socket) (Some (join_roomId data))
                        (socket_playerId socket) (Some (join_sessionId data)) ∧
     effs = [Emit (to_socket (socket_id socket)) (reconnected (player_id q));
             Emit (to_others (join_roomId data) (socket_id socket))
                  (player_reconnected (player_id q) (player_name q))]) ∨
  (unknown_session (join_sessionId data) (players room) ∧
   players_size (players room) < MAX_PLAYERS ∧
   phase room = lobby ∧
   r = joined now (new_player now g room socket data) room ∧
   socket' = mkSocket (socket_id socket) (Some (join_roomId data))
                      (Some (player_id (new_player now g room socket data)))
                      (Some (join_sessionId data)) ∧
   effs = [Emit (to_socket (socket_id socket))
                (joined_room (player_id (new_player now g room socket data)));
           Emit (to_others (join_roomId data) (socket_id socket))
                (player_joined (player_id (new_player now g room socket data))
                               (players_size (players r)))]).
Proof.
  unfold on_join_room. cbv zeta.
  destruct (_ && _); [intros [= <- <- <-]; left; eauto|].
  destruct (reconnect_player _ _ (players room)) as [[q m]|] eqn:Hre.
  { intros [= <- <- <-]. right. left. by exists q, m. }
  apply reconnect_player_None in Hre.
  destruct (_ >=? _) eqn:Hfull; [intros [= <- <- <-]; left; eauto|].
  case_bool_decide as Hphase; [intros [= <- <- <-]; left; eauto|].
  unfold joined, new_player. destruct (random g) as [q g']. cbn [fst].
  intros [= <- <- <-]. right. right.
  split; [done|]. split; [lia|]. split; [done|].
  cbn [player_id player_isAdmin]. split; [|done].
  by destruct (join_isAdmin data && bool_decide (admin room = None)).
Qed.

Lemma on_start_game_inv handle g room socket r effs :
  on_start_game handle g room socket = Some (r, effs) →
  (r = room ∧ ∀ e, e ∈ effs → ∃ msg, e = Emit (to_socket (socket_id socket))
                                            (error_event msg)) ∨
  (∃ player ps g1,
     socket_room room socket = true ∧
     socket_player room socket = Some player ∧
     player_isAdmin player = true ∧
     phase room = lobby ∧
     2 ≤ players_size (players room) ∧
     generateSpawnPositions (players_size (players room)) g = (Some ps, g1) ∧
     r = set_shrinkInterval (Some handle)
           (spawn_loop (players room) ps 0 (set_phase playing room) g1).1 ∧
     effs = [SetInterval handle 1000; Emit (to_room (room_id r)) game_started]).
Proof.
  unfold on_start_game.
  destruct (socket_room room socket) eqn:Hroom; cbn [negb];
    [|intros [= <- <-]; left; split; [done|by intros e ?%elem_of_nil]].
  assert (∀ msg e,
            e ∈ [Emit (to_socket (socket_id socket)) (error_event msg)] →
            ∃ msg, e = Emit (to_socket (socket_id socket)) (error_event msg))
    as Herr by (intros msg e ->%list_elem_of_singleton; eauto).
  destruct (socket_player room socket) as [player|] eqn:Hpl;
    [|intros [= <- <-]; left; eauto].
  destruct (player_isAdmin player) eqn:Hadm; cbn [negb];
    [|intros [= <- <-]; left; eauto].
  case_bool_decide as Hphase; [intros [= <- <-]; left; eauto|].
  destruct (_ <? _) eqn:Hsize; [intros [= <- <-]; left; eauto|].
  unfold spawnPlayers. cbn [players set_phase].
  destruct (generateSpawnPositions _ g) as [[ps|] g1] eqn:Hps; [|done].
  destruct (spawn_loop (players room) ps 0 (set_phase playing room) g1)
    as [r0 g2] eqn:Hloop.
  intros [= <- <-]. right. exists player, ps, g1.
  repeat (split; [done|]). split; [lia|]. split; [done|]. by rewrite Hloop.
Qed.

Lemma on_reset_game_inv g room socket r effs :
  on_reset_game g room socket = (r, effs) →
  (r = room ∧ effs = []) ∨
  (∃ player,
     socket_room room socket = true ∧
     socket_player room socket = Some player ∧
     player_isAdmin player = true ∧
     r = (resetGame room g).1 ∧
     effs = (resetGame room g).2 ++ [Emit (to_room (room_id r)) game_reset]).
Proof.
  unfold on_reset_game.
  destruct (socket_room room socket); cbn [negb]; [|intros [= <- <-]; auto].
  destruct (socket_player room socket) as [player|]; [|intros [= <- <-]; auto].
  destruct (player_isAdmin player) eqn:Hadm; cbn [negb]; [|intros [= <- <-]; auto].
  destruct (resetGame room g) as [r0 effs0]. intros [= <- <-]. right.
  by exists player.
Qed.

Lemma on_disconnect_inv now room socket r effs :
  on_disconnect now room socket = (r, effs) →
  (r = room ∧ effs = []) ∨
  (∃ playerId player,
     socket_playerId socket = Some playerId ∧
     players_get playerId (players room) = Some player ∧
     r = set_players
           (players_set playerId
              (set_disconnectedAt now (set_connected false player))
              (players room)) room ∧
     effs = [Emit (to_others (room_id room) (socket_id socket))
                  (player_disconnected playerId (player_name player));
             SetTimeout (removal_timeout playerId) (5 * 60 * 1000)]).
Proof.
  unfold on_disconnect.
  destruct (socket_playerId socket) as [playerId|]; [|intros [= <- <-]; auto].
  destruct (_ && _); [|intros [= <- <-]; auto].
  destruct (players_get playerId (players room)) as [player|] eqn:Hp;
    [|intros [= <- <-]; auto].
  intros [= <- <-]. right. by exists playerId, player.
Qed.

Lemma removePlayer_inv room playerId r :
  removePlayer room playerId = Some r →
  (players_get playerId (players room) = None ∧ r = room) ∨
  (∃ player b,
     players_get playerId (players room) = Some player ∧
     clear_cells (room_heap room) (board room) (player_pieces player) = Some b ∧
     r = set_admin (admin_after (admin room) playerId (players room))
           (set_players (without_player (admin room) playerId (players room))
              (set_board b room))).
Proof.
  unfold removePlayer, without_player, admin_after.
  destruct (players_get playerId (players room)) as [player|] eqn:Hp;
    [|intros [= <-]; by left].
  destruct (clear_cells _ _ _) as [b|] eqn:Hb; cbn [mbind option_bind]; [|done].
  cbn [admin set_players set_board players]. intros Hr. right.
  exists player, b. split; [done|]. split; [done|].
  unfold players_size in Hr.
  destruct (players_delete playerId (players room)) as [|[k newAdmin] rest] eqn:Hd.
  - rewrite andb_false_r in Hr. injection Hr as <-. by destruct room.
  - case_bool_decide as Hadm; cbn [andb] in Hr.
    + by injection Hr as <-.
    + injection Hr as <-. by destruct room.
Qed.

Lemma removal_callback_inv room playerId r effs :
  removal_callback room playerId = Some (r, effs) →
  (r = room ∧ effs = []) ∨
  (∃ p, players_get playerId (players room) = Some p ∧
        player_connected p = false ∧
        removePlayer room playerId = Some r ∧
        effs = [Emit (to_room (room_id r)) (player_removed playerId)]).
Proof.
  unfold removal_callback.
  destruct (players_get playerId (players room)) as [p|] eqn:Hp;
    [|intros [= <- <-]; by left].
  destruct (player_connected p) eqn:Hc; cbn [negb]; [intros [= <- <-]; by left|].
  destruct (removePlayer room playerId) as [r0|] eqn:Hrm;
    cbn [mbind option_bind]; [|done].
  intros [= <- <-]. right. by exists p.
Qed.

Lemma shrink_tick_inv room g r effs :
  shrink_tick room g = Some (r, effs) →
  (phase room ≠ playing ∧ r = room ∧
   effs = match shrinkInterval room with
          | Some h => [ClearInterval h]
          | None => []
          end) ∨
  (phase room = playing ∧
   effs = [Emit (to_room (room_id r))
                (timer_update (shrinkTimer r) (dangerZones r))] ∧
   ((1 < shrinkTimer room ∧ r = set_shrinkTimer (shrinkTimer room - 1) room) ∨
    (shrinkTimer room ≤ 1 ∧
     ∃ r0 g', shrinkBoard (set_shrinkTimer (shrinkTimer room - 1) room) g
              = Some (r0, g') ∧
              r = set_shrinkTimer 1 r0))).
Proof.
  unfold shrink_tick. case_bool_decide as Hphase.
  { intros [= <- <-]. by left. }
  assert (phase room = playing) as Hpl by (done).
  cbn [shrinkTimer set_shrinkTimer].
  destruct (shrinkTimer room - 1 <=? 0) eqn:Ht.
  - destruct (shrinkBoard _ g) as [[r0 g']|] eqn:Hshrink;
      cbn [mbind option_bind]; [|done].
    intros [= <- <-]. right. split; [done|]. split; [done|]. right.
    split; [lia|]. by exists r0, g'.
  - cbn [mbind option_bind]. intros [= <- <-]. right.
    split; [done|]. split; [done|]. left. split; [lia|done].
Qed.

(** *** Properties that [removePieceFromGame] keeps *)

(** Whatever holds of a room and keeps holding when a piece is removed and
    when a danger zone is added, holds after the loop of [shrinkBoard]. *)
Lemma shrink_loop_closed (Q : Room → Prop) fuel i room squares g r g' :
  (∀ room dz, Q room → Q (set_dangerZones dz room)) →
  (∀ room l, Q room → Q (removePieceFromGame room l)) →
  Q room → shrink_loop fuel i room squares g = Some (r, g') → Q r.
Proof.
  intros Hdz Hrm. revert i room squares g.
  induction fuel as [|fuel IH]; intros i room squares g HQ; cbn [shrink_loop];
    [done|].
  case_match; [|by intros [= <- <-]].
  destruct (floor_random _ g) as [randomIndex g1].
  destruct (splice1 randomIndex squares) as [[square|] rest]; [|done].
  destruct (board_get _ _ _) as [occupant|]; cbn [mbind option_bind]; [|done].
  apply IH. destruct occupant as [piece|]; [apply Hrm|]; by apply Hdz.
Qed.

Lemma set_alive_same p : set_alive (player_alive p) p = p.
Proof. by destruct p. Qed.

(** [removePieceFromGame] is an update of one entry of the map: the owner
    loses pieces and may be marked dead. *)
Lemma removePieceFromGame_inv room piece :
  removePieceFromGame room piece = room ∨
  ∃ k p ls a,
    players_get k (players room) = Some p ∧
    ls `sublist_of` player_pieces p ∧
    removePieceFromGame room piece
    = set_players (players_set k (set_alive a (set_pieces ls p)) (players room))
                  room.
Proof.
  unfold removePieceFromGame. cbv zeta.
  destruct (players_get _ (players room)) as [p|] eqn:Hp; [|by left].
  right.
  set (ls := filter (λ q, piece_id (room_heap room !!! q)
                          ≠ piece_id (room_heap room !!! piece))
                    (player_pieces p)).
  exists (piece_playerId (room_heap room !!! piece)), p, ls,
         (if bool_decide (length ls = 0%nat) then false else player_alive p).
  split; [exact Hp|]. split; [apply sublist_filter|].
  case_bool_decide; [done|].
  change (player_alive p) with (player_alive (set_pieces ls p)).
  by rewrite set_alive_same.
Qed.

(** ** Joining and reconnecting *)

(** X5: [join_room] turns a request down exactly when it asks for admin
    rights with a wrong password, or comes from an unknown session while the
    room is full or the match is not in the lobby.  The room and the socket
    are then left as they were and one [join_error] goes to the caller. *)
Theorem on_join_room_rejects (now : Z) (g : Rand) (room : Room)
    (socket : Socket) (data : JoinData) :
  rejected_join room data ↔
  ∃ msg, on_join_room now g (Some room) socket data
         = (Some room, socket,
            [Emit (to_socket (socket_id socket)) (join_error msg)]).
Proof.
  unfold rejected_join, on_join_room. cbv zeta.
  destruct (join_isAdmin data
            && bool_decide (join_adminPassword data ≠ ADMIN_PASSWORD)) eqn:Hpw.
  { split; [eauto|]. intros _. left.
    by apply andb_true_iff in Hpw as [? ?%bool_decide_eq_true]. }
  assert (¬ (join_isAdmin data = true
             ∧ join_adminPassword data ≠ ADMIN_PASSWORD)) as Hnpw.
  { intros [Ha Hp]. rewrite Ha in Hpw. cbn [andb] in Hpw.
    by apply bool_decide_eq_false in Hpw. }
  clear Hpw.
  pose proof (reconnect_player_None (join_sessionId data) (socket_id socket)
                (players room)) as Hiff.
  destruct (reconnect_player _ _ (players room)) as [[q m]|] eqn:Hre.
  { split; [|by intros [msg [=]]].
    intros [?|[Hu _]]; [done|]. by apply Hiff in Hu. }
  pose proof (proj1 Hiff eq_refl) as Hu.
  destruct (_ >=? _) eqn:Hfull.
  { split; [eauto|]. intros _. right. split; [done|]. left. lia. }
  case_bool_decide as Hphase.
  { split; [eauto|]. intros _. right. split; [done|]. by right. }
  destruct (random g) as [q g']. split; [|by intros [msg [=]]].
  intros [?|[_ [?|?]]]; [done|lia|done].
Qed.

(** X6: a request from the session of a player of the room, not turned down
    for its password, reconnects that player whatever the phase and however
    full the room: the first player with that session gets the new socket
    id and [connected = true] and keeps everything else (id, pieces,
    [alive], admin flag), the other players are untouched, and the socket
    gets [roomId] and [sessionId] but its [playerId] is left as it was. *)
Theorem on_join_room_reconnects (now : Z) (g : Rand) (room : Room)
    (socket : Socket) (data : JoinData) :
  ¬ (join_isAdmin data = true ∧ join_adminPassword data ≠ ADMIN_PASSWORD) →
  ¬ unknown_session (join_sessionId data) (players room) →
  ∃ before k p after,
    players room = before ++ (k, p) :: after ∧
    unknown_session (join_sessionId data) before ∧
    player_sessionId p = join_sessionId data ∧
    on_join_room now g (Some room) socket data
    = (Some (set_lastActivity now
               (set_players
                  (before ++ (k, set_connected true
                                   (set_socketId (socket_id socket) p)) :: after)
                  room)),
       mkSocket (socket_id socket) (Some (join_roomId data))
                (socket_playerId socket) (Some (join_sessionId data)),
       [Emit (to_socket (socket_id socket)) (reconnected (player_id p));
        Emit (to_others (join_roomId data) (socket_id socket))
             (player_reconnected (player_id p) (player_name p))]).
Proof.
  intros Hpw Hknown. unfold on_join_room. cbv zeta.
  assert ((join_isAdmin data
           && bool_decide (join_adminPassword data ≠ ADMIN_PASSWORD)) = false)
    as ->.
  { destruct (join_isAdmin data); [|done]. cbn [andb].
    apply bool_decide_eq_false. intros ?. by apply Hpw. }
  destruct (reconnect_player _ _ (players room)) as [[q m]|] eqn:Hre;
    [|by apply reconnect_player_None in Hre].
  apply reconnect_player_Some in Hre as (before & k & after & Hm & Hb & Hq & ->).
  by exists before, k, q, after.
Qed.

Lemma on_join_room_reconnects_witness :
  ∃ before k p after,
    players (w_room Demo.world_bob_disconnected) = before ++ (k, p) :: after ∧
    unknown_session "sessB" before ∧
    player_sessionId p = "sessB" ∧
    on_join_room 31 (replay []) (Some (w_room Demo.world_bob_disconnected))
      (mkSocket "sB2" None None None) (mkJoinData "r" "Bob" false "" "sessB")
    = (Some (set_lastActivity 31
               (set_players
                  (before ++ (k, set_connected true (set_socketId "sB2" p))
                          :: after)
                  (w_room Demo.world_bob_disconnected))),
       mkSocket "sB2" (Some "r") None (Some "sessB"),
       [Emit (to_socket "sB2") (reconnected (player_id p));
        Emit (to_others "r" "sB2")
             (player_reconnected (player_id p) (player_name p))]).
Proof.
  apply (on_join_room_reconnects 31 (replay [])
           (w_room Demo.world_bob_disconnected)
           (mkSocket "sB2" None None None)
           (mkJoinData "r" "Bob" false "" "sessB")).
  - intros [Hadm _]. by vm_compute in Hadm.
  - unfold unknown_session. intros Hu.
    apply Forall_Exists_neg in Hu. apply Hu.
    apply (bool_decide_unpack _). by vm_compute.
Defined.

Lemma unbound_socket_inert room socket :
  socket_playerId socket = None → inert room socket.
Proof.
  intros Hnone. repeat split.
  - intros now data. unfold on_move_piece, socket_player. rewrite Hnone.
    destruct (socket_room room socket); cbn [negb]; [|done].
    by case_bool_decide.
  - intros now. unfold on_disconnect. by rewrite Hnone.
  - intros g. unfold on_reset_game, socket_player. rewrite Hnone.
    by destruct (socket_room room socket).
  - intros handle g. unfold on_start_game, socket_player. rewrite Hnone.
    destruct (socket_room room socket); cbn [negb]; eauto.
Qed.

(** X7: the reconnect path of [join_room] never sets [socket.playerId].  A
    player who comes back on a new socket is therefore not bound to it: every
    [move_piece], [reset_game] and [disconnect] from that socket leaves the
    room as it is and emits nothing, and [start_game] can only answer with
    an error. *)
Theorem reconnected_socket_inert (now : Z) (g : Rand) (room : Room)
    (socket : Socket) (data : JoinData) (room' : Room) (socket' : Socket)
    (effs : list Effect) :
  socket_playerId socket = None →
  ¬ unknown_session (join_sessionId data) (players room) →
  on_join_room now g (Some room) socket data = (Some room', socket', effs) →
  socket_playerId socket' = None ∧ inert room' socket'.
Proof.
  intros Hnone Hknown Hjoin.
  assert (socket_playerId socket' = None) as Hnone'.
  { apply on_join_room_inv in Hjoin
      as [(_ & -> & _)|[(q & m & _ & _ & -> & _)|(Hu & _)]]; done. }
  split; [done|]. by apply unbound_socket_inert.
Qed.

Lemma reconnected_socket_inert_witness :
  ∃ room' socket' effs,
    on_join_room 31 (replay []) (Some (w_room Demo.world_bob_disconnected))
      (mkSocket "sB2" None None None) (mkJoinData "r" "Bob" false "" "sessB")
    = (Some room', socket', effs) ∧
    socket_playerId socket' = None ∧ inert room' socket'.
Proof.
  destruct (on_join_room 31 (replay [])
              (Some (w_room Demo.world_bob_disconnected))
              (mkSocket "sB2" None None None)
              (mkJoinData "r" "Bob" false "" "sessB"))
    as [[[room'|] socket'] effs] eqn:Hjoin; [|by vm_compute in Hjoin].
  exists room', socket', effs. split; [done|].
  apply (reconnected_socket_inert 31 (replay [])
           (w_room Demo.world_bob_disconnected)
           (mkSocket "sB2" None None None)
           (mkJoinData "r" "Bob" false "" "sessB") room' socket' effs).
  - done.
  - unfold unknown_session. intros Hu.
    apply Forall_Exists_neg in Hu. apply Hu.
    apply (bool_decide_unpack _). by vm_compute.
  - exact Hjoin.
Defined.

(** ** What a handler leaves alone *)

Lemma same_settings_refl room : same_settings room room.
Proof. by destruct room. Qed.

Lemma same_settings_trans r1 r2 r3 :
  same_settings r1 r2 → same_settings r2 r3 → same_settings r1 r3.
Proof. unfold same_settings. intros H12 H23. rewrite H23 at 1. by rewrite H12. Qed.

Lemma same_settings_fields room r :
  same_settings room r →
  room_id r = room_id room ∧ phase r = phase room ∧ woods r = woods room ∧
  dangerZones r = dangerZones room ∧ shrinkTimer r = shrinkTimer room ∧
  shrinkInterval r = shrinkInterval room ∧ turn r = turn room ∧
  cooldowns r = cooldowns room ∧ admin r = admin room ∧
  createdAt r = createdAt room ∧ lastActivity r = lastActivity room.
Proof. intros ->. by cbn. Qed.

Lemma same_settings_set_players m room : same_settings room (set_players m room).
Proof. by destruct room. Qed.

Lemma same_settings_set_board b room : same_settings room (set_board b room).
Proof. by destruct room. Qed.

Lemma same_settings_set_heap h room : same_settings room (set_heap h room).
Proof. by destruct room. Qed.

Lemma same_settings_removePieceFromGame room l :
  same_settings room (removePieceFromGame room l).
Proof.
  unfold removePieceFromGame. cbv zeta.
  destruct (players_get _ _); [apply same_settings_set_players|].
  apply same_settings_refl.
Qed.

Lemma same_settings_executeMove now room piece toRow toCol r effs :
  executeMove now room piece toRow toCol = Some (r, effs) → same_settings room r.
Proof.
  unfold executeMove.
  destruct (board_set _ _ _ None) as [b1|]; cbn [mbind option_bind]; [|done].
  destruct (board_get _ _ _) as [cp|]; cbn [mbind option_bind]; [|done].
  set (r1 := match cp with
             | Some cp0 => removePieceFromGame (set_board b1 room) cp0
             | None => set_board b1 room
             end).
  assert (same_settings room r1) as H1.
  { apply (same_settings_trans _ (set_board b1 room));
      [apply same_settings_set_board|].
    unfold r1. destruct cp; [apply same_settings_removePieceFromGame|].
    apply same_settings_refl. }
  destruct (board_set _ _ _ (Some piece)) as [b2|]; cbn [mbind option_bind];
    [|done].
  case_bool_decide; intros [= <- <-].
  - eapply same_settings_trans; [exact H1|].
    eapply same_settings_trans; [apply same_settings_set_heap|].
    eapply same_settings_trans; [apply same_settings_set_board|].
    apply same_settings_set_heap.
  - eapply same_settings_trans; [exact H1|].
    eapply same_settings_trans; [apply same_settings_set_heap|].
    apply same_settings_set_board.
Qed.

Lemma same_settings_spawn_loop entries positions index room g :
  same_settings room (spawn_loop entries positions index room g).1.
Proof.
  revert index room g. induction entries as [|[k p] rest IH];
    intros index room g; cbn [spawn_loop]; [apply same_settings_refl|].
  destruct (positions !! index) as [spawn|]; [|apply same_settings_refl].
  destruct (createPlayerPieces k spawn.1 spawn.2 g) as [pcs g1].
  eapply same_settings_trans; [|apply IH].
  eapply same_settings_trans; [apply same_settings_set_heap|].
  eapply same_settings_trans; [apply same_settings_set_players|].
  apply same_settings_set_board.
Qed.

Lemma run_effects_intervals effs w :
  w_intervals (foldl run_effect w effs)
  = foldl interval_effect (w_intervals w) effs.
Proof.
  revert w. induction effs as [|e effs IH]; intros w; cbn [foldl]; [done|].
  rewrite IH. by destruct e.
Qed.

Lemma commit_intervals w room effs :
  w_intervals (commit w room effs) = foldl interval_effect (w_intervals w) effs.
Proof. unfold commit. by rewrite run_effects_intervals. Qed.

(** The fields of the room that [shrinkBoard] leaves alone. *)
Lemma shrink_loop_settings fuel i room squares g r g' :
  shrink_loop fuel i room squares g = Some (r, g') →
  same_settings (set_dangerZones (dangerZones r) room) r ∧
  board r = board room ∧ room_heap r = room_heap room.
Proof.
  intros Hloop.
  apply (shrink_loop_closed
           (λ r, same_settings (set_dangerZones (dangerZones r) room) r ∧
                 board r = board room ∧ room_heap r = room_heap room)
           _ _ _ _ _ _ _) in Hloop; [done|..].
  - intros r0 dz (Hs & Hb & Hh). cbn. split; [|done].
    unfold same_settings in *. cbn. rewrite Hs at 1. cbn. by rewrite Hb, Hh.
  - intros r0 l (Hs & Hb & Hh).
    pose proof (removePieceFromGame_fields r0 l) as Hf. cbv zeta in Hf.
    destruct Hf as (Hb' & Hh' & _ & _ & Hdz & _).
    rewrite Hdz, Hb', Hh'. split; [|done].
    eapply same_settings_trans; [exact Hs|].
    apply same_settings_removePieceFromGame.
  - split; [|done]. by destruct room.
Qed.

(** ** The phases, the scheduler and the terrain over a run *)

Lemma quiet_intervals effs hs : quiet effs → foldl interval_effect hs effs = hs.
Proof.
  induction 1 as [|e effs He _ IH]; cbn [foldl]; [done|].
  by destruct e.
Qed.

Lemma same_settings_match room r : same_settings room r → same_match room r.
Proof.
  intros Hs. apply same_settings_fields in Hs.
  unfold same_match. by destruct_and!.
Qed.

Lemma same_match_refl room : same_match room room.
Proof. done. Qed.

Lemma same_match_trans r1 r2 r3 :
  same_match r1 r2 → same_match r2 r3 → same_match r1 r3.
Proof.
  unfold same_match. intros ? ?. destruct_and!. repeat split; congruence.
Qed.

Lemma checkGameEnd_inv r0 :
  ((length (alivePlayers r0) ≤ 1)%nat ∧
   checkGameEnd r0
   = (set_phase ended r0,
      match shrinkInterval r0 with
      | Some h => [ClearInterval h]
      | None => []
      end ++ [Emit (to_room (room_id r0))
                   (game_ended (player_name <$> head (alivePlayers r0)))])) ∨
  ((1 < length (alivePlayers r0))%nat ∧ checkGameEnd r0 = (r0, [])).
Proof.
  unfold checkGameEnd. cbv zeta. case_bool_decide; [left|right]; split;
    [done|done|lia|done].
Qed.

Lemma on_join_room_match now g room socket data r socket' effs :
  on_join_room now g (Some room) socket data = (Some r, socket', effs) →
  same_match room r ∧ board r = board room ∧ quiet effs.
Proof.
  intros Hjoin. apply on_join_room_inv in Hjoin
    as [(-> & _ & msg & ->)|[(q & m & _ & -> & _ & ->)|(_ & _ & _ & -> & _ & ->)]].
  - repeat split. by repeat constructor.
  - repeat split. by repeat constructor.
  - unfold joined. split; [|split; [|by repeat constructor]];
      by destruct (player_isAdmin _).
Qed.

Lemma on_disconnect_match now room socket r effs :
  on_disconnect now room socket = (r, effs) →
  same_match room r ∧ board r = board room ∧ quiet effs.
Proof.
  intros Hd. apply on_disconnect_inv in Hd
    as [[-> ->]|(pid & p & _ & _ & -> & ->)]; repeat split;
    by repeat constructor.
Qed.

Lemma clear_cells_empty h ls b : clear_cells h ∅ ls = Some b → b = ∅.
Proof.
  revert b. induction ls as [|l ls IH]; intros b; cbn [clear_cells].
  { by intros [= <-]. }
  unfold board_set. destruct (in_bounds _ _); cbn [mbind option_bind]; [|done].
  rewrite delete_empty. apply IH.
Qed.

Lemma removePlayer_match room playerId r :
  removePlayer room playerId = Some r →
  same_match room r ∧ (board room = ∅ → board r = ∅).
Proof.
  intros Hrm. apply removePlayer_inv in Hrm
    as [[_ ->]|(p & b & _ & Hb & ->)]; [done|].
  split; [done|]. cbn. intros Hempty. rewrite Hempty in Hb.
  by apply clear_cells_empty in Hb.
Qed.

Lemma run_callback_match room cb r effs :
  run_callback room cb = Some (r, effs) →
  same_match room r ∧ (board room = ∅ → board r = ∅) ∧ quiet effs.
Proof.
  destruct cb as [piece|playerId]; cbn [run_callback].
  - intros [= <- <-]. split; [done|]. split; [done|]. by repeat constructor.
  - intros Hcb. apply removal_callback_inv in Hcb
      as [[-> ->]|(p & _ & _ & Hrm & ->)];
      [split; [done|]; split; [done|constructor]|].
    apply removePlayer_match in Hrm as [? ?].
    split; [done|]. split; [done|]. by repeat constructor.
Qed.

Lemma resetGame_terrain room g :
  let r := (resetGame room g).1 in
  phase r = lobby ∧ shrinkInterval r = shrinkInterval room ∧
  on_board (woods r) ∧ dangerZones r = ∅ ∧ board r = ∅ ∧ shrinkTimer r = 60 ∧
  turn r = 0 ∧ cooldowns r = ∅ ∧
  (resetGame room g).2 = match shrinkInterval room with
                         | Some h => [ClearInterval h]
                         | None => []
                         end.
Proof.
  unfold resetGame. cbv zeta.
  pose proof (generateWoods_on_board g) as Hw.
  destruct (generateWoods g) as [w g']. by cbn.
Qed.

Lemma on_start_game_started handle g room socket r effs :
  on_start_game handle g room socket = Some (r, effs) →
  (r = room ∧ quiet effs) ∨
  (phase room = lobby ∧ 2 ≤ players_size (players room) ∧
   same_match (set_shrinkInterval (Some handle) (set_phase playing room)) r ∧
   effs = [SetInterval handle 1000; Emit (to_room (room_id r)) game_started]).
Proof.
  intros Hstart. apply on_start_game_inv in Hstart
    as [[-> Herr]|(player & ps & g1 & _ & _ & _ & Hl & Hn & _ & -> & ->)].
  - left. split; [done|]. apply Forall_forall. intros e He.
    by destruct (Herr e He) as [msg ->].
  - right. repeat (split; [done|]). split; [|done].
    pose proof (same_settings_spawn_loop (players room) ps 0
                  (set_phase playing room) g1) as Hs.
    apply same_settings_match in Hs. unfold same_match in *. by destruct_and!.
Qed.

Lemma on_move_piece_match now room socket data r effs :
  on_move_piece now room socket data = Some (r, effs) →
  (r = room ∧ quiet effs) ∨
  (phase room = playing ∧
   ∃ r0 effs0 moved,
     same_settings room r0 ∧ quiet effs0 ∧
     r = (checkGameEnd r0).1 ∧
     effs = effs0 ++ [Emit (to_room (room_id r0)) moved] ++ (checkGameEnd r0).2).
Proof.
  intros Hmove. apply on_move_piece_inv in Hmove
    as [[-> He]|(piece & r0 & effs0 & moved & Hval & Hex & -> & ->)].
  - left. split; [done|]. destruct He as [-> | ->]; by repeat constructor.
  - right. split; [by destruct Hval as (_ & ? & _)|].
    exists r0, effs0, moved.
    split; [by eapply same_settings_executeMove|]. split; [|done].
    apply executeMove_inv in Hex as (_ & _ & _ & _ & _ & -> & _).
    case_bool_decide; by repeat constructor.
Qed.

Lemma shrinkBoard_ring room g r g' :
  unit_interval g →
  shrinkBoard room g = Some (r, g') →
  same_settings (set_dangerZones (dangerZones r) room) r ∧
  board r = board room ∧
  (∀ sq, sq ∈ dangerZones r → sq ∈ dangerZones room ∨ on_outer_ring sq).
Proof.
  intros Hg Hshrink. unfold shrinkBoard in Hshrink.
  destruct (shrink_loop_settings _ _ _ _ _ _ _ Hshrink) as (Hs & Hb & _).
  split; [done|]. split; [done|].
  destruct (shrink_loop_spec 3 0 room (borderSquares (dangerZones room)) g)
    as (r1 & g1 & sel & Hloop & _ & Hsub & _ & Hdz & _);
    [done|lia|lia|apply NoDup_borderSquares| |].
  { intros sq Hsq. apply elem_of_borderSquares in Hsq as [Hring _].
    by apply on_outer_ring_in_bounds. }
  rewrite Hloop in Hshrink. injection Hshrink as <- <-.
  intros sq. rewrite Hdz, elem_of_union, elem_of_list_to_set.
  intros [Hsel|?]; [right|by left].
  by apply Hsub, elem_of_borderSquares in Hsel as [? _].
Qed.

Lemma scheduler_invariant_same w room effs :
  phase room = phase (w_room w) →
  shrinkInterval room = shrinkInterval (w_room w) →
  quiet effs →
  scheduler_invariant w → scheduler_invariant (commit w room effs).
Proof.
  intros Hp Hsi Hq Hinv. unfold scheduler_invariant.
  rewrite commit_intervals, quiet_intervals, (proj1 (commit_spec _ _ _)) by done.
  by rewrite Hp, Hsi.
Qed.

Lemma scheduler_invariant_frame w room effs :
  same_match (w_room w) room → quiet effs →
  scheduler_invariant w → scheduler_invariant (commit w room effs).
Proof. intros (Hp & Hsi & _). by apply scheduler_invariant_same. Qed.

Lemma foldl_interval_effect_app hs effs1 effs2 :
  foldl interval_effect hs (effs1 ++ effs2)
  = foldl interval_effect (foldl interval_effect hs effs1) effs2.
Proof. apply foldl_app. Qed.

Lemma scheduler_invariant_step w w' :
  step w w' → scheduler_invariant w → scheduler_invariant w'.
Proof.
  destruct 1 as [w t Ht
                |w g socket data room socket' effs Hg Hid Hjoin
                |w handle g socket room effs Hg Hfresh Hstart
                |w socket data room effs Hmove
                |w g socket room effs Hg Hreset
                |w socket room effs Hdis
                |w due cb before after room effs Hts Hdue Hcb
                |w handle g room effs Hin Hg Htick]; intros Hinv.
  - done.
  - apply on_join_room_match in Hjoin as (? & _ & ?).
    by apply scheduler_invariant_frame.
  - apply on_start_game_started in Hstart
      as [[-> Hq]|(Hl & _ & Hm & ->)];
      [by apply scheduler_invariant_frame|].
    destruct Hm as (Hp & Hsi & _). cbn in Hp, Hsi.
    unfold scheduler_invariant.
    rewrite commit_intervals, (proj1 (commit_spec _ _ _)), Hp, Hsi.
    destruct Hinv as [_ Hidle]. rewrite Hidle by (by rewrite Hl).
    split; [|done]. intros _. by exists handle.
  - apply on_move_piece_match in Hmove
      as [[-> Hq]|(Hpl & r0 & effs0 & moved & Hs & Hq & -> & ->)];
      [by apply scheduler_invariant_frame|].
    apply same_settings_match in Hs. destruct Hs as (Hp & Hsi & _).
    destruct Hinv as [Hlive _]. destruct (Hlive Hpl) as (h & Hh & Hhs).
    unfold scheduler_invariant.
    rewrite commit_intervals, (proj1 (commit_spec _ _ _)), Hhs.
    rewrite !foldl_interval_effect_app, (quiet_intervals effs0) by done.
    cbn [foldl interval_effect].
    destruct (checkGameEnd_inv r0) as [[_ ->]|[_ ->]]; cbn [fst snd].
    + rewrite Hsi, Hh. cbn. rewrite decide_False by (by intros ?).
      cbn. split; [done|]. by intros _.
    + cbn. rewrite Hp, Hsi.
      split; [intros _; by exists h|intros Hn; by destruct Hn].
  - apply on_reset_game_inv in Hreset
      as [[-> ->]|(player & _ & _ & _ & -> & ->)];
      [by apply scheduler_invariant_frame; [|constructor|]|].
    pose proof (resetGame_terrain (w_room w) g) as Hr. cbv zeta in Hr.
    destruct Hr as (Hl & Hsi & _ & _ & _ & _ & _ & _ & Heffs).
    unfold scheduler_invariant.
    rewrite commit_intervals, (proj1 (commit_spec _ _ _)), Hl, Heffs.
    rewrite foldl_interval_effect_app. cbn [foldl interval_effect].
    split; [done|]. intros _. destruct Hinv as [Hlive Hidle].
    destruct (decide (phase (w_room w) = playing)) as [Hpl|Hnpl].
    + destruct (Hlive Hpl) as (h & -> & ->). cbn.
      by rewrite decide_False by (by intros ?).
    + rewrite (Hidle Hnpl). by destruct (shrinkInterval (w_room w)).
  - apply on_disconnect_match in Hdis as (? & _ & ?).
    by apply scheduler_invariant_frame.
  - apply run_callback_match in Hcb as (Hm & _ & Hq).
    set (w0 := mkWorld (w_room w) (w_now w) (before ++ after)
                       (w_intervals w) (w_outbox w)).
    by apply (scheduler_invariant_frame w0).
  - destruct Hinv as [Hlive Hidle].
    destruct (decide (phase (w_room w) = playing)) as [Hpl|Hnpl];
      [|rewrite (Hidle Hnpl) in Hin; by apply elem_of_nil in Hin].
    apply shrink_tick_inv in Htick as [(? & _)|(_ & -> & Hr)]; [done|].
    assert (phase room = phase (w_room w)
            ∧ shrinkInterval room = shrinkInterval (w_room w)) as [? ?].
    { destruct Hr as [[_ ->]|(_ & r0 & g' & Hshrink & ->)]; [done|].
      apply shrinkBoard_ring in Hshrink as (Hs & _); [|done].
      apply same_settings_match in Hs. unfold same_match in *. cbn in *.
      by destruct_and!. }
    apply scheduler_invariant_same; [done|done|by repeat constructor|by split].
Qed.

Lemma scheduler_invariant_reachable w : reachable w → scheduler_invariant w.
Proof.
  intros (roomId & now & g & Hg & Hsteps).
  assert (scheduler_invariant (initial_world roomId now g)) as Hinit.
  { unfold initial_world, createGameRoom. destruct (generateWoods g).
    split; [done|]. by intros _. }
  revert Hinit. induction Hsteps as [|w1 w2 w3 Hstep _ IH]; [done|].
  intros Hinv. by apply IH, (scheduler_invariant_step w1).
Qed.

Lemma terrain_invariant_frame room r :
  same_match room r → (board room = ∅ → board r = ∅) →
  terrain_invariant room → terrain_invariant r.
Proof.
  intros (Hp & _ & Hw & Hdz & Ht & Htu & Hc) Hb.
  unfold terrain_invariant. rewrite Hp, Hw, Hdz, Ht, Htu, Hc.
  intros (? & ? & ? & ? & ? & Hl). repeat (split; [done|]).
  intros Hlobby. destruct (Hl Hlobby) as (? & ? & ?). auto.
Qed.

Lemma terrain_invariant_step w w' :
  step w w' → terrain_invariant (w_room w) → terrain_invariant (w_room w').
Proof.
  destruct 1 as [w t Ht
                |w g socket data room socket' effs Hg Hid Hjoin
                |w handle g socket room effs Hg Hfresh Hstart
                |w socket data room effs Hmove
                |w g socket room effs Hg Hreset
                |w socket room effs Hdis
                |w due cb before after room effs Hts Hdue Hcb
                |w handle g room effs Hin Hg Htick];
    rewrite ?(proj1 (commit_spec _ _ _)); cbn [w_room]; intros Hinv.
  - done.
  - apply on_join_room_match in Hjoin as (? & Hb & _).
    apply (terrain_invariant_frame (w_room w)); [done|by rewrite Hb|done].
  - apply on_start_game_started in Hstart
      as [[-> _]|(Hl & _ & (Hp & _ & Hw & Hdz & Ht & Htu & Hc) & _)]; [done|].
    cbn in Hp, Hw, Hdz, Ht, Htu, Hc.
    destruct Hinv as (? & ? & ? & ? & ? & _).
    unfold terrain_invariant. rewrite Hp, Hw, Hdz, Ht, Htu, Hc.
    by repeat (split; [done|]).
  - apply on_move_piece_match in Hmove
      as [[-> _]|(Hpl & r0 & effs0 & moved & Hs & _ & -> & _)]; [done|].
    apply same_settings_match in Hs.
    destruct Hs as (Hp & _ & Hw & Hdz & Ht & Htu & Hc).
    destruct Hinv as (? & ? & ? & ? & ? & _).
    assert (phase (checkGameEnd r0).1 ≠ lobby
            ∧ same_match r0 (set_phase (phase r0) (checkGameEnd r0).1))
      as [Hnl (_ & _ & Hw' & Hdz' & Ht' & Htu' & Hc')].
    { destruct (checkGameEnd_inv r0) as [[_ ->]|[_ ->]]; cbn [fst].
      - done.
      - split; [by rewrite Hp, Hpl|]. by destruct r0. }
    cbn in Hw', Hdz', Ht', Htu', Hc'.
    unfold terrain_invariant. rewrite Hw', Hdz', Ht', Htu', Hc'.
    rewrite Hw, Hdz, Ht, Htu, Hc. by repeat (split; [done|]).
  - apply on_reset_game_inv in Hreset
      as [[-> _]|(player & _ & _ & _ & -> & _)]; [done|].
    pose proof (resetGame_terrain (w_room w) g) as Hr. cbv zeta in Hr.
    destruct Hr as (Hl & _ & Hw & Hdz & Hb & Ht & Htu & Hc & _).
    unfold terrain_invariant. rewrite Hdz, Hb, Ht, Htu, Hc.
    split; [done|]. split; [by intros sq ?%elem_of_empty|].
    by repeat (split; [done|]).
  - apply on_disconnect_match in Hdis as (? & Hb & _).
    apply (terrain_invariant_frame (w_room w)); [done|by rewrite Hb|done].
  - apply run_callback_match in Hcb as (Hm & Hb & _).
    by apply (terrain_invariant_frame (w_room w)).
  - apply shrink_tick_inv in Htick as [(_ & -> & _)|(Hpl & _ & Hr)]; [done|].
    destruct Hinv as (Hw & Hdz & Ht & Htu & Hc & _).
    destruct Hr as [[Hlt ->]|(Hle & r0 & g' & Hshrink & ->)].
    + unfold terrain_invariant. cbn. repeat (split; [done|]).
      split; [lia|]. repeat (split; [done|]). by rewrite Hpl.
    + apply shrinkBoard_ring in Hshrink as (Hs & _ & Hring); [|done].
      apply same_settings_fields in Hs. cbn in Hs.
      destruct Hs as (_ & Hp & Hw' & _ & _ & _ & Htu' & Hc' & _).
      unfold terrain_invariant. cbn. rewrite Hp, Hw', Htu', Hc'.
      split; [done|]. split.
      { intros sq Hsq. destruct (Hring sq Hsq) as [?|?]; [by apply Hdz|done]. }
      split; [lia|]. repeat (split; [done|]). by rewrite Hpl.
Qed.

Lemma terrain_invariant_reachable w : reachable w → terrain_invariant (w_room w).
Proof.
  intros (roomId & now & g & Hg & Hsteps).
  assert (terrain_invariant (w_room (initial_world roomId now g))) as Hinit.
  { unfold initial_world, createGameRoom.
    pose proof (generateWoods_on_board g) as Hw.
    destruct (generateWoods g). cbn. split; [done|].
    split; [by intros sq ?%elem_of_empty|]. by repeat (split; [done|]). }
  revert Hinit. induction Hsteps as [|w1 w2 w3 Hstep _ IH]; [done|].
  intros Hinv. by apply IH, (terrain_invariant_step w1).
Qed.

Lemma alivePlayers_set_phase ph room :
  alivePlayers (set_phase ph room) = alivePlayers room.
Proof. done. Qed.

(** X8: in one turn of the event loop the phase stays as it is, or goes
    from [lobby] to [playing] with at least two players in the room, or from
    [playing] to [ended] with at most one player left alive with pieces, or
    back to [lobby] with every player alive and without pieces.  So [ended]
    is left only by a reset, and a match is never entered from [ended]. *)
Theorem phase_transitions (w w' : World) :
  step w w' → phase_transition (w_room w) (w_room w').
Proof.
  destruct 1 as [w t Ht
                |w g socket data room socket' effs Hg Hid Hjoin
                |w handle g socket room effs Hg Hfresh Hstart
                |w socket data room effs Hmove
                |w g socket room effs Hg Hreset
                |w socket room effs Hdis
                |w due cb before after room effs Hts Hdue Hcb
                |w handle g room effs Hin Hg Htick];
    rewrite ?(proj1 (commit_spec _ _ _)); cbn [w_room].
  - by left.
  - apply on_join_room_match in Hjoin as ((? & _) & _). by left.
  - apply on_start_game_started in Hstart
      as [[-> _]|(Hl & Hn & (Hp & _) & _)]; [by left|].
    right. left. by repeat split.
  - apply on_move_piece_match in Hmove
      as [[-> _]|(Hpl & r0 & effs0 & moved & Hs & _ & -> & _)]; [by left|].
    apply same_settings_match in Hs. destruct Hs as (Hp & _).
    destruct (checkGameEnd_inv r0) as [[Hle ->]|[_ ->]]; cbn [fst].
    + right. right. left. by rewrite alivePlayers_set_phase.
    + by left.
  - apply on_reset_game_spec in Hreset as (_ & _ & _ & [->|[? ?]]); [by left|].
    by do 3 right.
  - apply on_disconnect_match in Hdis as ((? & _) & _). by left.
  - apply run_callback_match in Hcb as ((? & _) & _). by left.
  - apply shrink_tick_spec in Htick as (_ & ? & _). by left.
Qed.

Lemma phase_transitions_witness :
  phase_transition (w_room Demo.world0) (w_room (Demo.at_time 1 Demo.world0)).
Proof.
  apply phase_transitions. unfold Demo.at_time. apply step_clock.
  unfold Demo.world0, initial_world. cbn [w_now]. lia.
Defined.

(** X9: in every state of a run, the shrink interval is live exactly while
    the phase is [playing]: then one interval is live, the one whose handle
    [room.shrinkInterval] holds, and in the lobby and after the end of a
    match none is.  No timer is leaked across matches, and the branch of the
    tick that clears the interval outside [playing] is never taken. *)
Theorem shrink_interval_live_iff_playing (w : World) :
  reachable w →
  (phase (w_room w) = playing →
   ∃ h, shrinkInterval (w_room w) = Some h ∧ w_intervals w = [h]) ∧
  (phase (w_room w) ≠ playing → w_intervals w = []).
Proof. apply scheduler_invariant_reachable. Qed.

Lemma shrink_interval_live_iff_playing_witness :
  (phase (w_room Demo.world_started) = playing →
   ∃ h, shrinkInterval (w_room Demo.world_started) = Some h
        ∧ w_intervals Demo.world_started = [h]) ∧
  (phase (w_room Demo.world_started) ≠ playing →
   w_intervals Demo.world_started = []).
Proof.
  exact (shrink_interval_live_iff_playing Demo.world_started
           reachable_world_started).
Defined.

(** X10: in every state of a run the woods are cells of the board, the
    danger zones are cells of the outer ring, the shrink timer is between 1
    and 60 (a [timer_update] never shows 0), [turn] is still 0 and
    [cooldowns] still empty (neither is ever written to); and in the lobby
    there are no danger zones, the board is empty and the timer is at 60. *)
Theorem terrain_over_a_run (w : World) :
  reachable w →
  on_board (woods (w_room w)) ∧
  (∀ sq, sq ∈ dangerZones (w_room w) → on_outer_ring sq) ∧
  1 ≤ shrinkTimer (w_room w) ≤ 60 ∧
  turn (w_room w) = 0 ∧ cooldowns (w_room w) = ∅ ∧
  (phase (w_room w) = lobby →
   dangerZones (w_room w) = ∅ ∧ board (w_room w) = ∅ ∧
   shrinkTimer (w_room w) = 60).
Proof. apply terrain_invariant_reachable. Qed.

Lemma terrain_over_a_run_witness :
  on_board (woods (w_room Demo.world_after_shrink)) ∧
  (∀ sq, sq ∈ dangerZones (w_room Demo.world_after_shrink) → on_outer_ring sq) ∧
  1 ≤ shrinkTimer (w_room Demo.world_after_shrink) ≤ 60 ∧
  turn (w_room Demo.world_after_shrink) = 0 ∧
  cooldowns (w_room Demo.world_after_shrink) = ∅ ∧
  (phase (w_room Demo.world_after_shrink) = lobby →
   dangerZones (w_room Demo.world_after_shrink) = ∅ ∧
   board (w_room Demo.world_after_shrink) = ∅ ∧
   shrinkTimer (w_room Demo.world_after_shrink) = 60).
Proof.
  exact (terrain_over_a_run Demo.world_after_shrink reachable_world_after_shrink).
Defined.

(** ** The players of a room over a run *)

Lemma spawn_loop_players entries done positions index room g :
  players room = done ++ entries →
  keys_distinct (players room) →
  (index + length entries ≤ length positions)%nat →
  let r := (spawn_loop entries positions index room g).1 in
  ∃ new entries',
    room_heap r = room_heap room ++ new ∧
    players r = done ++ entries' ∧
    Forall2 (spawned_at room r) entries entries'.
Proof.
  revert done index room g.
  induction entries as [|[k p] rest IH]; intros done index room g Hpl Hnd Hlen;
    cbn [spawn_loop].
  { cbn [fst]. exists [], []. by rewrite app_nil_r. }
  destruct (lookup_lt_is_Some_2 positions index) as [spawn Hspawn];
    [cbn [length] in Hlen; lia|].
  rewrite Hspawn.
  pose proof (createPlayerPieces_length k spawn.1 spawn.2 g) as Hpcs.
  destruct (createPlayerPieces k spawn.1 spawn.2 g) as [pcs g1] eqn:Hcreate.
  cbn [fst] in Hpcs. rewrite Hpcs.
  set (ls := seq (length (room_heap room)) 16).
  set (room1 := set_board _ _).
  assert (Hk : k ∉ done.*1).
  { unfold keys_distinct in Hnd. rewrite Hpl, fmap_app, fmap_cons in Hnd.
    apply NoDup_app in Hnd as (_ & Hnd & _). intros Hin.
    apply (Hnd k Hin). by left. }
  assert (Hpl1 : players room1 = (done ++ [(k, set_pieces ls p)]) ++ rest).
  { cbn. rewrite Hpl, players_set_middle by done. by rewrite <- app_assoc. }
  assert (Hnd1 : keys_distinct (players room1)).
  { unfold keys_distinct in *. rewrite Hpl1, <- app_assoc. cbn [app].
    rewrite fmap_app, fmap_cons.
    by rewrite Hpl, fmap_app, fmap_cons in Hnd. }
  destruct (IH _ (S index) room1 g1 Hpl1 Hnd1)
    as (new & entries' & Hnew & Hr & Hall); [cbn [length] in Hlen; lia|].
  set (r := (spawn_loop rest positions (S index) room1 g1).1) in *.
  assert (Hh1 : room_heap room1 = room_heap room ++ pcs) by done.
  exists (pcs ++ new), ((k, set_pieces ls p) :: entries').
  split; [by rewrite Hnew, Hh1, <- app_assoc|].
  split; [by rewrite Hr, <- app_assoc|].
  constructor.
  - split; [done|]. exists (length (room_heap room)), spawn, g.
    split; [done|]. split; [done|]. intros i Hi.
    rewrite Hnew, Hh1, <- app_assoc, lookup_app_r by lia.
    replace (length (room_heap room) + i - length (room_heap room))%nat
      with i by lia.
    cbn [fst]. rewrite Hcreate. cbn [fst]. apply lookup_app_l. lia.
  - eapply Forall2_impl; [exact Hall|].
    intros kp kp' (Hkey & base & spawn' & g0 & Hp' & Hbase & Hheap).
    split; [done|]. exists base, spawn', g0. split; [done|]. split; [|done].
    rewrite Hh1, length_app in Hbase. lia.
Qed.

(** *** Identities *)

Lemma idents_keys m : m.*1 = (idents m).*1.*1.*1.
Proof.
  unfold idents. rewrite <- !list_fmap_compose. by apply list_fmap_ext.
Qed.

Lemma idents_sessions m : sessions m = (idents m).*2.
Proof.
  unfold idents, sessions. rewrite <- !list_fmap_compose.
  by apply list_fmap_ext.
Qed.

Lemma idents_length m : length (idents m) = length m.
Proof. apply length_fmap. Qed.

Lemma membership_idents room :
  membership room ↔
  NoDup (idents (players room)).*1.*1.*1 ∧
  Z.of_nat (length (idents (players room))) ≤ MAX_PLAYERS ∧
  Forall (λ i : string * string * bool * string,
            i.1.1.2 = i.1.1.1 ∧ (i.1.2 = true → admin room = Some i.1.1.1))
         (idents (players room)) ∧
  NoDup (idents (players room)).*2.
Proof.
  unfold membership, keys_distinct, players_size.
  rewrite <- idents_keys, <- idents_sessions, idents_length.
  unfold idents. by rewrite Forall_fmap.
Qed.

Lemma membership_frame room r :
  idents (players r) = idents (players room) → admin r = admin room →
  membership room → membership r.
Proof. rewrite !membership_idents. by intros -> ->. Qed.

Lemma idents_set_same k v m p :
  players_get k m = Some p →
  player_id v = player_id p → player_isAdmin v = player_isAdmin p →
  player_sessionId v = player_sessionId p →
  idents (players_set k v m) = idents m.
Proof.
  intros Hget Hid Hadm Hsess. induction m as [|[k0 p0] m IH]; [done|].
  cbn [players_get players_set] in *. case_decide as Hk.
  - injection Hget as ->. subst k0. unfold idents. cbn.
    by rewrite Hid, Hadm, Hsess.
  - unfold idents in *. cbn. by rewrite IH.
Qed.

Lemma idents_removePieceFromGame room l :
  idents (players (removePieceFromGame room l)) = idents (players room).
Proof.
  destruct (removePieceFromGame_inv room l)
    as [->|(k & p & ls & a & Hget & _ & ->)]; [done|].
  cbn [players set_players]. by apply (idents_set_same _ _ _ p).
Qed.

Lemma idents_executeMove now room piece toRow toCol r effs :
  executeMove now room piece toRow toCol = Some (r, effs) →
  idents (players r) = idents (players room) ∧ admin r = admin room.
Proof.
  intros Hex. pose proof (same_settings_executeMove _ _ _ _ _ _ _ Hex) as Hs.
  apply same_settings_fields in Hs.
  apply executeMove_inv in Hex as (_ & _ & _ & -> & _).
  split; [|by destruct_and!].
  destruct (delete _ _ !! _); [apply idents_removePieceFromGame|done].
Qed.

Lemma idents_shrink_loop fuel i room squares g r g' :
  shrink_loop fuel i room squares g = Some (r, g') →
  idents (players r) = idents (players room) ∧ admin r = admin room.
Proof.
  apply (shrink_loop_closed
           (λ r, idents (players r) = idents (players room)
                 ∧ admin r = admin room)).
  - by intros r0 dz.
  - intros r0 l [Hi Ha]. rewrite idents_removePieceFromGame.
    pose proof (removePieceFromGame_fields r0 l) as Hf. cbv zeta in Hf.
    split; [done|]. destruct_and!. congruence.
  - done.
Qed.

Lemma spawned_at_idents room r m m' :
  Forall2 (spawned_at room r) m m' → idents m' = idents m.
Proof.
  unfold idents.
  induction 1 as [|kp kp' m m' (Hk & base & spawn & g0 & Hp & _) _ IH];
    [done|].
  rewrite !fmap_cons, IH. by rewrite Hk, Hp.
Qed.

Lemma idents_spawn_loop positions room g :
  keys_distinct (players room) →
  (length (players room) ≤ length positions)%nat →
  idents (players (spawn_loop (players room) positions 0 room g).1)
  = idents (players room).
Proof.
  intros Hnd Hlen.
  destruct (spawn_loop_players (players room) [] positions 0 room g)
    as (new & entries' & _ & -> & Hall); [done|done|lia|].
  cbn [app]. by eapply spawned_at_idents.
Qed.

Lemma idents_resetGame room g :
  idents (players (resetGame room g).1) = idents (players room).
Proof.
  unfold resetGame. cbv zeta. destruct (generateWoods g) as [w g'].
  cbn. unfold idents. rewrite <- list_fmap_compose.
  apply list_fmap_ext. by intros i [k p] _.
Qed.

Lemma idents_reconnect sessionId socketId m q m' :
  reconnect_player sessionId socketId m = Some (q, m') → idents m' = idents m.
Proof.
  intros (before & k & after & -> & _ & _ & ->)%reconnect_player_Some.
  unfold idents. by rewrite !fmap_app, !fmap_cons.
Qed.

Lemma players_get_elem k m p : players_get k m = Some p → (k, p) ∈ m.
Proof.
  induction m as [|[k0 p0] m IH]; cbn [players_get]; [done|].
  case_decide as Hk; [intros [= ->]; subst; by left|].
  intros Hget. right. by apply IH.
Qed.

Lemma players_get_None k m : players_get k m = None ↔ k ∉ m.*1.
Proof.
  induction m as [|[k0 p0] m IH]; cbn [players_get].
  { split; [intros _ ?%elem_of_nil; done|done]. }
  rewrite fmap_cons, not_elem_of_cons. cbn [fst]. case_decide as Hk.
  - split; [done|]. by intros [? _].
  - rewrite IH. split; [by split|by intros [_ ?]].
Qed.

Lemma players_set_new k v m : k ∉ m.*1 → players_set k v m = m ++ [(k, v)].
Proof.
  induction m as [|[k0 p0] m IH]; [done|].
  rewrite fmap_cons, not_elem_of_cons. cbn [fst]. intros [Hne Hnotin].
  cbn [players_set]. rewrite decide_False by done. cbn [app]. by rewrite IH.
Qed.

Lemma players_set_old k v m :
  k ∈ m.*1 →
  ∃ before p after,
    m = before ++ (k, p) :: after ∧ (k ∉ before.*1) ∧
    players_set k v m = before ++ (k, v) :: after.
Proof.
  induction m as [|[k0 p0] m IH]; [by intros ?%elem_of_nil|].
  rewrite fmap_cons. cbn [fst players_set]. intros Hin.
  case_decide as Hk.
  - subst k0. exists [], p0, m. split; [done|]. split; [|done].
    by intros ?%elem_of_nil.
  - apply elem_of_cons in Hin as [->|Hin]; [done|].
    destruct (IH Hin) as (before & p & after & -> & Hb & ->).
    exists ((k0, p0) :: before), p, after. split; [done|]. split; [|done].
    rewrite fmap_cons, not_elem_of_cons. by split.
Qed.

Lemma membership_joined now g room socket data :
  unknown_session (join_sessionId data) (players room) →
  players_size (players room) < MAX_PLAYERS →
  membership room →
  membership (joined now (new_player now g room socket data) room).
Proof.
  intros Hunknown Hsize (Hnd & _ & Hall & Hsess).
  assert (join_sessionId data ∉ sessions (players room)) as Hnew_session.
  { unfold sessions. intros ([k p] & Heq & Hin)%list_elem_of_fmap.
    unfold unknown_session in Hunknown. rewrite Forall_forall in Hunknown.
    by apply (Hunknown _ Hin). }
  set (player := new_player now g room socket data).
  set (pid := player_id player).
  assert (admin (joined now player room)
          = if player_isAdmin player then Some pid else admin room) as Hadm.
  { unfold joined. by destruct (player_isAdmin player). }
  assert (players (joined now player room)
          = players_set pid player (players room)) as Hpl.
  { unfold joined. by destruct (player_isAdmin player). }
  assert (player_isAdmin player = true → admin room = None) as Hnone.
  { unfold player, new_player. cbn [player_isAdmin].
    intros [_ ?%bool_decide_eq_true]%andb_true_iff. done. }
  assert (Forall (λ kp, player_id kp.2 = kp.1 ∧
                        (player_isAdmin kp.2 = true →
                         admin (joined now player room) = Some kp.1))
                 (players room)) as Hold.
  { eapply Forall_impl; [exact Hall|]. intros [k p] [Hid Ha]. split; [done|].
    intros Hp. specialize (Ha Hp). cbn [fst] in Ha. rewrite Hadm.
    destruct (player_isAdmin player); [|done].
    rewrite Hnone in Ha by done. done. }
  assert (player_id player = pid ∧
          (player_isAdmin player = true →
           admin (joined now player room) = Some pid)) as Hnew.
  { split; [done|]. rewrite Hadm. by intros ->. }
  split; [rewrite Hpl; by apply keys_distinct_set|]. rewrite Hpl.
  destruct (decide (pid ∈ (players room).*1)) as [Hin|Hnotin].
  - destruct (players_set_old pid player _ Hin)
      as (before & p & after & Hm & _ & ->).
    unfold players_size in *. rewrite Hm in Hsize, Hold, Hsess, Hnew_session.
    rewrite length_app in *. cbn [length] in *. split; [lia|]. split.
    + apply Forall_app in Hold as [Hb [_ Ha]%Forall_cons].
      apply Forall_app. split; [done|]. by constructor.
    + unfold sessions in *. rewrite fmap_app, fmap_cons in *.
      cbn [snd] in *.
      apply NoDup_app in Hsess as (Hs1 & Hs2 & [Hs3 Hs4]%NoDup_cons).
      apply not_elem_of_app in Hnew_session
        as [Hn1 [_ Hn2]%not_elem_of_cons].
      apply NoDup_app. split; [done|]. split.
      * intros x Hx [->|Hx']%elem_of_cons; [done|].
        apply (Hs2 x Hx). by right.
      * by apply NoDup_cons.
  - rewrite players_set_new by done. unfold players_size in *.
    rewrite length_app. cbn [length]. split; [lia|]. split.
    + apply Forall_app. split; [done|]. by constructor.
    + unfold sessions in *. rewrite fmap_app. apply NoDup_app.
      split; [done|]. split; [|apply NoDup_singleton].
      by intros x Hx ->%list_elem_of_singleton.
Qed.

Lemma players_delete_elem k m kp :
  kp ∈ players_delete k m → kp ∈ m.
Proof.
  intros Hin. eapply elem_of_sublist; [done|apply players_delete_sublist].
Qed.

Lemma players_delete_key k m :
  keys_distinct m → k ∉ (players_delete k m).*1.
Proof.
  unfold keys_distinct. induction m as [|[k0 p0] m IH]; cbn [players_delete].
  { intros _ ?%elem_of_nil. done. }
  rewrite fmap_cons. cbn [fst]. intros [Hnotin Hnd]%NoDup_cons.
  case_decide as Hk; [by subst|].
  rewrite fmap_cons, not_elem_of_cons. split; [done|by apply IH].
Qed.

Lemma membership_removePlayer room playerId r :
  removePlayer room playerId = Some r → membership room → membership r.
Proof.
  intros Hrm (Hnd & Hsize & Hall & Hsess).
  apply removePlayer_inv in Hrm as [[_ ->]|(player & b & Hget & _ & ->)];
    [done|].
  assert (NoDup (sessions (players_delete playerId (players room)))) as Hsess'.
  { eapply sublist_NoDup; [exact Hsess|].
    apply fmap_sublist, players_delete_sublist. }
  unfold membership. cbn [players admin set_admin set_players set_board].
  pose proof (keys_distinct_delete _ playerId Hnd) as Hnd'.
  pose proof (players_delete_key playerId _ Hnd) as Hgone.
  assert (Forall (λ kp, player_id kp.2 = kp.1 ∧
                        (player_isAdmin kp.2 = true →
                         admin room = Some kp.1 ∧ kp.1 ≠ playerId))
                 (players_delete playerId (players room))) as Hall'.
  { apply Forall_forall. intros [k p] Hin.
    rewrite Forall_forall in Hall.
    destruct (Hall _ (players_delete_elem _ _ _ Hin)) as [Hid Ha].
    split; [done|]. intros Hp. split; [by apply Ha|]. cbn [fst].
    intros ->. apply Hgone. apply list_elem_of_fmap. by exists (playerId, p). }
  pose proof (sublist_length _ _ (players_delete_sublist playerId (players room)))
    as Hlen.
  unfold without_player, admin_after, players_size in *.
  destruct (players_delete playerId (players room)) as [|[k newAdmin] rest];
    [by repeat split; [constructor|cbn; lia|constructor|constructor]|].
  case_bool_decide as Hadm.
  - split; [done|]. split; [cbn [length] in *; lia|]. split; [|done].
    apply Forall_cons in Hall' as [[Hid _] Hrest]. cbn [fst snd] in Hid.
    constructor; [cbn; by rewrite Hid|].
    eapply Forall_impl; [exact Hrest|]. intros [k' p'] [Hid' Ha].
    split; [done|]. intros Hp. destruct (Ha Hp) as [Hk Hne].
    cbn [fst] in Hk, Hne. congruence.
  - split; [done|]. split; [lia|]. split; [|done].
    eapply Forall_impl; [exact Hall'|]. intros [k' p'] [Hid' Ha].
    split; [done|]. intros Hp. by destruct (Ha Hp).
Qed.

Lemma membership_step w w' :
  step w w' → membership (w_room w) → membership (w_room w').
Proof.
  destruct 1 as [w t Ht
                |w g socket data room socket' effs Hg Hid Hjoin
                |w handle g socket room effs Hg Hfresh Hstart
                |w socket data room effs Hmove
                |w g socket room effs Hg Hreset
                |w socket room effs Hdis
                |w due cb before after room effs Hts Hdue Hcb
                |w handle g room effs Hin Hg Htick];
    rewrite ?(proj1 (commit_spec _ _ _)); cbn [w_room]; intros Hinv.
  - done.
  - apply on_join_room_inv in Hjoin
      as [(-> & _)|[(q & m & Hre & -> & _)|(Hu & Hsize & _ & -> & _)]].
    + done.
    + apply (membership_frame (w_room w)); [|done|done].
      cbn. by eapply idents_reconnect.
    + by apply membership_joined.
  - apply on_start_game_inv in Hstart
      as [[-> _]|(player & ps & g1 & _ & _ & _ & _ & _ & Hps & -> & _)]; [done|].
    assert (length ps = length (players (w_room w))) as Hlen.
    { eapply generateSpawnPositions_length; [done|].
      unfold players_size in Hps. by rewrite Hps. }
    pose proof (same_settings_spawn_loop (players (w_room w)) ps 0
                  (set_phase playing (w_room w)) g1) as Hs.
    apply same_settings_fields in Hs.
    apply (membership_frame (w_room w)); [| |done].
    + cbn. apply (idents_spawn_loop ps (set_phase playing (w_room w)) g1);
        [apply Hinv|cbn; lia].
    + cbn. by destruct_and!.
  - apply on_move_piece_inv in Hmove
      as [[-> _]|(piece & r0 & effs0 & moved & _ & Hex & -> & _)]; [done|].
    apply idents_executeMove in Hex as [Hi Ha].
    apply (membership_frame (w_room w)); [| |done];
      by destruct (checkGameEnd_inv r0) as [[_ ->]|[_ ->]].
  - apply on_reset_game_inv in Hreset
      as [[-> _]|(player & _ & _ & _ & -> & _)]; [done|].
    apply (membership_frame (w_room w)); [apply idents_resetGame| |done].
    unfold resetGame. cbv zeta. by destruct (generateWoods g).
  - apply on_disconnect_inv in Hdis
      as [[-> _]|(pid & p & _ & Hget & -> & _)]; [done|].
    apply (membership_frame (w_room w)); [|done|done].
    cbn. by apply (idents_set_same _ _ _ p).
  - destruct cb as [piece|playerId]; cbn [run_callback] in Hcb.
    + injection Hcb as <- <-. by apply (membership_frame (w_room w)).
    + apply removal_callback_inv in Hcb as [[-> _]|(p & _ & _ & Hrm & _)];
        [done|]. by eapply membership_removePlayer.
  - apply shrink_tick_inv in Htick as [(_ & -> & _)|(_ & _ & Hr)]; [done|].
    destruct Hr as [[_ ->]|(_ & r0 & g' & Hshrink & ->)];
      [by apply (membership_frame (w_room w))|].
    apply idents_shrink_loop in Hshrink as [Hi Ha].
    by apply (membership_frame (w_room w)).
Qed.

Lemma membership_reachable w : reachable w → membership (w_room w).
Proof.
  intros (roomId & now & g & Hg & Hsteps).
  assert (membership (w_room (initial_world roomId now g))) as Hinit.
  { unfold initial_world, createGameRoom. destruct (generateWoods g). cbn.
    split; [constructor|]. split; [done|]. split; constructor. }
  revert Hinit. induction Hsteps as [|w1 w2 w3 Hstep _ IH]; [done|].
  intros Hinv. by apply IH, (membership_step w1).
Qed.

(** ** The pieces of a room over a run *)

Lemma heap_evolves_refl h : heap_evolves h h.
Proof. split; [done|]. by intros l _. Qed.

Lemma pieces_ok_frame room r :
  heap_evolves (room_heap room) (room_heap r) →
  entries_derive (players room) (players r) →
  pieces_ok room → pieces_ok r.
Proof.
  intros [Hlen Hheap] Hder Hok. unfold pieces_ok in *.
  rewrite Forall_forall in Hok.
  eapply Forall_impl; [exact Hder|]. intros [k' p'] Hkp. cbn [fst snd] in *.
  destruct Hkp as [->|(p & Hin & Hsub)];
    [split; [constructor|split; [constructor|cbn; lia]]|].
  destruct (Hok _ Hin) as (Hall & Hnd & Hcount). cbn [fst snd] in Hall, Hnd, Hcount.
  assert (Forall (piece_ok (room_heap room) k') (player_pieces p')) as Hall'.
  { rewrite Forall_forall in Hall. apply Forall_forall. intros l Hl.
    apply Hall. by eapply elem_of_sublist. }
  split; [|split].
  - eapply Forall_impl; [exact Hall'|]. intros l (Hlt & Hown & Hb).
    destruct (Hheap l Hlt) as (_ & Hown' & Hb').
    split; [lia|]. split; [congruence|auto].
  - assert ((λ l, piece_id (room_heap r !!! l)) <$> player_pieces p'
            = (λ l, piece_id (room_heap room !!! l)) <$> player_pieces p') as ->.
    { apply Forall_fmap_ext. eapply Forall_impl; [exact Hall'|].
      intros l (Hlt & _). by destruct (Hheap l Hlt) as (-> & _). }
    eapply sublist_NoDup; [exact Hnd|]. by apply fmap_sublist.
  - apply sublist_length in Hsub. lia.
Qed.

Lemma entries_derive_refl m : entries_derive m m.
Proof.
  apply Forall_forall. intros [k p] Hin. right. by exists p.
Qed.

Lemma entries_derive_trans m1 m2 m3 :
  entries_derive m1 m2 → entries_derive m2 m3 → entries_derive m1 m3.
Proof.
  unfold entries_derive. rewrite !Forall_forall. intros H12 H23 kp Hkp.
  destruct (H23 kp Hkp) as [?|(p & Hin & Hsub)]; [by left|].
  destruct (H12 _ Hin) as [Hnil|(p0 & Hin0 & Hsub0)]; cbn [fst snd] in *.
  - left. rewrite Hnil in Hsub. by apply sublist_nil_r in Hsub.
  - right. exists p0. split; [done|]. by etrans.
Qed.

Lemma elem_of_players_set kp k v m :
  kp ∈ players_set k v m → kp = (k, v) ∨ kp ∈ m.
Proof.
  induction m as [|[k0 p0] m IH]; cbn [players_set].
  { intros ->%list_elem_of_singleton. by left. }
  case_decide as Hk.
  - intros [->|?]%elem_of_cons; [by left|right; by right].
  - intros [->|Hin]%elem_of_cons; [right; by left|].
    destruct (IH Hin) as [?|?]; [by left|right; by right].
Qed.

Lemma entries_derive_set k v m :
  (player_pieces v = [] ∨
   ∃ p, players_get k m = Some p ∧
        player_pieces v `sublist_of` player_pieces p) →
  entries_derive m (players_set k v m).
Proof.
  intros Hv. apply Forall_forall. intros kp [->|Hin]%elem_of_players_set.
  - destruct Hv as [?|(p & Hget & Hsub)]; [by left|]. right. exists p.
    split; [by apply players_get_elem|done].
  - right. destruct kp as [k' p']. by exists p'.
Qed.

Lemma entries_derive_sublist m m' : m' `sublist_of` m → entries_derive m m'.
Proof.
  intros Hsub. apply Forall_forall. intros [k p] Hin. right. exists p.
  split; [by eapply elem_of_sublist|done].
Qed.

Lemma entries_derive_removePieceFromGame room l :
  entries_derive (players room) (players (removePieceFromGame room l)).
Proof.
  destruct (removePieceFromGame_inv room l)
    as [->|(k & p & ls & a & Hget & Hsub & ->)]; [apply entries_derive_refl|].
  cbn [players set_players]. apply entries_derive_set. right. by exists p.
Qed.

Lemma entries_derive_executeMove now room piece toRow toCol r effs :
  executeMove now room piece toRow toCol = Some (r, effs) →
  entries_derive (players room) (players r).
Proof.
  intros Hex. apply executeMove_inv in Hex as (_ & _ & _ & -> & _).
  destruct (delete _ _ !! _);
    [apply entries_derive_removePieceFromGame|apply entries_derive_refl].
Qed.

Lemma entries_derive_shrink_loop fuel i room squares g r g' :
  shrink_loop fuel i room squares g = Some (r, g') →
  entries_derive (players room) (players r).
Proof.
  apply (shrink_loop_closed (λ r, entries_derive (players room) (players r))).
  - by intros r0 dz.
  - intros r0 l Hd. eapply entries_derive_trans; [exact Hd|].
    apply entries_derive_removePieceFromGame.
  - apply entries_derive_refl.
Qed.

Lemma entries_derive_removePlayer room playerId r :
  removePlayer room playerId = Some r →
  entries_derive (players room) (players r) ∧ room_heap r = room_heap room.
Proof.
  intros Hrm. apply removePlayer_inv in Hrm
    as [[_ ->]|(player & b & _ & _ & ->)]; [split; [apply entries_derive_refl|done]|].
  split; [|done]. cbn [players set_admin set_players]. unfold without_player.
  pose proof (entries_derive_sublist _ _
                (players_delete_sublist playerId (players room))) as Hd.
  destruct (players_delete playerId (players room)) as [|[k q] rest]; [done|].
  case_bool_decide; [|done].
  apply Forall_cons in Hd as [Hq Hrest]. by constructor.
Qed.

Lemma heap_evolves_moved now h piece toRow toCol :
  in_bounds toRow toCol = true →
  heap_evolves h (moved_heap now h piece toRow toCol).
Proof.
  intros Hd. split; [by rewrite moved_heap_length|]. intros l Hl.
  destruct (decide (l = piece)) as [->|Hne];
    [|by rewrite moved_heap_other].
  destruct (moved_heap_position now h piece toRow toCol) as [-> ->];
    [by apply lookup_lt_is_Some_2|].
  split; [|split; [|done]];
    unfold moved_heap; case_bool_decide;
    by rewrite !list_lookup_total_alter_eq by (by rewrite ?length_alter).
Qed.

Lemma heap_evolves_canMove h piece b :
  heap_evolves h (alter (set_canMove b) piece h).
Proof.
  split; [by rewrite length_alter|]. intros l Hl.
  destruct (decide (l = piece)) as [->|Hne];
    [by rewrite list_lookup_total_alter_eq|by rewrite list_lookup_total_alter_ne].
Qed.

Lemma pieces_ok_spawned room r entries' :
  players r = entries' →
  Forall2 (spawned_at room r) (players room) entries' →
  pieces_ok r.
Proof.
  intros Hpl Hall. unfold pieces_ok. rewrite Hpl. clear Hpl.
  induction Hall as [|kp kp' m m' (Hk & base & spawn & g0 & Hp & _ & Hheap) _ IH];
    constructor; [|done].
  rewrite Hp, Hk. cbn [player_pieces set_pieces].
  set (pcs := (createPlayerPieces kp.1 spawn.1 spawn.2 g0).1) in *.
  assert (length pcs = 16%nat) as Hlen by apply createPlayerPieces_length.
  assert (∀ i, (i < 16)%nat →
            ∃ pc, pcs !! i = Some pc ∧ room_heap r !! (base + i)%nat = Some pc
                  ∧ room_heap r !!! (base + i)%nat = pc) as Hat.
  { intros i Hi. destruct (lookup_lt_is_Some_2 pcs i) as [pc Hpc]; [lia|].
    exists pc. split; [done|]. rewrite Hheap, Hpc by done. split; [done|].
    apply list_lookup_total_correct. by rewrite Hheap. }
  split; [|split; [|by rewrite length_seq]].
  - apply Forall_forall. intros l [Hge Hlt]%elem_of_seq.
    destruct (Hat (l - base)%nat) as (pc & Hpc & Hl & Hl'); [lia|].
    replace (base + (l - base))%nat with l in Hl, Hl' by lia.
    apply createPlayerPieces_lookup in Hpc as (ty & dr & dc & color & _ & Hpc).
    split; [by eapply lookup_lt_Some|]. rewrite Hl', Hpc. cbn.
    split; [done|apply clamp_in_bounds].
  - assert ((λ l, piece_id (room_heap r !!! l)) <$> seq base 16
            = piece_id <$> pcs) as ->; [|apply createPlayerPieces_ids].
    apply list_eq. intros i. rewrite !list_lookup_fmap.
    destruct (decide (i < 16)%nat) as [Hi|Hi].
    + destruct (Hat i Hi) as (pc & Hpc & _ & Hpc').
      rewrite lookup_seq_lt, Hpc by done.
      cbn [fmap option_fmap option_map]. by rewrite Hpc'.
    + rewrite lookup_seq_ge by lia. by rewrite lookup_ge_None_2 by lia.
Qed.

Lemma pieces_ok_step w w' :
  step w w' → keys_distinct (players (w_room w)) →
  pieces_ok (w_room w) → pieces_ok (w_room w').
Proof.
  destruct 1 as [w t Ht
                |w g socket data room socket' effs Hg Hid Hjoin
                |w handle g socket room effs Hg Hfresh Hstart
                |w socket data room effs Hmove
                |w g socket room effs Hg Hreset
                |w socket room effs Hdis
                |w due cb before after room effs Hts Hdue Hcb
                |w handle g room effs Hin Hg Htick];
    rewrite ?(proj1 (commit_spec _ _ _)); cbn [w_room]; intros Hnd Hinv.
  - done.
  - apply on_join_room_inv in Hjoin
      as [(-> & _)|[(q & m & Hre & -> & _)|(_ & _ & _ & -> & _)]]; [done|..].
    + apply (pieces_ok_frame (w_room w)); [apply heap_evolves_refl| |done].
      cbn. apply reconnect_player_Some in Hre
        as (before & k & after & -> & _ & _ & ->).
      apply Forall_app. split.
      * apply Forall_forall. intros [k' p'] Hin. right. exists p'.
        split; [|done]. apply elem_of_app. by left.
      * constructor.
        -- right. exists q. split; [|done]. apply elem_of_app. right. by left.
        -- apply Forall_forall. intros [k' p'] Hin. right. exists p'.
           split; [|done]. apply elem_of_app. right. by right.
    + apply (pieces_ok_frame (w_room w)).
      * unfold joined. destruct (player_isAdmin _); apply heap_evolves_refl.
      * assert (players (joined (w_now w)
                           (new_player (w_now w) g (w_room w) socket data)
                           (w_room w))
                = players_set
                    (player_id (new_player (w_now w) g (w_room w) socket data))
                    (new_player (w_now w) g (w_room w) socket data)
                    (players (w_room w))) as ->
          by (unfold joined; by destruct (player_isAdmin _)).
        apply entries_derive_set. by left.
      * done.
  - apply on_start_game_inv in Hstart
      as [[-> _]|(player & ps & g1 & _ & _ & _ & _ & _ & Hps & -> & _)]; [done|].
    assert (length ps = length (players (w_room w))) as Hlen.
    { eapply generateSpawnPositions_length; [done|].
      unfold players_size in Hps. by rewrite Hps. }
    destruct (spawn_loop_players (players (w_room w)) [] ps 0
                (set_phase playing (w_room w)) g1)
      as (new & entries' & _ & Hpl & Hall); [done|done|lia|].
    cbn [app] in Hpl.
    set (r0 := (spawn_loop (players (w_room w)) ps 0
                  (set_phase playing (w_room w)) g1).1) in *.
    assert (pieces_ok r0) as Hok
      by (by apply (pieces_ok_spawned (set_phase playing (w_room w)) r0 entries')).
    done.
  - apply on_move_piece_inv in Hmove
      as [[-> _]|(piece & r0 & effs0 & moved & _ & Hex & -> & _)]; [done|].
    pose proof (entries_derive_executeMove _ _ _ _ _ _ _ Hex) as Hd.
    apply executeMove_inv in Hex as (_ & Hdest & _ & _ & Hheap & _).
    assert (pieces_ok r0) as Hok.
    { apply (pieces_ok_frame (w_room w)); [|done|done].
      rewrite Hheap. by apply heap_evolves_moved. }
    by destruct (checkGameEnd_inv r0) as [[_ ->]|[_ ->]].
  - apply on_reset_game_inv in Hreset
      as [[-> _]|(player & _ & _ & _ & -> & _)]; [done|].
    pose proof (resetGame_spec (w_room w) g) as Hr. cbv zeta in Hr.
    destruct Hr as (_ & _ & _ & Hfresh & _).
    unfold pieces_ok. eapply Forall_impl; [exact Hfresh|].
    intros kp [_ ->]. split; [constructor|split; [constructor|cbn; lia]].
  - apply on_disconnect_inv in Hdis
      as [[-> _]|(pid & p & _ & Hget & -> & _)]; [done|].
    apply (pieces_ok_frame (w_room w)); [apply heap_evolves_refl| |done].
    cbn. apply entries_derive_set. right. by exists p.
  - destruct cb as [piece|playerId]; cbn [run_callback] in Hcb.
    + injection Hcb as <- <-.
      apply (pieces_ok_frame (w_room w));
        [apply heap_evolves_canMove|apply entries_derive_refl|done].
    + apply removal_callback_inv in Hcb as [[-> _]|(p & _ & _ & Hrm & _)];
        [done|].
      apply entries_derive_removePlayer in Hrm as [Hd Hh].
      apply (pieces_ok_frame (w_room w)); [|done|done].
      rewrite Hh. apply heap_evolves_refl.
  - apply shrink_tick_inv in Htick as [(_ & -> & _)|(_ & _ & Hr)]; [done|].
    destruct Hr as [[_ ->]|(_ & r0 & g' & Hshrink & ->)]; [done|].
    unfold shrinkBoard in Hshrink.
    pose proof (entries_derive_shrink_loop _ _ _ _ _ _ _ Hshrink) as Hd.
    apply shrink_loop_settings in Hshrink as (_ & _ & Hh).
    apply (pieces_ok_frame (w_room w)); [|done|done].
    cbn. rewrite Hh. apply heap_evolves_refl.
Qed.

Lemma pieces_ok_reachable w : reachable w → pieces_ok (w_room w).
Proof.
  intros (roomId & now & g & Hg & Hsteps).
  assert (reachable (initial_world roomId now g)) as Hre
    by (exists roomId, now, g; by split).
  assert (pieces_ok (w_room (initial_world roomId now g))) as Hinit.
  { unfold initial_world, createGameRoom. destruct (generateWoods g).
    constructor. }
  revert Hre Hinit. induction Hsteps as [|w1 w2 w3 Hstep _ IH]; [done|].
  intros Hre Hinv. apply IH.
  - by apply (reachable_step w1).
  - apply (pieces_ok_step w1); [done| |done].
    by apply match_invariant_reachable in Hre as [? _].
Qed.

(** ** The properties of the players and of the pieces *)

Lemma pieces_ok_elem room kp l :
  pieces_ok room → kp ∈ players room → l ∈ player_pieces kp.2 →
  piece_ok (room_heap room) kp.1 l.
Proof.
  unfold pieces_ok. rewrite Forall_forall. intros Hok Hkp Hl.
  destruct (Hok kp Hkp) as (Hall & _). rewrite Forall_forall in Hall.
  by apply Hall.
Qed.

Lemma clear_cells_total h b ls :
  Forall (λ l, in_bounds (piece_row (h !!! l)) (piece_col (h !!! l)) = true) ls →
  is_Some (clear_cells h b ls).
Proof.
  intros Hall. revert b. induction Hall as [|l ls Hl _ IH]; intros b;
    cbn [clear_cells]; [done|].
  rewrite (board_set_in _ _ _ None Hl). cbn [mbind option_bind]. apply IH.
Qed.


Lemma removePlayer_total room playerId :
  pieces_ok room → is_Some (removePlayer room playerId).
Proof.
  intros Hok. unfold removePlayer.
  destruct (players_get playerId (players room)) as [player|] eqn:Hget; [|done].
  destruct (clear_cells_total (room_heap room) (board room)
              (player_pieces player)) as [b ->].
  { apply players_get_elem in Hget. apply Forall_forall. intros l Hl.
    by destruct (pieces_ok_elem _ (playerId, player) l Hok Hget Hl) as (_ & _ & ?). }
  cbn [mbind option_bind admin set_board set_players players].
  unfold players_size.
  destruct (players_delete playerId (players room)) as [|[k q] rest].
  - by rewrite andb_false_r.
  - by destruct (_ && _).
Qed.







Lemma keys_distinct_elem m k p1 p2 :
  keys_distinct m → (k, p1) ∈ m → (k, p2) ∈ m → p1 = p2.
Proof.
  unfold keys_distinct.
  induction m as [|[k0 p0] m IH]; [by intros _ ?%elem_of_nil|].
  rewrite fmap_cons. cbn [fst].
  intros [Hnotin Hnd]%NoDup_cons [Heq|Hin1]%elem_of_cons [Heq'|Hin2]%elem_of_cons.
  - congruence.
  - injection Heq as -> ->. destruct Hnotin.
    apply list_elem_of_fmap. by exists (k0, p2).
  - injection Heq' as -> ->. destruct Hnotin.
    apply list_elem_of_fmap. by exists (k0, p1).
  - by apply IH.
Qed.

Lemma all_pieces_NoDup room :
  keys_distinct (players room) → pieces_ok room → NoDup (all_pieces room).
Proof.
  intros Hnd Hok. unfold all_pieces. apply NoDup_bind.
  - intros [k1 p1] [k2 p2] l Hin1 Hin2 Hl1 Hl2. cbn [snd] in Hl1, Hl2.
    destruct (pieces_ok_elem _ _ _ Hok Hin1 Hl1) as (_ & Hk1 & _).
    destruct (pieces_ok_elem _ _ _ Hok Hin2 Hl2) as (_ & Hk2 & _).
    cbn [fst] in Hk1, Hk2. assert (k1 = k2) as -> by congruence.
    f_equal. by eapply keys_distinct_elem.
  - intros [k p] Hin. cbn [snd]. unfold pieces_ok in Hok.
    rewrite Forall_forall in Hok. destruct (Hok _ Hin) as (_ & Hids & _).
    by apply NoDup_fmap_1 in Hids.
  - by apply NoDup_fmap_1 in Hnd.
Qed.

(** X12: in every state of a run every piece of every player is an object
    of the heap whose [playerId] is the key of that player and whose
    coordinates are a cell of the board; the pieces of a player have
    pairwise distinct ids, a player has at most 16 of them, and no piece is
    in two lists or twice in one. *)
Theorem pieces_over_a_run (w : World) :
  reachable w →
  (∀ k p l, (k, p) ∈ players (w_room w) → l ∈ player_pieces p →
     (l < length (room_heap (w_room w)))%nat ∧
     piece_playerId (room_heap (w_room w) !!! l) = k ∧
     in_bounds (piece_row (room_heap (w_room w) !!! l))
               (piece_col (room_heap (w_room w) !!! l)) = true) ∧
  (∀ k p, (k, p) ∈ players (w_room w) →
     NoDup ((λ l, piece_id (room_heap (w_room w) !!! l)) <$> player_pieces p) ∧
     (length (player_pieces p) ≤ 16)%nat) ∧
  NoDup (all_pieces (w_room w)).
Proof.
  intros Hre. pose proof (pieces_ok_reachable w Hre) as Hok.
  pose proof (match_invariant_reachable w Hre) as [Hnd _].
  split; [|split].
  - intros k p l Hin Hl. by apply (pieces_ok_elem _ (k, p) l Hok Hin Hl).
  - intros k p Hin. unfold pieces_ok in Hok. rewrite Forall_forall in Hok.
    by destruct (Hok _ Hin) as (_ & ? & ?).
  - by apply all_pieces_NoDup.
Qed.

Lemma pieces_over_a_run_witness :
  (∀ k p l, (k, p) ∈ players (w_room Demo.world_bob_alone) →
     l ∈ player_pieces p →
     (l < length (room_heap (w_room Demo.world_bob_alone)))%nat ∧
     piece_playerId (room_heap (w_room Demo.world_bob_alone) !!! l) = k ∧
     in_bounds (piece_row (room_heap (w_room Demo.world_bob_alone) !!! l))
               (piece_col (room_heap (w_room Demo.world_bob_alone) !!! l))
     = true) ∧
  (∀ k p, (k, p) ∈ players (w_room Demo.world_bob_alone) →
     NoDup ((λ l, piece_id (room_heap (w_room Demo.world_bob_alone) !!! l))
              <$> player_pieces p) ∧
     (length (player_pieces p) ≤ 16)%nat) ∧
  NoDup (all_pieces (w_room Demo.world_bob_alone)).
Proof.
  exact (pieces_over_a_run Demo.world_bob_alone reachable_world_bob_alone).
Defined.

(** X13: in every state of a run the keys of [room.players] are distinct,
    every player is stored under its own [id], the room holds at most
    [MAX_PLAYERS] (20) players, and no two players have the same session
    id. *)
Theorem players_over_a_run (w : World) :
  reachable w →
  NoDup (players (w_room w)).*1 ∧
  Forall (λ kp, player_id kp.2 = kp.1) (players (w_room w)) ∧
  players_size (players (w_room w)) ≤ MAX_PLAYERS ∧
  NoDup (sessions (players (w_room w))).
Proof.
  intros Hre.
  destruct (membership_reachable w Hre) as (Hnd & Hsize & Hall & Hsess).
  split; [done|]. split; [|done].
  eapply Forall_impl; [exact Hall|]. by intros kp [? _].
Qed.

Lemma players_over_a_run_witness :
  NoDup (players (w_room Demo.world_started)).*1 ∧
  Forall (λ kp, player_id kp.2 = kp.1) (players (w_room Demo.world_started)) ∧
  players_size (players (w_room Demo.world_started)) ≤ MAX_PLAYERS ∧
  NoDup (sessions (players (w_room Demo.world_started))).
Proof.
  exact (players_over_a_run Demo.world_started reachable_world_started).
Defined.

(** X14: in every state of a run at most one player has the admin flag, and
    that player is the one whose id [room.admin] holds. *)
Theorem at_most_one_admin (w : World) :
  reachable w →
  ∀ kp kp',
    kp ∈ players (w_room w) → kp' ∈ players (w_room w) →
    player_isAdmin kp.2 = true → player_isAdmin kp'.2 = true →
    kp = kp' ∧ admin (w_room w) = Some (player_id kp.2).
Proof.
  intros Hre [k p] [k' p'] Hin Hin' Ha Ha'. cbn [snd] in *.
  destruct (membership_reachable w Hre) as (Hnd & _ & Hall & _).
  rewrite Forall_forall in Hall.
  destruct (Hall _ Hin) as [Hid Hadm]. destruct (Hall _ Hin') as [_ Hadm'].
  cbn [fst snd] in *. specialize (Hadm Ha). specialize (Hadm' Ha').
  assert (k = k') as <- by congruence.
  split; [|by rewrite Hid]. f_equal. by eapply keys_distinct_elem.
Qed.

Lemma at_most_one_admin_witness :
  ∃ kp, kp ∈ players (w_room Demo.world_lobby) ∧
        player_isAdmin kp.2 = true ∧
        admin (w_room Demo.world_lobby) = Some (player_id kp.2).
Proof.
  assert (∃ kp rest, players (w_room Demo.world_lobby) = kp :: rest ∧
                     player_isAdmin kp.2 = true) as (kp & rest & Hps & Hadm).
  { vm_compute. eexists _, _. split; reflexivity. }
  assert (kp ∈ players (w_room Demo.world_lobby)) as Hin.
  { rewrite Hps. apply list_elem_of_here. }
  exists kp. split; [exact Hin|]. split; [exact Hadm|].
  exact (proj2 (at_most_one_admin Demo.world_lobby reachable_world_lobby
                  kp kp Hin Hin Hadm Hadm)).
Defined.




(** ** Starting a match, ending it, and what the snapshot shows *)

Lemma spawned_at_freshly room r kp kp' :
  spawned_at room r kp kp' → freshly_spawned r kp kp'.
Proof.
  intros (Hk & base & spawn & g0 & Hp & _ & Hheap).
  split; [done|]. rewrite Hp. cbn [player_alive player_pieces set_pieces].
  split; [done|]. split; [by rewrite length_seq|].
  set (pcs := (createPlayerPieces kp.1 spawn.1 spawn.2 g0).1) in *.
  assert (length pcs = 16%nat) as Hlen by apply createPlayerPieces_length.
  assert (∀ i, (i < 16)%nat →
            ∃ pc, pcs !! i = Some pc ∧ room_heap r !! (base + i)%nat = Some pc
                  ∧ room_heap r !!! (base + i)%nat = pc) as Hat.
  { intros i Hi. destruct (lookup_lt_is_Some_2 pcs i) as [pc Hpc]; [lia|].
    exists pc. split; [done|]. rewrite Hheap, Hpc by done. split; [done|].
    apply list_lookup_total_correct. by rewrite Hheap. }
  split; [|split; [done|]].
  - apply Forall_forall. intros l [Hge Hlt]%elem_of_seq.
    destruct (Hat (l - base)%nat) as (pc & Hpc & Hl & Hl'); [lia|].
    replace (base + (l - base))%nat with l in Hl, Hl' by lia.
    apply createPlayerPieces_lookup in Hpc as (ty & dr & dc & color & _ & Hpc).
    split; [split; [by eapply lookup_lt_Some|]|]; rewrite Hl', Hpc; cbn;
      [split; [done|apply clamp_in_bounds]|done].
  - destruct (Hat 0%nat) as (pc & Hpc & _ & Hl'); [lia|].
    rewrite Nat.add_0_r in Hl'.
    apply createPlayerPieces_lookup in Hpc as (ty & dr & dc & color & Hty & Hpc).
    injection Hty as <- <- <-.
    unfold find_king. cbn [seq find head]. rewrite Hl', Hpc. cbn [piece_type].
    by rewrite bool_decide_eq_true_2.
Qed.

(** X16: [start_game] starts a match exactly when the caller is a player of
    the room with the admin flag, the room is in the lobby and has at least
    two players.  Otherwise the room is left as it is and the caller gets
    at most an [error] event.  When it starts, the phase becomes [playing],
    the shrink interval is set and stored in the room, [game_started] goes
    to the room, and every player keeps its [alive] flag and gets exactly
    16 pieces of its own, on cells of the board and free to move, the first
    of which is the king. *)
Theorem on_start_game_starts (handle : nat) (g : Rand) (room : Room)
    (socket : Socket) :
  (¬ may_start room socket →
   ∃ effs,
     on_start_game handle g room socket = Some (room, effs) ∧
     Forall (λ e, ∃ msg, e = Emit (to_socket (socket_id socket))
                                  (error_event msg)) effs) ∧
  (may_start room socket → unit_interval g → keys_distinct (players room) →
   ∃ r,
     on_start_game handle g room socket
     = Some (r, [SetInterval handle 1000;
                 Emit (to_room (room_id room)) game_started]) ∧
     phase r = playing ∧ shrinkInterval r = Some handle ∧
     Forall2 (freshly_spawned r) (players room) (players r)).
Proof.
  split.
  - intros Hno. unfold may_start in Hno. unfold on_start_game.
    destruct (socket_room room socket); cbn [negb];
      [|exists []; by split; [|constructor]].
    destruct (socket_player room socket) as [player|];
      [|eexists; split; [done|]; repeat constructor; eauto].
    destruct (player_isAdmin player) eqn:Hadm; cbn [negb];
      [|eexists; split; [done|]; repeat constructor; eauto].
    case_bool_decide as Hphase;
      [eexists; split; [done|]; repeat constructor; eauto|].
    destruct (_ <? _) eqn:Hsize;
      [eexists; split; [done|]; repeat constructor; eauto|].
    destruct Hno. split; [done|]. split; [by exists player|]. split; [done|lia].
  - intros (Hroom & (player & Hplayer & Hadm) & Hlobby & Hsize) Hg Hnd.
    unfold on_start_game. rewrite Hroom, Hplayer, Hadm. cbn [negb].
    rewrite bool_decide_eq_false_2 by (by intros ?).
    destruct (_ <? _) eqn:Hlt; [lia|].
    unfold spawnPlayers, generateSpawnPositions. cbn [players set_phase].
    destruct (spawn_positions_loop_spec
                (Z.to_nat (players_size (players room))) [] g Hg)
      as (ps & Hps & Hlen & _); [by intros i p Hi|].
    destruct (spawn_positions_loop _ [] g) as [o g1]. cbn [fst] in Hps. subst o.
    unfold players_size in Hlen. rewrite Nat2Z.id in Hlen. cbn in Hlen.
    pose proof (same_settings_spawn_loop (players room) ps 0
                  (set_phase playing room) g1) as Hs.
    apply same_settings_fields in Hs. cbn in Hs.
    destruct Hs as (Hid & Hphase & _).
    destruct (spawn_loop_players (players room) [] ps 0
                (set_phase playing room) g1)
      as (new & entries' & _ & Hpl & Hall); [done|done|lia|].
    cbn [app] in Hpl.
    destruct (spawn_loop (players room) ps 0 (set_phase playing room) g1)
      as [r0 g2]. cbn [fst] in *.
    exists (set_shrinkInterval (Some handle) r0).
    cbn [startShrinkTimer app room_id set_shrinkInterval phase shrinkInterval
         players room_heap].
    rewrite Hid. split; [done|]. split; [done|]. split; [done|].
    rewrite Hpl. eapply Forall2_impl; [exact Hall|].
    intros kp kp'. apply spawned_at_freshly.
Qed.

Lemma on_start_game_starts_witness :
  ∃ r,
    on_start_game 7 (replay [0%Q; 0%Q; 0%Q; 1 # 2]) Demo.lobby_room Demo.alice
    = Some (r, [SetInterval 7 1000;
                Emit (to_room (room_id Demo.lobby_room)) game_started]) ∧
    phase r = playing ∧ shrinkInterval r = Some 7%nat ∧
    Forall2 (freshly_spawned r) (players Demo.lobby_room) (players r).
Proof.
  apply (proj2 (on_start_game_starts 7 (replay [0%Q; 0%Q; 0%Q; 1 # 2])
                  Demo.lobby_room Demo.alice)).
  - split; [by vm_compute|]. split; [|split; [by vm_compute|by vm_compute]].
    eexists. split; [by vm_compute|by vm_compute].
  - unit_interval_replay.
  - apply (bool_decide_unpack (NoDup _)). by vm_compute.
Defined.

(** *** Win detection on the move path *)

(** X17: after a move that is carried out, the match has ended exactly when
    at most one player is left alive with pieces.  Then the phase is
    [ended], the shrink interval stored in the room is cleared, and
    [game_ended] goes to the room with the name of the first such player,
    or [null] when there is none.  Otherwise the phase is still [playing]
    and no [game_ended] is emitted. *)
Theorem move_ends_match (now : Z) (room : Room) (socket : Socket)
    (data : MoveData) (piece : nat) (r : Room) (effs : list Effect) :
  validated_move room socket data piece →
  on_move_piece now room socket data = Some (r, effs) →
  (phase r = ended ↔ (length (alivePlayers r) ≤ 1)%nat) ∧
  (phase r = ended →
   Emit (to_room (room_id room))
        (game_ended (player_name <$> head (alivePlayers r))) ∈ effs ∧
   shrinkInterval r = shrinkInterval room ∧
   ∀ h, shrinkInterval room = Some h → ClearInterval h ∈ effs) ∧
  (phase r ≠ ended →
   phase r = playing ∧ ∀ t winner, Emit t (game_ended winner) ∉ effs).
Proof.
  intros Hval Hmove. pose proof Hval as (_ & Hplaying & _).
  rewrite (on_move_piece_validated now room socket data piece Hval) in Hmove.
  destruct (executeMove now room piece _ _) as [[r0 effs0]|] eqn:Hex;
    cbn [mbind option_bind] in Hmove; [|done].
  injection Hmove as <- <-. cbn [fst snd].
  pose proof (same_settings_executeMove _ _ _ _ _ _ _ Hex) as Hs.
  apply same_settings_fields in Hs.
  destruct Hs as (Hid & Hphase & _ & _ & _ & Hsi & _).
  apply executeMove_inv in Hex as (_ & _ & _ & _ & _ & Heffs0 & _).
  destruct (checkGameEnd_inv r0) as [[Hle ->]|[Hlt ->]]; cbn [fst snd].
  - rewrite alivePlayers_set_phase. cbn [phase set_phase shrinkInterval].
    split; [done|]. split; [|done]. intros _. rewrite Hid, Hsi.
    split; [|split; [done|]].
    + apply elem_of_app. right. apply elem_of_cons. right.
      apply elem_of_app. right. by left.
    + intros h ->. apply elem_of_app. right. apply elem_of_cons. right.
      apply elem_of_app. left. by left.
  - rewrite Hphase, Hplaying. split; [split; [done|lia]|]. split; [done|].
    intros _. split; [done|]. intros t winner.
    rewrite elem_of_app. subst effs0.
    intros [Hin|Hin%list_elem_of_singleton]; [|done].
    case_bool_decide; [by apply list_elem_of_singleton in Hin|].
    by apply elem_of_nil in Hin.
Qed.

Lemma move_ends_match_witness :
  ∃ r effs,
    on_move_piece 10 Demo.started Demo.alice
      (mkMoveData Demo.alice_king 5 5 0 5) = Some (r, effs) ∧
    (phase r = ended ↔ (length (alivePlayers r) ≤ 1)%nat) ∧
    (phase r ≠ ended →
     phase r = playing ∧ ∀ t winner, Emit t (game_ended winner) ∉ effs).
Proof.
  set (data := mkMoveData Demo.alice_king 5 5 0 5).
  destruct (on_move_piece 10 Demo.started Demo.alice data)
    as [[r effs]|] eqn:Hmove; [|by vm_compute in Hmove].
  exists r, effs. split; [done|].
  assert (validated_move Demo.started Demo.alice data 0) as Hval.
  { split; [by vm_compute|]. split; [by vm_compute|].
    exists (default inhabitant (socket_player Demo.started Demo.alice)),
           "player_1_0/1".
    repeat split; by vm_compute. }
  destruct (move_ends_match 10 Demo.started Demo.alice data 0 r effs Hval Hmove)
    as (H1 & _ & H3).
  by split.
Defined.

(** *** The snapshot *)

(** X18: the [gameState] snapshot holds no position.  After [executeMove] it
    is the snapshot of the room from which the captured piece, if any, has
    been removed; a move on to a free cell leaves the snapshot as it was. *)
Theorem executeMove_snapshot (now : Z) (room : Room) (piece : nat)
    (toRow toCol : Z) (r : Room) (effs : list Effect) :
  executeMove now room piece toRow toCol = Some (r, effs) →
  serializeGameState r
  = serializeGameState
      (match delete (origin room piece) (board room) !! (toRow, toCol) with
       | Some cp => removePieceFromGame room cp
       | None => room
       end).
Proof.
  intros Hex. pose proof (same_settings_executeMove _ _ _ _ _ _ _ Hex) as Hs.
  apply same_settings_fields in Hs.
  destruct Hs as (_ & Hp & Hw & Hdz & Ht & _ & Htu & _).
  apply executeMove_inv in Hex as (_ & _ & _ & Hpl & _).
  unfold serializeGameState. rewrite Hpl, Hp, Hw, Hdz, Ht, Htu.
  destruct (delete _ _ !! _) as [cp|]; [|done].
  pose proof (same_settings_removePieceFromGame room cp) as Hs.
  apply same_settings_fields in Hs. destruct_and!. by f_equal.
Qed.

Lemma executeMove_snapshot_witness :
  ∃ r effs,
    executeMove 10 Demo.started 0 0 5 = Some (r, effs) ∧
    serializeGameState r
    = serializeGameState
        (match delete (origin Demo.started 0) (board Demo.started) !! (0, 5) with
         | Some cp => removePieceFromGame Demo.started cp
         | None => Demo.started
         end).
Proof.
  destruct (executeMove 10 Demo.started 0 0 5) as [[r effs]|] eqn:Hex;
    [|by vm_compute in Hex].
  exists r, effs. split; [done|].
  exact (executeMove_snapshot 10 Demo.started 0 0 5 r effs Hex).
Defined.

(** ** Removing a player, and the events that keep the board and the lists in step *)

Lemma clear_cells_lookup h b ls b' :
  clear_cells h b ls = Some b' →
  ∀ rc, b' !! rc = if decide (rc ∈ cells h ls) then None else b !! rc.
Proof.
  unfold cells. revert b. induction ls as [|l ls IH]; intros b;
    cbn [clear_cells].
  { intros [= <-] rc. rewrite decide_False; [done|]. by intros ?%elem_of_nil. }
  unfold board_set. destruct (in_bounds _ _); cbn [mbind option_bind]; [|done].
  intros Hb rc. rewrite (IH _ Hb rc), fmap_cons. unfold cell at 2.
  destruct (decide (rc = (piece_row (h !!! l), piece_col (h !!! l)))) as [->|Hne].
  - rewrite lookup_delete_eq. rewrite (decide_True (P := _ ∈ _ :: _)) by (by left).
    by case_decide.
  - rewrite lookup_delete_ne by done.
    destruct (decide (rc ∈ (λ l0, cell (h !!! l0)) <$> ls)) as [Hin|Hnotin].
    + by rewrite decide_True by (by right).
    + rewrite decide_False; [done|]. by intros [?|?]%elem_of_cons.
Qed.

Lemma players_get_of_elem k p m :
  keys_distinct m → (k, p) ∈ m → players_get k m = Some p.
Proof.
  intros Hnd Hin. destruct (players_get k m) as [p'|] eqn:Hget.
  - f_equal. apply players_get_elem in Hget. by eapply keys_distinct_elem.
  - apply players_get_None in Hget. destruct Hget.
    apply list_elem_of_fmap. by exists (k, p).
Qed.


Lemma players_get_delete_ne k k' m :
  k ≠ k' → players_get k' (players_delete k m) = players_get k' m.
Proof.
  intros Hne. induction m as [|[k0 p0] m IH]; [done|].
  cbn [players_delete players_get]. case_decide as Hk.
  - subst k0. by rewrite decide_False.
  - cbn [players_get]. by rewrite IH.
Qed.

Lemma players_get_delete k m :
  keys_distinct m → players_get k (players_delete k m) = None.
Proof. intros Hnd. by apply players_get_None, players_delete_key. Qed.

(** X19: [removePlayer] of a player of the room deletes that player and
    nobody else, in place; empties the cells on which the pieces of the
    player stand and no other cell; and, when the player was the admin,
    hands the admin rights to the first player that remains (flag set,
    [room.admin] updated).  When nobody remains, [room.admin] goes on naming
    the player that was removed. *)
Theorem removePlayer_removes (room : Room) (playerId : string) (p : Player)
    (r : Room) :
  keys_distinct (players room) →
  players_get playerId (players room) = Some p →
  removePlayer room playerId = Some r →
  players_get playerId (players r) = None ∧
  (players r).*1 = (players_delete playerId (players room)).*1 ∧
  (∀ k q, k ≠ playerId → players_get k (players room) = Some q →
     ∃ q', players_get k (players r) = Some q' ∧
           (q' = q ∨ q' = set_isAdmin true q)) ∧
  (∀ rc, board r !! rc
         = if decide (rc ∈ cells (room_heap room) (player_pieces p))
           then None else board room !! rc) ∧
  match players r with
  | [] => admin r = admin room
  | (k, q) :: _ =>
      if decide (admin room = Some playerId)
      then admin r = Some (player_id q) ∧ player_isAdmin q = true
      else admin r = admin room
  end.
Proof.
  intros Hnd Hget Hrm.
  apply removePlayer_inv in Hrm as [[Hnone _]|(p' & b & Hget' & Hb & ->)];
    [congruence|].
  assert (p' = p) as -> by congruence.
  cbn [players admin board set_admin set_players set_board].
  unfold without_player, admin_after.
  pose proof (players_get_delete playerId _ Hnd) as Hgone.
  assert (∀ k, k ≠ playerId →
               players_get k (players_delete playerId (players room))
               = players_get k (players room)) as Hkept.
  { intros k Hne. by apply players_get_delete_ne. }
  destruct (players_delete playerId (players room)) as [|[k0 q0] rest] eqn:Hdel.
  { split; [done|]. split; [done|]. split.
    - intros k q Hne Hq. rewrite <- (Hkept k Hne) in Hq. done.
    - split; [by apply clear_cells_lookup|done]. }
  assert (k0 ≠ playerId) as Hk0.
  { intros ->. cbn [players_get] in Hgone. by rewrite decide_True in Hgone. }
  case_bool_decide as Hadm.
  - split; [cbn [players_get] in *; by rewrite decide_False in * by done|].
    split; [done|]. split.
    + intros k q Hne Hq. rewrite <- (Hkept k Hne) in Hq.
      cbn [players_get] in *. case_decide; [|eauto].
      injection Hq as ->. eauto.
    + split; [by apply clear_cells_lookup|]. by rewrite decide_True.
  - split; [done|]. split; [done|]. split.
    + intros k q Hne Hq. rewrite <- (Hkept k Hne) in Hq. eauto.
    + split; [by apply clear_cells_lookup|]. by rewrite decide_False.
Qed.

Lemma removePlayer_removes_witness :
  ∃ p r,
    players_get "player_2_0/1" (players (w_room Demo.world_bob_disconnected))
    = Some p ∧
    removePlayer (w_room Demo.world_bob_disconnected) "player_2_0/1" = Some r ∧
    players_get "player_2_0/1" (players r) = None ∧
    (∀ rc, board r !! rc
           = if decide (rc ∈ cells (room_heap (w_room Demo.world_bob_disconnected))
                                   (player_pieces p))
             then None else board (w_room Demo.world_bob_disconnected) !! rc).
Proof.
  set (room := w_room Demo.world_bob_disconnected).
  destruct (players_get "player_2_0/1" (players room)) as [p|] eqn:Hget;
    [|by vm_compute in Hget].
  destruct (removePlayer room "player_2_0/1") as [r|] eqn:Hrm;
    [|by vm_compute in Hrm].
  exists p, r. split; [done|]. split; [done|].
  assert (keys_distinct (players room)) as Hnd.
  { apply (bool_decide_unpack (NoDup _)). by vm_compute. }
  destruct (removePlayer_removes room "player_2_0/1" p r Hnd Hget Hrm)
    as (H1 & _ & _ & H4 & _).
  by split.
Defined.

(** *** Duality *)







(** ** Duality is kept by moves and removals *)











(** ** The grace period after a disconnect *)

Lemma sessions_elem m kp kp' :
  NoDup (sessions m) → kp ∈ m → kp' ∈ m →
  player_sessionId kp.2 = player_sessionId kp'.2 → kp = kp'.
Proof.
  unfold sessions. induction m as [|x m IH]; [by intros _ ?%elem_of_nil|].
  rewrite fmap_cons.
  intros [Hnotin Hnd]%NoDup_cons [->|Hin]%elem_of_cons [->|Hin']%elem_of_cons Heq.
  - done.
  - destruct Hnotin. apply list_elem_of_fmap. by exists kp'.
  - destruct Hnotin. apply list_elem_of_fmap. by exists kp.
  - by apply IH.
Qed.

Lemma players_get_without adm k m :
  keys_distinct m → players_get k (without_player adm k m) = None.
Proof.
  intros Hnd. pose proof (players_get_delete k m Hnd) as Hgone.
  unfold without_player.
  destruct (players_delete k m) as [|[k0 q0] rest]; [done|].
  case_bool_decide; [|done]. cbn [players_get] in *. by case_decide.
Qed.

(** X21: when a socket bound to a player of the room disconnects, the
    player is marked as disconnected and one removal timer of five minutes
    is set.  If the timer were to fire on that room, it would remove the
    player and tell the room; once a [join_room] with the session of the
    player has been accepted, the timer leaves the room as it is and says
    nothing.  (Sessions are unique in a room, so the reconnect finds that
    player and no other.) *)
Theorem disconnect_grace_period (w : World) (socket : Socket) (k : string)
    (p : Player) (room1 : Room) (effs : list Effect) :
  reachable w →
  socket_room (w_room w) socket = true →
  socket_playerId socket = Some k → k ≠ "" →
  players_get k (players (w_room w)) = Some p →
  on_disconnect (w_now w) (w_room w) socket = (room1, effs) →
  effs = [Emit (to_others (room_id (w_room w)) (socket_id socket))
               (player_disconnected k (player_name p));
          SetTimeout (removal_timeout k) 300000] ∧
  players_get k (players room1)
  = Some (set_disconnectedAt (w_now w) (set_connected false p)) ∧
  (∃ r2, run_callback room1 (removal_timeout k)
         = Some (r2, [Emit (to_room (room_id (w_room w))) (player_removed k)]) ∧
         players_get k (players r2) = None) ∧
  (∀ now g socket' data room2 socket2 effs2,
     join_sessionId data = player_sessionId p →
     ¬ (join_isAdmin data = true ∧ join_adminPassword data ≠ ADMIN_PASSWORD) →
     on_join_room now g (Some room1) socket' data = (Some room2, socket2, effs2) →
     run_callback room2 (removal_timeout k) = Some (room2, [])).
Proof.
  intros Hre Hroom Hsock Hk Hget Hdis.
  assert (reachable (commit w room1 effs)) as Hre1.
  { apply (reachable_step w); [done|]. by eapply step_disconnect. }
  pose proof (membership_reachable _ Hre1) as (Hnd1 & _ & _ & Hsess1).
  pose proof (pieces_ok_reachable _ Hre1) as Hok1.
  rewrite (proj1 (commit_spec w room1 effs)) in Hnd1, Hsess1, Hok1.
  unfold on_disconnect in Hdis. rewrite Hsock, Hroom, Hget in Hdis.
  rewrite bool_decide_true in Hdis by done. cbn [andb] in Hdis.
  injection Hdis as <- <-.
  cbn [players set_players room_id player_name set_disconnectedAt set_connected]
    in *.
  set (p1 := set_disconnectedAt (w_now w) (set_connected false p)) in *.
  split; [done|]. split; [apply players_get_set|]. split.
  - cbn [run_callback]. unfold removal_callback. cbn [players set_players].
    rewrite players_get_set. cbn [player_connected p1 negb].
    destruct (removePlayer_total _ k Hok1) as [r2 Hrm]. rewrite Hrm.
    cbn [mbind option_bind].
    apply removePlayer_inv in Hrm as [[Hnone _]|(p' & b & _ & _ & ->)].
    { cbn [players set_players] in Hnone. by rewrite players_get_set in Hnone. }
    eexists. split; [done|]. cbn [players set_players set_admin].
    by apply players_get_without.
  - intros now g socket' data room2 socket2 effs2 Hsid Hpw Hjoin.
    assert ((k, p1) ∈ players_set k p1 (players (w_room w))) as Hin1
      by apply players_get_elem, players_get_set.
    unfold on_join_room in Hjoin. cbv zeta in Hjoin.
    assert (join_isAdmin data
            && bool_decide (join_adminPassword data ≠ ADMIN_PASSWORD) = false)
      as Hpw'.
    { destruct (join_isAdmin data); [|done]. cbn [andb].
      apply bool_decide_eq_false. intros ?. by apply Hpw. }
    rewrite Hpw' in Hjoin. cbn [players set_players] in Hjoin.
    destruct (reconnect_player _ _ _) as [[q m]|] eqn:Hrec.
    + injection Hjoin as <- _ _.
      apply reconnect_player_Some in Hrec
        as (before & k' & after & Hm & _ & Hq & ->).
      assert ((k', q) ∈ players_set k p1 (players (w_room w))) as Hin'.
      { rewrite Hm. apply elem_of_app. right. by left. }
      assert ((k', q) = (k, p1)) as [= -> ->].
      { apply (sessions_elem _ _ _ Hsess1 Hin' Hin1). cbn [snd].
        by rewrite Hq, Hsid. }
      cbn [run_callback]. unfold removal_callback.
      cbn [players set_players set_lastActivity].
      rewrite (players_get_of_elem k
                 (set_connected true (set_socketId (socket_id socket') p1))).
      * done.
      * unfold keys_distinct in *. rewrite Hm in Hnd1.
        by rewrite !fmap_app, !fmap_cons in *.
      * apply elem_of_app. right. by left.
    + apply reconnect_player_None in Hrec. unfold unknown_session in Hrec.
      rewrite Forall_forall in Hrec. destruct (Hrec _ Hin1). cbn [snd].
      by rewrite Hsid.
Qed.

Lemma disconnect_grace_period_witness :
  ∃ r2,
    run_callback (w_room Demo.world_bob_disconnected)
                 (removal_timeout "player_2_0/1")
    = Some (r2, [Emit (to_room "r") (player_removed "player_2_0/1")]) ∧
    players_get "player_2_0/1" (players r2) = None.
Proof.
  set (w := Demo.at_time 30 Demo.world_started).
  destruct (players_get "player_2_0/1" (players (w_room w))) as [p|] eqn:Hget;
    [|by vm_compute in Hget].
  destruct (on_disconnect (w_now w) (w_room w) Demo.bob) as [room1 effs] eqn:Hdis.
  assert (room1 = w_room Demo.world_bob_disconnected) as Hroom1.
  { unfold Demo.world_bob_disconnected, Demo.disconnect. fold w.
    rewrite Hdis. by rewrite (proj1 (commit_spec w room1 effs)). }
  assert (room_id (w_room w) = "r") as Hid by (by vm_compute).
  rewrite <- Hroom1, <- Hid.
  apply (disconnect_grace_period w Demo.bob "player_2_0/1" p room1 effs).
  - apply reachable_at_time; [apply reachable_world_started|by vm_compute].
  - by vm_compute.
  - by vm_compute.
  - done.
  - exact Hget.
  - exact Hdis.
Defined.

(** ** The shrink schedule *)

Lemma tick_all_app gs1 gs2 room :
  tick_all (gs1 ++ gs2) room = tick_all gs1 room ≫= tick_all gs2.
Proof.
  revert room. induction gs1 as [|g gs1 IH]; intros room; cbn [tick_all app];
    [done|].
  destruct (shrink_tick room g) as [[r effs]|]; cbn [mbind option_bind]; [|done].
  apply IH.
Qed.

Lemma set_shrinkTimer_same t room :
  t = shrinkTimer room → set_shrinkTimer t room = room.
Proof. intros ->. by destruct room. Qed.

Lemma tick_all_countdown gs room :
  phase room = playing →
  Z.of_nat (length gs) < shrinkTimer room →
  tick_all gs room
  = Some (set_shrinkTimer (shrinkTimer room - Z.of_nat (length gs)) room).
Proof.
  revert room. induction gs as [|g gs IH]; intros room Hphase Hlen;
    cbn [tick_all length] in *.
  { rewrite set_shrinkTimer_same; [done|]. cbn. lia. }
  unfold shrink_tick. rewrite bool_decide_false by (by intros []).
  cbn [shrinkTimer set_shrinkTimer].
  destruct (shrinkTimer room - 1 <=? 0) eqn:Ht; [lia|].
  cbn [mbind option_bind]. rewrite IH; [|done|cbn; lia].
  cbn [shrinkTimer set_shrinkTimer].
  replace (shrinkTimer room - 1 - Z.of_nat (length gs))
    with (shrinkTimer room - Z.of_nat (S (length gs))) by lia.
  done.
Qed.

Lemma shrink_tick_shrinking room g r effs :
  phase room = playing → shrinkTimer room = 1 →
  shrink_tick room g = Some (r, effs) →
  phase r = playing ∧ shrinkTimer r = 1 ∧
  ∃ r0 g', shrinkBoard (set_shrinkTimer 0 room) g = Some (r0, g') ∧
           r = set_shrinkTimer 1 r0.
Proof.
  intros Hphase Ht Htick.
  apply shrink_tick_inv in Htick
    as [[? _]|(_ & _ & [[? _]|(_ & r0 & g' & Hshrink & ->)])]; [done|lia|].
  rewrite Ht in Hshrink. change (1 - 1) with 0 in Hshrink.
  pose proof Hshrink as Hs. unfold shrinkBoard in Hs.
  apply shrink_loop_settings in Hs as (Hs & _).
  apply same_settings_fields in Hs. destruct Hs as (_ & Hp & _).
  cbn in Hp. split; [cbn; congruence|]. split; [done|]. by exists r0, g'.
Qed.

Lemma tick_all_shrinking gs room r :
  phase room = playing → shrinkTimer room = 1 →
  tick_all gs room = Some r →
  phase r = playing ∧ shrinkTimer r = 1.
Proof.
  revert room. induction gs as [|g gs IH]; intros room Hphase Ht;
    cbn [tick_all].
  { by intros [= <-]. }
  destruct (shrink_tick room g) as [[r1 effs]|] eqn:Htick;
    cbn [mbind option_bind]; [|done].
  destruct (shrink_tick_shrinking _ _ _ _ Hphase Ht Htick) as (Hp1 & Ht1 & _).
  by apply IH.
Qed.

(** X22: the schedule of the shrink events of a match.  From the timer at
    60, the first 59 ticks only count down, so the first shrink event is
    that of the 60th tick; and after 59 ticks or more the timer is at 1 and
    stays there, so the 60th tick and every tick after it is a shrink event:
    one a second. *)
Theorem shrink_schedule (room : Room) (gs : list Rand) :
  phase room = playing → shrinkTimer room = 60 →
  ((length gs < 60)%nat →
   tick_all gs room
   = Some (set_shrinkTimer (60 - Z.of_nat (length gs)) room)) ∧
  (∀ r, (59 ≤ length gs)%nat → tick_all gs room = Some r →
     phase r = playing ∧ shrinkTimer r = 1 ∧
     ∀ g r' effs, shrink_tick r g = Some (r', effs) →
       ∃ r0 g', shrinkBoard (set_shrinkTimer 0 r) g = Some (r0, g') ∧
                r' = set_shrinkTimer 1 r0).
Proof.
  intros Hphase Ht. split.
  - intros Hlen. rewrite tick_all_countdown by (done || lia). by rewrite Ht.
  - intros r Hlen Hticks.
    rewrite <- (take_drop 59 gs), tick_all_app in Hticks.
    rewrite tick_all_countdown in Hticks
      by (done || rewrite length_take; lia).
    cbn [mbind option_bind] in Hticks.
    apply tick_all_shrinking in Hticks as [Hp Ht1];
      [|done|cbn; rewrite length_take; lia].
    split; [done|]. split; [done|]. intros g r' effs Htick.
    by destruct (shrink_tick_shrinking _ _ _ _ Hp Ht1 Htick) as (_ & _ & ?).
Qed.

Lemma shrink_schedule_witness :
  tick_all (replicate 59 (replay [])) Demo.started
  = Some (set_shrinkTimer (60 - Z.of_nat (length (replicate 59 (replay []))))
            Demo.started).
Proof.
  apply (shrink_schedule Demo.started (replicate 59 (replay []))).
  - by vm_compute.
  - by vm_compute.
  - rewrite length_replicate. lia.
Defined.

(** ** The sweep of old rooms *)

Lemma sweep_lookup now gameRooms roomId room :
  sweep now (<[roomId := room]> gameRooms) !! roomId
  = if decide (24 * 60 * 60 * 1000 < now - lastActivity room)
    then None else Some room.
Proof.
  unfold sweep. case_decide as Hs.
  - apply map_lookup_filter_None. right. intros r.
    rewrite lookup_insert, decide_True by done. intros [= <-] Hn. by apply Hn.
  - apply map_lookup_filter_Some. split; [|done].
    by rewrite lookup_insert, decide_True.
Qed.

Lemma same_settings_record room r : same_settings room r → same_record room r.
Proof.
  intros Hs. apply same_settings_fields in Hs. unfold same_record.
  by destruct_and!.
Qed.

Lemma on_join_room_record now g room socket data r socket' effs :
  on_join_room now g (Some room) socket data = (Some r, socket', effs) →
  room_id r = room_id room ∧ createdAt r = createdAt room ∧
  ((rejected_join room data ∧ r = room) ∨
   (¬ rejected_join room data ∧ lastActivity r = now)).
Proof.
  unfold rejected_join, on_join_room. cbv zeta.
  destruct (join_isAdmin data
            && bool_decide (join_adminPassword data ≠ ADMIN_PASSWORD)) eqn:Hpw.
  { intros [= <- <- <-]. split; [done|]. split; [done|]. left.
    split; [|done]. left.
    by apply andb_true_iff in Hpw as [? ?%bool_decide_eq_true]. }
  assert (¬ (join_isAdmin data = true
             ∧ join_adminPassword data ≠ ADMIN_PASSWORD)) as Hnpw.
  { intros [Ha Hp]. rewrite Ha in Hpw. cbn [andb] in Hpw.
    by apply bool_decide_eq_false in Hpw. }
  clear Hpw.
  pose proof (reconnect_player_None (join_sessionId data) (socket_id socket)
                (players room)) as Hiff.
  destruct (reconnect_player _ _ (players room)) as [[q m]|] eqn:Hre.
  { intros [= <- <- <-]. split; [done|]. split; [done|]. right.
    split; [|done]. intros [?|[Hu _]]; [done|]. by apply Hiff in Hu. }
  pose proof (proj1 Hiff eq_refl) as Hu.
  destruct (_ >=? _) eqn:Hfull.
  { intros [= <- <- <-]. split; [done|]. split; [done|]. left.
    split; [|done]. right. split; [done|]. left. lia. }
  case_bool_decide as Hphase.
  { intros [= <- <- <-]. split; [done|]. split; [done|]. left.
    split; [|done]. right. split; [done|]. by right. }
  destruct (random g) as [q g']. intros [= <- <- <-].
  split; [by destruct (_ && _)|]. split; [by destruct (_ && _)|]. right.
  split; [|by destruct (_ && _)].
  intros [?|[_ [?|?]]]; [done|lia|done].
Qed.

Lemma on_start_game_record handle g room socket r effs :
  on_start_game handle g room socket = Some (r, effs) → same_record room r.
Proof.
  intros Hstart. apply on_start_game_inv in Hstart
    as [[-> _]|(player & ps & g1 & _ & _ & _ & _ & _ & _ & -> & _)]; [done|].
  pose proof (same_settings_spawn_loop (players room) ps 0
                (set_phase playing room) g1) as Hs.
  apply same_settings_record in Hs. by destruct Hs as (? & ? & ?).
Qed.

Lemma on_move_piece_record now room socket data r effs :
  on_move_piece now room socket data = Some (r, effs) → same_record room r.
Proof.
  intros Hmove. apply on_move_piece_match in Hmove
    as [[-> _]|(_ & r0 & effs0 & moved & Hs & _ & -> & _)]; [done|].
  apply same_settings_record in Hs.
  by destruct (checkGameEnd_inv r0) as [[_ ->]|[_ ->]].
Qed.

Lemma on_reset_game_record g room socket r effs :
  on_reset_game g room socket = (r, effs) → same_record room r.
Proof.
  intros Hreset. apply on_reset_game_inv in Hreset
    as [[-> _]|(player & _ & _ & _ & -> & _)]; [done|].
  unfold resetGame. cbv zeta. by destruct (generateWoods g).
Qed.

Lemma run_callback_record room cb r effs :
  run_callback room cb = Some (r, effs) → same_record room r.
Proof.
  destruct cb as [piece|playerId]; cbn [run_callback].
  - by intros [= <- <-].
  - intros Hcb. apply removal_callback_inv in Hcb
      as [[-> _]|(p & _ & _ & Hrm & _)]; [done|].
    by apply removePlayer_inv in Hrm as [[_ ->]|(p' & b & _ & _ & ->)].
Qed.

Lemma shrink_tick_record room g r effs :
  shrink_tick room g = Some (r, effs) → same_record room r.
Proof.
  intros Htick. apply shrink_tick_inv in Htick
    as [(_ & -> & _)|(_ & _ & [[_ ->]|(_ & r0 & g' & Hshrink & ->)])];
    [done|done|].
  unfold shrinkBoard in Hshrink.
  apply shrink_loop_settings in Hshrink as (Hs & _).
  by apply same_settings_record in Hs.
Qed.

(** X23: [room.lastActivity] is the time of the last [join_room] that was
    accepted, and of nothing else.  A turn of the event loop keeps the id of
    the room and its time of creation; and either it is a [join_room] that
    was not turned down, and [lastActivity] is now the time of the request,
    or [lastActivity] is as it was, so that the hourly sweep deletes the room
    after the turn exactly when it would have before: moves, ticks, resets,
    the start of a match and disconnects do not keep a room from being
    swept. *)
Theorem only_join_refreshes_activity (w w' : World) :
  step w w' →
  room_id (w_room w') = room_id (w_room w) ∧
  createdAt (w_room w') = createdAt (w_room w) ∧
  ((∃ g socket data socket' effs,
      on_join_room (w_now w) g (Some (w_room w)) socket data
      = (Some (w_room w'), socket', effs) ∧
      ¬ rejected_join (w_room w) data ∧
      lastActivity (w_room w') = w_now w) ∨
   (lastActivity (w_room w') = lastActivity (w_room w) ∧
    ∀ now gameRooms roomId,
      sweep now (<[roomId := w_room w']> gameRooms) !! roomId = None ↔
      sweep now (<[roomId := w_room w]> gameRooms) !! roomId = None)).
Proof.
  assert (∀ room r : Room, same_record room r →
            room_id r = room_id room ∧ createdAt r = createdAt room ∧
            ((∃ g socket data socket' effs,
                on_join_room (w_now w) g (Some room) socket data
                = (Some r, socket', effs) ∧
                ¬ rejected_join room data ∧ lastActivity r = w_now w) ∨
             (lastActivity r = lastActivity room ∧
              ∀ now gameRooms roomId,
                sweep now (<[roomId := r]> gameRooms) !! roomId = None ↔
                sweep now (<[roomId := room]> gameRooms) !! roomId = None)))
    as Hsame.
  { intros room r (Hid & Hc & Hl). split; [done|]. split; [done|]. right.
    split; [done|]. intros now gameRooms roomId.
    rewrite !sweep_lookup, Hl. by repeat case_decide. }
  destruct 1 as [w t Ht
                |w g socket data room socket' effs Hg Hid Hjoin
                |w handle g socket room effs Hg Hfresh Hstart
                |w socket data room effs Hmove
                |w g socket room effs Hg Hreset
                |w socket room effs Hdis
                |w due cb before after room effs Hts Hdue Hcb
                |w handle g room effs Hin Hg Htick];
    rewrite ?(proj1 (commit_spec _ _ _)); cbn [w_room w_now].
  - by apply Hsame.
  - pose proof (on_join_room_record _ _ _ _ _ _ _ _ Hjoin)
      as (Hi & Hc & [[_ ->]|[Hn Hl]]); [by apply Hsame|].
    split; [done|]. split; [done|]. left.
    by exists g, socket, data, socket', effs.
  - by eapply Hsame, on_start_game_record.
  - by eapply Hsame, on_move_piece_record.
  - by eapply Hsame, on_reset_game_record.
  - apply Hsame. apply on_disconnect_inv in Hdis
      as [[-> _]|(pid & p & _ & _ & -> & _)]; done.
  - by eapply Hsame, run_callback_record.
  - by eapply Hsame, shrink_tick_record.
Qed.

Lemma only_join_refreshes_activity_witness :
  lastActivity (w_room Demo.world_king_on_border)
  = lastActivity (w_room (Demo.at_time 10 Demo.world_started)) ∧
  ∀ now gameRooms roomId,
    sweep now (<[roomId := w_room Demo.world_king_on_border]> gameRooms)
      !! roomId = None ↔
    sweep now (<[roomId := w_room (Demo.at_time 10 Demo.world_started)]>
                 gameRooms) !! roomId = None.
Proof.
  set (w := Demo.at_time 10 Demo.world_started).
  assert (step w Demo.world_king_on_border) as Hstep.
  { unfold Demo.world_king_on_border, Demo.move. fold w.
    destruct (on_move_piece (w_now w) (w_room w) Demo.alice
                (mkMoveData Demo.alice_king 0 0 0 5))
      as [[room effs]|] eqn:Hmove; [|by vm_compute in Hmove].
    cbv beta iota delta [Demo.run].
    exact (step_move w Demo.alice (mkMoveData Demo.alice_king 0 0 0 5)
             room effs Hmove). }
  destruct (only_join_refreshes_activity _ _ Hstep)
    as (_ & _ & [(g & socket & data & socket' & effs & _ & _ & Hl)|Hkept]).
  - by vm_compute in Hl.
  - exact Hkept.
Defined.

(** ** The board at the start of a match *)

Lemma all_drawn_clear ps : all_drawn ps → clear_spawns ps.
Proof.
  intros Hall. split.
  - apply Forall_forall. intros p Hp.
    apply list_elem_of_lookup in Hp as [i Hi].
    destruct (Hall i p Hi) as [[Hr Hc] _].
    unfold unclamped, BOARD_SIZE in *. lia.
  - intros i j p q Hij Hi Hj. destruct (Hall j q Hj) as [_ Hfar].
    rewrite Forall_forall in Hfar.
    assert (far_apart q p) as Hqp.
    { apply Hfar. apply list_elem_of_lookup. exists i.
      by rewrite lookup_take_lt. }
    unfold far_apart, minDistance, apart in *.
    destruct (decide (2 ≤ Z.abs (p.1 - q.1))) as [?|Hr]; [by left|].
    destruct (decide (8 ≤ Z.abs (p.2 - q.2))) as [?|Hc]; [by right|].
    exfalso.
    assert ((q.1 - p.1) ^ 2 ≤ 1) by nia.
    assert ((q.2 - p.2) ^ 2 ≤ 49) by nia.
    lia.
Qed.

Lemma near_apart p q rc : apart p q → near p rc → near q rc → False.
Proof. unfold apart, near. lia. Qed.

Lemma place_pieces_other h b ls rc :
  (∀ l, l ∈ ls → cell (h !!! l) ≠ rc) → place_pieces h b ls !! rc = b !! rc.
Proof.
  unfold place_pieces. revert b.
  induction ls as [|l ls IH]; intros b Hne; cbn [foldl]; [done|].
  rewrite IH by (intros l' Hl'; apply Hne; by right).
  apply lookup_insert_ne. apply Hne. by left.
Qed.

Lemma place_pieces_here h b ls l :
  NoDup ((λ l, cell (h !!! l)) <$> ls) → l ∈ ls →
  place_pieces h b ls !! cell (h !!! l) = Some l.
Proof.
  unfold place_pieces. revert b.
  induction ls as [|l0 ls IH]; intros b Hnd Hin; [by apply elem_of_nil in Hin|].
  rewrite fmap_cons in Hnd. apply NoDup_cons in Hnd as [Hnotin Hnd].
  cbn [foldl]. apply elem_of_cons in Hin as [->|Hin]; [|by apply IH].
  fold (place_pieces h (<[(piece_row (h !!! l0), piece_col (h !!! l0)):=l0]> b) ls).
  rewrite place_pieces_other; [apply lookup_insert_eq|].
  intros l' Hl' Heq. apply Hnotin. apply list_elem_of_fmap. by exists l'.
Qed.

Lemma place_pieces_lookup h b ls rc l :
  place_pieces h b ls !! rc = Some l →
  (l ∈ ls ∧ cell (h !!! l) = rc) ∨ b !! rc = Some l.
Proof.
  unfold place_pieces. revert b.
  induction ls as [|l0 ls IH]; intros b; cbn [foldl]; [by right|].
  intros [[Hin Hc]|Hb]%IH.
  - left. split; [by right|done].
  - apply lookup_insert_Some in Hb as [[<- <-]|[_ Hb]]; [|by right].
    left. split; [by left|done].
Qed.

Lemma pieceTypes_offsets :
  Forall (λ d : PieceType * Z * Z, 0 ≤ d.1.2 ≤ 1 ∧ -3 ≤ d.2 ≤ 4) pieceTypes.
Proof. repeat constructor; cbn; lia. Qed.

Lemma clamp_id x : 0 ≤ x < BOARD_SIZE → clamp x = x.
Proof. unfold clamp, BOARD_SIZE. lia. Qed.

Lemma new_piece_near playerId s g i pc :
  unclamped s →
  (createPlayerPieces playerId s.1 s.2 g).1 !! i = Some pc → near s (cell pc).
Proof.
  intros [Hr Hc] Hpc.
  apply createPlayerPieces_lookup in Hpc as (ty & dr & dc & color & Hty & ->).
  pose proof pieceTypes_offsets as Hoff. rewrite Forall_lookup in Hoff.
  specialize (Hoff i _ Hty). cbn in Hoff.
  unfold near, cell. cbn. unfold BOARD_SIZE in *.
  rewrite !clamp_id by (unfold BOARD_SIZE; lia). lia.
Qed.

Lemma new_cells_NoDup playerId s g :
  unclamped s → NoDup (cell <$> (createPlayerPieces playerId s.1 s.2 g).1).
Proof.
  intros [Hr Hc]. rewrite createPlayerPieces_cells_eq.
  pose proof pieceTypes_offsets as Hoff. rewrite Forall_forall in Hoff.
  apply NoDup_fmap_2_strong.
  - intros [[ty dr] dc] [[ty' dr'] dc'] Hd Hd' [= Hrows Hcols].
    pose proof (Hoff _ Hd) as Ho. pose proof (Hoff _ Hd') as Ho'.
    cbn in Ho, Ho', Hrows, Hcols. unfold BOARD_SIZE in *.
    rewrite !clamp_id in Hrows, Hcols by (unfold BOARD_SIZE; lia).
    assert (dr' = dr) as -> by lia. assert (dc' = dc) as -> by lia.
    clear -Hd Hd'.
    assert (Forall (λ d : PieceType * Z * Z,
              Forall (λ d' : PieceType * Z * Z,
                        d.1.2 = d'.1.2 → d.2 = d'.2 → d = d') pieceTypes)
              pieceTypes) as Hall.
    { apply (bool_decide_unpack _). by vm_compute. }
    rewrite Forall_forall in Hall. specialize (Hall _ Hd).
    rewrite Forall_forall in Hall. by apply (Hall _ Hd').
  - apply (bool_decide_unpack (NoDup _)). by vm_compute.
Qed.

Lemma spawning_duality h0 qs room : spawning h0 qs room → duality room.
Proof.
  intros (Hle & Hall & Hpieces & Hboard). unfold duality. cbv zeta.
  rewrite Hall. split; [|split; [|apply NoDup_seq]].
  - intros rc l Hl. destruct (Hboard rc l Hl) as [Hrange Hcell].
    split; [done|]. apply elem_of_seq. lia.
  - apply Forall_forall. intros l Hl%elem_of_seq.
    apply Hpieces. lia.
Qed.

Lemma no_pieces_bind (m : list (string * Player)) :
  Forall (λ kp, player_pieces kp.2 = []) m →
  m ≫= (λ kp, player_pieces kp.2) = [].
Proof.
  induction 1 as [|kp m Hkp _ IH]; [done|]. by rewrite bind_cons, Hkp, IH.
Qed.

Lemma spawn_loop_spawning entries done positions index room g h0 :
  players room = done ++ entries →
  keys_distinct (players room) →
  Forall (λ kp, player_pieces kp.2 = []) entries →
  (index + length entries ≤ length positions)%nat →
  clear_spawns positions →
  spawning h0 (take index positions) room →
  spawning h0 (take (index + length entries) positions)
           (spawn_loop entries positions index room g).1.
Proof.
  intros Hpl Hnd Hfresh Hlen [Hunc Hapart].
  revert done index room g Hpl Hnd Hlen.
  induction Hfresh as [|[k p] rest Hp Hrest IH];
    intros done index room g Hpl Hnd Hlen Hinv; cbn [spawn_loop length].
  { by rewrite Nat.add_0_r. }
  cbn [snd] in Hp. cbn [length] in Hlen.
  destruct (lookup_lt_is_Some_2 positions index) as [spawn Hspawn]; [lia|].
  rewrite Hspawn.
  assert (unclamped spawn) as Hs.
  { rewrite Forall_lookup in Hunc. by eapply Hunc. }
  pose proof (createPlayerPieces_length k spawn.1 spawn.2 g) as Hpcs.
  pose proof (new_cells_NoDup k spawn g Hs) as Hcells.
  pose proof (λ i pc, new_piece_near k spawn g i pc Hs) as Hnear.
  destruct (createPlayerPieces k spawn.1 spawn.2 g) as [pcs g1] eqn:Hcreate.
  cbn [fst] in Hpcs, Hcells, Hnear. rewrite Hpcs.
  set (h := room_heap room) in *.
  set (ls := seq (length h) 16).
  set (room1 := set_board _ _).
  assert (Hk : k ∉ done.*1).
  { unfold keys_distinct in Hnd. rewrite Hpl, fmap_app, fmap_cons in Hnd.
    apply NoDup_app in Hnd as (_ & Hnd & _). intros Hin.
    apply (Hnd k Hin). by left. }
  assert (Hpl1 : players room1 = (done ++ [(k, set_pieces ls p)]) ++ rest).
  { cbn. rewrite Hpl, players_set_middle by done. by rewrite <- app_assoc. }
  assert (Hnd1 : keys_distinct (players room1)).
  { unfold keys_distinct in *. rewrite Hpl1, <- app_assoc. cbn [app].
    rewrite fmap_app, fmap_cons.
    by rewrite Hpl, fmap_app, fmap_cons in Hnd. }
  replace (index + S (length rest))%nat with (S index + length rest)%nat by lia.
  apply (IH _ (S index) room1 g1 Hpl1 Hnd1); [lia|].
  clear IH. destruct Hinv as (Hle & Hall & Hpieces & Hboard). fold h in Hle, Hall, Hpieces, Hboard.
  assert (Hh1 : room_heap room1 = h ++ pcs) by done.
  assert (Hb1 : board room1 = place_pieces (h ++ pcs) (board room) ls) by done.
  assert (Hnew : ∀ i, (i < 16)%nat →
            ∃ pc, pcs !! i = Some pc ∧ (h ++ pcs) !!! (length h + i)%nat = pc).
  { intros i Hi. destruct (lookup_lt_is_Some_2 pcs i) as [pc Hpc]; [lia|].
    exists pc. split; [done|].
    rewrite lookup_total_app_r by lia.
    replace (length h + i - length h)%nat with i by lia.
    by apply list_lookup_total_correct. }
  assert (Hold : ∀ l, (l < length h)%nat → (h ++ pcs) !!! l = h !!! l).
  { intros l Hl. by apply lookup_total_app_l. }
  assert (Hls : ∀ l, l ∈ ls ↔ (length h ≤ l < length h + 16)%nat).
  { intros l. unfold ls. by rewrite elem_of_seq. }
  assert (Hlscells : (λ l, cell ((h ++ pcs) !!! l)) <$> ls = cell <$> pcs).
  { apply list_eq. intros i. rewrite !list_lookup_fmap. unfold ls.
    destruct (decide (i < 16)%nat) as [Hi|Hi].
    - rewrite lookup_seq_lt by done. cbn.
      destruct (Hnew i Hi) as (pc & -> & ->). done.
    - rewrite lookup_seq_ge by lia. rewrite lookup_ge_None_2 by lia. done. }
  assert (Htake : take (S index) positions = take index positions ++ [spawn])
    by (by apply take_S_r).
  rewrite Htake. unfold spawning. rewrite Hh1, Hb1, length_app, Hpcs.
  split; [lia|]. split; [|split].
  - unfold all_pieces in *. rewrite Hpl1. rewrite Hpl in Hall.
    rewrite !bind_app, !bind_cons in *. cbn [snd player_pieces set_pieces] in *.
    rewrite (no_pieces_bind rest Hrest) in *. rewrite Hp in Hall.
    cbn [app] in *. rewrite !app_nil_r in *. rewrite Hall.
    replace (length h + 16 - h0)%nat with ((length h - h0) + 16)%nat by lia.
    rewrite seq_app. by replace (h0 + (length h - h0))%nat with (length h) by lia.
  - intros l Hl. destruct (decide (l < length h)%nat) as [Hlt|Hge].
    + rewrite Hold by done.
      destruct (Hpieces l) as [(q & Hq & Hqn) Hbl]; [lia|]. split.
      * exists q. split; [|done]. apply elem_of_app. by left.
      * rewrite place_pieces_other; [done|].
        intros l' [Hl1 Hl2]%Hls Heq.
        destruct (Hnew (l' - length h)%nat) as (pc & Hpc & Hpc'); [lia|].
        replace (length h + (l' - length h))%nat with l' in Hpc' by lia.
        rewrite Hpc' in Heq. apply Hnear in Hpc. rewrite Heq in Hpc.
        apply list_elem_of_lookup in Hq as [i Hi].
        apply lookup_take_Some in Hi as [Hi Hlti].
        exact (near_apart q spawn _ (Hapart i index q spawn Hlti Hi Hspawn)
                 Hqn Hpc).
    + destruct (Hnew (l - length h)%nat) as (pc & Hpc & Hpc'); [lia|].
      replace (length h + (l - length h))%nat with l in Hpc' by lia.
      split.
      * exists spawn. split; [apply elem_of_app; right; by left|].
        rewrite Hpc'. by eapply Hnear.
      * apply place_pieces_here; [by rewrite Hlscells|]. apply Hls. lia.
  - intros rc l [[Hin Hc]|Hb]%place_pieces_lookup.
    + apply Hls in Hin. split; [lia|done].
    + destruct (Hboard rc l Hb) as [Hrange Hc]. split; [lia|].
      by rewrite Hold by lia.
Qed.

(** X24: a [start_game] that starts the match leaves every piece on its own
    cell and nothing else on the board (duality), provided that no
    coordinate was clamped and no two spawn points are within one row and
    seven columns of each other.  Spawn points accepted by a draw always
    meet this condition: they lie in the inset and at distance 20 or more
    from each other.  A fallback point need not. *)
Theorem start_game_duality (w : World) (handle : nat) (g : Rand)
    (socket : Socket) (r : Room) (effs : list Effect) (ps : list (Z * Z))
    (g1 : Rand) :
  reachable w → unit_interval g →
  phase (w_room w) = lobby →
  on_start_game handle g (w_room w) socket = Some (r, effs) →
  phase r = playing →
  generateSpawnPositions (players_size (players (w_room w))) g = (Some ps, g1) →
  (all_drawn ps → clear_spawns ps) ∧ (clear_spawns ps → duality r).
Proof.
  intros Hre Hg Hlobby Hstart Hplaying Hps. split; [apply all_drawn_clear|].
  intros Hclear.
  apply on_start_game_inv in Hstart
    as [[-> _]|(_ & ps' & g1' & _ & _ & _ & _ & _ & Hps' & -> & _)];
    [congruence|].
  rewrite Hps in Hps'. injection Hps' as <- <-.
  pose proof (terrain_invariant_reachable w Hre) as (_ & _ & _ & _ & _ & Hterrain).
  destruct (Hterrain Hlobby) as (_ & Hboard & _).
  pose proof (match_invariant_reachable w Hre) as [Hnd Hfresh].
  rewrite decide_True in Hfresh by done.
  assert (Forall (λ kp : string * Player, player_pieces kp.2 = [])
                 (players (w_room w))) as Hnone.
  { eapply Forall_impl; [exact Hfresh|]. by intros kp [_ ?]. }
  assert (length ps = length (players (w_room w))) as Hlen.
  { apply (generateSpawnPositions_length _ g); [done|].
    unfold players_size in Hps. by rewrite Hps. }
  set (room0 := set_phase playing (w_room w)).
  pose proof (spawn_loop_spawning (players (w_room w)) [] ps 0 room0 g1
                (length (room_heap room0))) as Hloop.
  eapply spawning_duality.
  change (spawning ?h0 ?qs (set_shrinkInterval ?x ?r0)) with (spawning h0 qs r0).
  apply Hloop; [done|done|done|lia|done|].
  split; [done|]. split; [|split].
  - rewrite Nat.sub_diag. cbn [seq]. unfold all_pieces.
    by apply no_pieces_bind.
  - intros l ?. lia.
  - intros rc l. cbn. by rewrite Hboard, lookup_empty.
Qed.

Lemma start_game_duality_witness :
  ∃ r effs,
    on_start_game 7 (replay [0%Q; 0%Q; 0%Q; 1 # 2]) (w_room Demo.world_lobby)
      Demo.alice = Some (r, effs) ∧
    duality r.
Proof.
  assert (clear_spawns [(5, 5); (5, 100)]) as Hclear.
  { split.
    - repeat constructor; unfold BOARD_SIZE; cbn; lia.
    - intros [|[|i]] [|[|j]] p q Hij; try lia; cbn; try done.
      intros [= <-] [= <-]. right. cbn. lia. }
  set (g := replay [0%Q; 0%Q; 0%Q; 1 # 2]).
  destruct (on_start_game 7 g (w_room Demo.world_lobby) Demo.alice)
    as [[r effs]|] eqn:Hstart; [|by vm_compute in Hstart].
  destruct (generateSpawnPositions
              (players_size (players (w_room Demo.world_lobby))) g)
    as [[ps|] g1] eqn:Hps; [|by vm_compute in Hps].
  exists r, effs. split; [exact eq_refl|].
  assert (phase r = playing) as Hplaying.
  { pose proof (f_equal (λ o, (λ re : Room * list Effect, phase re.1) <$> o)
                  Hstart) as Hphase.
    vm_compute in Hphase. injection Hphase as Hphase. symmetry.
    exact Hphase. }
  assert (ps = [(5, 5); (5, 100)]) as Hps2.
  { pose proof (f_equal fst Hps) as Hfst.
    vm_compute in Hfst. injection Hfst as Hfst. symmetry. exact Hfst. }
  rewrite <- Hps2 in Hclear.
  refine (proj2 (start_game_duality Demo.world_lobby 7 g Demo.alice r effs ps g1
                   reachable_world_lobby _ _ Hstart Hplaying Hps) Hclear).
  - subst g. unit_interval_replay.
  - vm_compute. reflexivity.
Defined.

(** ** Resetting a room *)

Lemma players_get_reset k (m : list (string * Player)) (f : Player → Player) :
  players_get k (prod_map id f <$> m) = f <$> players_get k m.
Proof.
  induction m as [|[k0 p0] m IH]; [done|].
  rewrite fmap_cons. cbn [players_get prod_map fst snd id].
  unfold id at 1. by case_decide.
Qed.

(** X25: [reset_game] is obeyed exactly when the socket is in the room and
    bound to a player with the admin flag, and then in every phase.  The
    room goes back to the lobby with an empty board, no danger zone, new
    woods and the timer at 60; every player is kept, alive again and
    without pieces, whether connected or not; the interval of the shrink
    timer is cleared, but its handle stays in [room.shrinkInterval].  The
    same socket may start the next match at once if two players or more are
    in the room. *)
Theorem on_reset_game_resets (g : Rand) (room : Room) (socket : Socket) :
  (¬ may_reset room socket → on_reset_game g room socket = (room, [])) ∧
  (may_reset room socket →
   ∃ r,
     on_reset_game g room socket
     = (r, match shrinkInterval room with
           | Some h => [ClearInterval h]
           | None => []
           end ++ [Emit (to_room (room_id room)) game_reset]) ∧
     phase r = lobby ∧ board r = ∅ ∧ dangerZones r = ∅ ∧
     woods r = (generateWoods g).1 ∧ shrinkTimer r = 60 ∧
     shrinkInterval r = shrinkInterval room ∧ admin r = admin room ∧
     players r
     = (prod_map id (λ p, set_alive true (set_pieces [] p)) <$> players room) ∧
     (may_start r socket ↔ 2 ≤ players_size (players room))).
Proof.
  unfold may_reset, on_reset_game. split.
  - intros Hno. destruct (socket_room room socket); cbn [negb]; [|done].
    destruct (socket_player room socket) as [player|]; [|done].
    destruct (player_isAdmin player) eqn:Hadm; cbn [negb]; [|done].
    destruct Hno. eauto.
  - intros (Hroom & player & Hplayer & Hadm).
    rewrite Hroom, Hplayer, Hadm. cbn [negb].
    unfold resetGame. cbv zeta. destruct (generateWoods g) as [wd g'].
    cbn [fst]. eexists. split; [reflexivity|].
    cbn [phase board dangerZones woods shrinkTimer shrinkInterval admin players
         set_players set_cooldowns set_turn set_shrinkTimer set_dangerZones
         set_woods set_board set_phase].
    repeat (split; [done|]).
    unfold may_start, players_size. cbn [phase players set_players].
    rewrite length_fmap.
    split; [by intros (_ & _ & _ & ?)|]. intros Hsize.
    split; [done|]. split; [|done].
    unfold socket_player in *.
    destruct (socket_playerId socket) as [pid|]; [|done].
    cbn [players set_players]. rewrite players_get_reset, Hplayer.
    eexists. split; [reflexivity|]. done.
Qed.

Lemma on_reset_game_resets_witness :
  ∃ r,
    on_reset_game (replay []) Demo.started Demo.alice
    = (r, match shrinkInterval Demo.started with
          | Some h => [ClearInterval h]
          | None => []
          end ++ [Emit (to_room (room_id Demo.started)) game_reset]) ∧
    phase r = lobby ∧ board r = ∅.
Proof.
  destruct (proj2 (on_reset_game_resets (replay []) Demo.started Demo.alice))
    as (r & Hr & Hphase & Hboard & _).
  - split; [vm_compute; reflexivity|].
    eexists. split; vm_compute; reflexivity.
  - exists r. split; [exact Hr|]. split; [exact Hphase|exact Hboard].
Defined.

(** ** Registering a session *)

Lemma foreign_socket_inert room socket :
  socket_room room socket = false → inert room socket.
Proof.
  intros Hroom. repeat split.
  - intros now data. unfold on_move_piece. by rewrite Hroom.
  - intros now. unfold on_disconnect. rewrite Hroom.
    by destruct (socket_playerId socket).
  - intros g. unfold on_reset_game. by rewrite Hroom.
  - intros handle g. unfold on_start_game. rewrite Hroom. eauto.
Qed.

(** X26: [register_session] writes the room id and the session id of the
    request on the socket and leaves [socket.playerId] alone: it binds no
    socket to a player.  A socket that was not bound stays inert in the
    room; and a socket of a player that registers with the id of another
    room is cut off from its room: its [move_piece], [reset_game] and
    [disconnect] are dropped, so the player is never marked as
    disconnected. *)
Theorem register_session_binds_nothing (now : Z)
    (playerSessions : gmap string SessionEntry) (socket : Socket)
    (data : SessionData) (room : Room) :
  let socket' := (on_register_session now playerSessions socket data).2 in
  socket_playerId socket' = socket_playerId socket ∧
  socket_roomId socket' = Some (reg_roomId data) ∧
  socket_sessionId socket' = Some (reg_sessionId data) ∧
  (socket_playerId socket = None ∨ reg_roomId data ≠ room_id room →
   inert room socket').
Proof.
  cbv zeta. unfold on_register_session. cbn [snd].
  split; [done|]. split; [done|]. split; [done|].
  intros [Hnone|Hne]; [by apply unbound_socket_inert|].
  apply foreign_socket_inert. unfold socket_room. cbn [socket_roomId].
  apply andb_false_iff. right. by apply bool_decide_eq_false.
Qed.

Lemma register_session_binds_nothing_witness :
  inert Demo.started
        (on_register_session 5 ∅ Demo.bob (mkSessionData "sessB" "lounge")).2.
Proof.
  apply (register_session_binds_nothing 5 ∅ Demo.bob
           (mkSessionData "sessB" "lounge") Demo.started).
  right. vm_compute. discriminate.
Defined.

(** ** The colours of the players *)

(** X27: the palette of [getPlayerColor] has 20 entries, one for each
    player of a full room, but two of them occur twice: of the indices below
    [MAX_PLAYERS], 10 and 13 give the same colour, so do 14 and 19, and no
    other two do. *)
Theorem getPlayerColor_collisions (i j : Z) :
  0 ≤ i < j → j < MAX_PLAYERS →
  getPlayerColor i = getPlayerColor j ↔ (i = 10 ∧ j = 13) ∨ (i = 14 ∧ j = 19).
Proof.
  intros Hij Hj.
  assert (Forall (λ i, Forall (λ j,
            i < j →
            bool_decide (getPlayerColor i = getPlayerColor j)
            = bool_decide ((i = 10 ∧ j = 13) ∨ (i = 14 ∧ j = 19)))
            (seqZ 0 20)) (seqZ 0 20)) as Hall.
  { apply (bool_decide_unpack _). by vm_compute. }
  rewrite Forall_forall in Hall.
  assert (i ∈ seqZ 0 20) as Hi by (apply elem_of_seqZ; unfold MAX_PLAYERS in *; lia).
  assert (j ∈ seqZ 0 20) as Hj' by (apply elem_of_seqZ; unfold MAX_PLAYERS in *; lia).
  specialize (Hall i Hi). rewrite Forall_forall in Hall.
  specialize (Hall j Hj' (proj2 Hij)).
  split.
  - intros Heq. rewrite bool_decide_true in Hall by done.
    symmetry in Hall. by apply bool_decide_eq_true in Hall.
  - intros Hor. rewrite (bool_decide_true (_ ∨ _)) in Hall by done.
    by apply bool_decide_eq_true in Hall.
Qed.

Lemma getPlayerColor_collisions_witness :
  getPlayerColor 10 = getPlayerColor 13
  ↔ (10 = 10 ∧ 13 = 13) ∨ (10 = 14 ∧ 13 = 19).
Proof.
  apply (getPlayerColor_collisions 10 13); unfold MAX_PLAYERS; lia.
Defined.
